(** * The peer pool of lisk-p2p

    A shallow embedding of [elements/lisk-p2p/src/peer_pool.ts] and of the
    helpers of [utils.ts] it relies on.  The pool is a mutable object: its
    methods become state-passing functions over a record [PeerPool], thrown
    exceptions become a [Throw] result that keeps the mutations made before
    the throw, and the events the pool emits are appended to a log together
    with the live-peer map a subscriber sees while its callback runs. *)

From Stdlib Require Import String List ZArith Lia Bool DecimalString.
From Stdlib Require Import QArith_base Qround.
From Stdlib Require DecimalZ DecimalPos.
From Stdlib Require Import Permutation.
Import ListNotations.

Local Open Scope string_scope.
Local Open Scope list_scope.
Local Open Scope nat_scope.

Set Implicit Arguments.

(* ================================================================== *)
(** * Wire types ([p2p_types]) *)
(* ================================================================== *)

(** Modelled from the spec: the declarations of [p2p_types.ts] are not part
    of the sources at hand.  A peer info is an address, a port and the
    optional attributes discovered by a status fetch (spec, data model). *)
Record DiscoveredAttributes := mkDiscoveredAttributes {
  version : string;
  height : Z;
  broadhash : string;
  nonce : string;
  os : string;
  httpPort : Z;
  protocolVersion : string
}.

Record P2PPeerInfo := mkP2PPeerInfo {
  ipAddress : string;
  wsPort : Z;
  discoveredAttributes : option DiscoveredAttributes
}.

(** [P2PDiscoveredPeerInfo] extends [P2PPeerInfo]; both are read through the
    same fields here. *)
Definition P2PDiscoveredPeerInfo := P2PPeerInfo.

Record P2PNodeInfo := mkP2PNodeInfo {
  nodeVersion : string;
  nodeHeight : Z;
  nodeBroadhash : string;
  nodeNonce : string;
  nodeOs : string;
  nodeWsPort : Z;
  nodeHttpPort : Z;
  nodeProtocolVersion : string
}.

Record P2PRequestPacket := mkP2PRequestPacket {
  procedure : string;
  requestData : string
}.

Record P2PResponsePacket := mkP2PResponsePacket {
  responseData : string
}.

Record P2PMessagePacket := mkP2PMessagePacket {
  event : string;
  messageData : string
}.

Record P2PClosePacket := mkP2PClosePacket {
  closePeerInfo : P2PDiscoveredPeerInfo;
  closeCode : Z;
  closeReason : option string
}.

Record P2PPenalty := mkP2PPenalty {
  penaltyPeerId : string;
  penaltyWeight : Z
}.

Record P2PPeersCount := mkP2PPeersCount {
  outbound : Z;
  inbound : Z
}.

(** The errors the pool throws ([errors.ts] and the built-in ones). *)
Inductive P2PError :=
| RequestFailError (message : string)
| SendFailError (message : string)
| Error (message : string)
| TypeError (message : string).

(** The inputs of the three pluggable selectors. *)
Record P2PPeerSelectionForSendInput := mkSendInput {
  sendPeers : list P2PDiscoveredPeerInfo;
  sendNodeInfo : option P2PNodeInfo;
  sendInputPeerLimit : Z;
  messagePacket : P2PMessagePacket
}.

Record P2PPeerSelectionForRequestInput := mkRequestInput {
  requestPeers : list P2PDiscoveredPeerInfo;
  requestNodeInfo : option P2PNodeInfo;
  requestPeerLimit : Z;
  requestPacket : P2PRequestPacket
}.

Record P2PPeerSelectionForConnectionInput := mkConnectionInput {
  connectionPeers : list P2PDiscoveredPeerInfo;
  connectionPeerLimit : Z
}.

Definition P2PPeerSelectionForSendFunction :=
  P2PPeerSelectionForSendInput -> list P2PDiscoveredPeerInfo.
Definition P2PPeerSelectionForRequestFunction :=
  P2PPeerSelectionForRequestInput -> list P2PDiscoveredPeerInfo.
Definition P2PPeerSelectionForConnectionFunction :=
  P2PPeerSelectionForConnectionInput -> list P2PDiscoveredPeerInfo.

(* ================================================================== *)
(** * [utils.ts] *)
(* ================================================================== *)

(** The decimal rendering a template literal gives an integer. *)
Definition numberToString (n : Z) : string :=
  NilZero.string_of_int (Z.to_int n).

Definition constructPeerIdFromPeerInfo (peerInfo : P2PPeerInfo) : string :=
  ipAddress peerInfo ++ ":" ++ numberToString (wsPort peerInfo).

(** [getBucket] ignores its three arguments and returns
    [Math.floor(Math.random() * 64)].  The draw of [Math.random] is the
    explicit argument [random]: a double in the interval from 0 (included)
    to 1 (excluded) is a rational, and its product with 64, a power of two,
    is exact. *)
Definition getBucket (_ipAddress : string) (_secret : Z) (_bucketSize : Z)
    (random : Q) : Z :=
  Qfloor (Qmult random (Qmake 64 1)).

(* ================================================================== *)
(** * Event names *)
(* ================================================================== *)

(** The twelve per-peer event names are exported by [peer.ts]; their string
    values are the contractual names listed by the spec. *)
Definition EVENT_REQUEST_RECEIVED := "requestReceived".
Definition EVENT_MESSAGE_RECEIVED := "messageReceived".
Definition EVENT_CONNECT_OUTBOUND := "connectOutbound".
Definition EVENT_CONNECT_ABORT_OUTBOUND := "connectAbortOutbound".
Definition EVENT_CLOSE_OUTBOUND := "closeOutbound".
Definition EVENT_CLOSE_INBOUND := "closeInbound".
Definition EVENT_OUTBOUND_SOCKET_ERROR := "outboundSocketError".
Definition EVENT_INBOUND_SOCKET_ERROR := "inboundSocketError".
Definition EVENT_UPDATED_PEER_INFO := "updatedPeerInfo".
Definition EVENT_FAILED_PEER_INFO_UPDATE := "failedPeerInfoUpdate".
Definition EVENT_BAN_PEER := "banPeer".
Definition EVENT_UNBAN_PEER := "unbanPeer".

Definition EVENT_FAILED_TO_PUSH_NODE_INFO := "failedToPushNodeInfo".
Definition EVENT_DISCOVERED_PEER := "discoveredPeer".
Definition EVENT_FAILED_TO_FETCH_PEER_INFO := "failedToFetchPeerInfo".

Definition MAX_PEER_LIST_BATCH_SIZE : nat := 100.
Definition MAX_PEER_DISCOVERY_PROBE_SAMPLE_SIZE : nat := 100.

(** What an event carries. *)
Inductive EventArg :=
| ArgRequest (request : P2PRequestPacket)
| ArgMessage (message : P2PMessagePacket)
| ArgPeerInfo (peerInfo : P2PDiscoveredPeerInfo)
| ArgClosePacket (closePacket : P2PClosePacket)
| ArgError (error : P2PError)
| ArgPeerId (peerId : string).

(** The twelve listeners the pool creates in its constructor. *)
Inductive Handler :=
| _handlePeerRPC
| _handlePeerMessage
| _handleOutboundPeerConnect
| _handleOutboundPeerConnectAbort
| _handlePeerCloseOutbound
| _handlePeerCloseInbound
| _handlePeerOutboundSocketError
| _handlePeerInboundSocketError
| _handlePeerInfoUpdate
| _handleFailedPeerInfoUpdate
| _handleBanPeer
| _handleUnbanPeer.

Definition Handler_eqb (a b : Handler) : bool :=
  match a, b with
  | _handlePeerRPC, _handlePeerRPC
  | _handlePeerMessage, _handlePeerMessage
  | _handleOutboundPeerConnect, _handleOutboundPeerConnect
  | _handleOutboundPeerConnectAbort, _handleOutboundPeerConnectAbort
  | _handlePeerCloseOutbound, _handlePeerCloseOutbound
  | _handlePeerCloseInbound, _handlePeerCloseInbound
  | _handlePeerOutboundSocketError, _handlePeerOutboundSocketError
  | _handlePeerInboundSocketError, _handlePeerInboundSocketError
  | _handlePeerInfoUpdate, _handlePeerInfoUpdate
  | _handleFailedPeerInfoUpdate, _handleFailedPeerInfoUpdate
  | _handleBanPeer, _handleBanPeer
  | _handleUnbanPeer, _handleUnbanPeer => true
  | _, _ => false
  end.

(* ================================================================== *)
(** * The JavaScript [Map] keyed by strings *)
(* ================================================================== *)

(** A [Map] iterates in insertion order, [set] on a present key keeps the
    position of the entry, and [delete] drops the entry of the key. *)
Section JsMap.
Variable V : Type.

Definition JsMap := list (string * V).

Fixpoint map_get (key : string) (m : JsMap) : option V :=
  match m with
  | [] => None
  | (k, v) :: rest => if String.eqb k key then Some v else map_get key rest
  end.

Definition map_has (key : string) (m : JsMap) : bool :=
  match map_get key m with
  | Some _ => true
  | None => false
  end.

Fixpoint map_set (key : string) (value : V) (m : JsMap) : JsMap :=
  match m with
  | [] => [(key, value)]
  | (k, v) :: rest =>
      if String.eqb k key then (k, value) :: rest
      else (k, v) :: map_set key value rest
  end.

Definition map_delete (key : string) (m : JsMap) : JsMap :=
  filter (fun entry => negb (String.eqb (fst entry) key)) m.

Definition map_keys (m : JsMap) : list string := map fst m.
Definition map_values (m : JsMap) : list V := map snd m.
Definition map_size (m : JsMap) : nat := length m.
End JsMap.

(* ================================================================== *)
(** * [lodash.shuffle] *)
(* ================================================================== *)

(** A shuffle draws the elements one at a time; [random] holds the draws. *)
Section Shuffle.
Variable A : Type.

Fixpoint remove_nth (i : nat) (l : list A) : list A :=
  match l, i with
  | [], _ => []
  | _ :: rest, O => rest
  | x :: rest, S i' => x :: remove_nth i' rest
  end.

Fixpoint shuffle_from (fuel : nat) (random : list nat) (l : list A) : list A :=
  match fuel with
  | O => []
  | S fuel' =>
      match l with
      | [] => []
      | first :: _ =>
          let i := Nat.modulo (hd O random) (length l) in
          nth i l first :: shuffle_from fuel' (tl random) (remove_nth i l)
      end
  end.

Definition shuffle (random : list nat) (l : list A) : list A :=
  shuffle_from (length l) random l.
End Shuffle.

(* ================================================================== *)
(** * Peers ([peer.ts]) *)
(* ================================================================== *)

Inductive PeerKind := OutboundPeer | InboundPeer.

Definition PeerKind_eqb (a b : PeerKind) : bool :=
  match a, b with
  | OutboundPeer, OutboundPeer | InboundPeer, InboundPeer => true
  | _, _ => false
  end.

Inductive ConnectionState := Connecting | Connected | Closing | Closed | Banned.

Record PeerConfig := mkPeerConfig {
  peerConnectTimeout : option Z;
  peerAckTimeout : option Z;
  banTime : option Z
}.

Record Socket := mkSocket { socketId : string }.

(** Modelled from the spec: the classes [Peer], [OutboundPeer] and
    [InboundPeer] of [peer.ts] are not part of the sources at hand.  A peer
    has an [id], the canonical id of the address it was created for, its
    current [peerInfo], its kind, an optional socket, a connection state and
    an accumulated penalty (spec, data model); as an [EventEmitter] it has
    the array of its listeners, and [outbox] records what was sent over its
    channel. *)
Record Peer := mkPeer {
  id : string;
  peerIpAddress : string;
  peerWsPort : Z;
  peerInfo : P2PDiscoveredPeerInfo;
  kind : PeerKind;
  socket : option Socket;
  peerConfig : PeerConfig;
  state : ConnectionState;
  penalty : Z;
  listeners : list (string * Handler);
  outbox : list P2PMessagePacket
}.

Definition Peer_with_peerInfo (peer : Peer) (info : P2PDiscoveredPeerInfo) : Peer :=
  mkPeer (id peer) (peerIpAddress peer) (peerWsPort peer) info (kind peer)
    (socket peer) (peerConfig peer) (state peer) (penalty peer)
    (listeners peer) (outbox peer).

Definition Peer_with_state (peer : Peer) (st : ConnectionState) : Peer :=
  mkPeer (id peer) (peerIpAddress peer) (peerWsPort peer) (peerInfo peer)
    (kind peer) (socket peer) (peerConfig peer) st (penalty peer)
    (listeners peer) (outbox peer).

Definition Peer_with_penalty (peer : Peer) (w : Z) : Peer :=
  mkPeer (id peer) (peerIpAddress peer) (peerWsPort peer) (peerInfo peer)
    (kind peer) (socket peer) (peerConfig peer) (state peer) w
    (listeners peer) (outbox peer).

Definition Peer_with_listeners (peer : Peer) (ls : list (string * Handler)) : Peer :=
  mkPeer (id peer) (peerIpAddress peer) (peerWsPort peer) (peerInfo peer)
    (kind peer) (socket peer) (peerConfig peer) (state peer) (penalty peer)
    ls (outbox peer).

Definition Peer_with_outbox (peer : Peer) (out : list P2PMessagePacket) : Peer :=
  mkPeer (id peer) (peerIpAddress peer) (peerWsPort peer) (peerInfo peer)
    (kind peer) (socket peer) (peerConfig peer) (state peer) (penalty peer)
    (listeners peer) out.

(** Modelled from the spec: the constructors of [peer.ts] are missing.  The
    id of a new peer is the canonical ["ip:port"] of the peer info it is
    created from; a peer created around a socket is connected, one created
    without dials lazily. *)
Definition new_Peer (k : PeerKind) (info : P2PDiscoveredPeerInfo)
    (sock : option Socket) (config : PeerConfig) : Peer :=
  {| id := constructPeerIdFromPeerInfo info;
     peerIpAddress := ipAddress info;
     peerWsPort := wsPort info;
     peerInfo := info;
     kind := k;
     socket := sock;
     peerConfig := config;
     state := match sock with Some _ => Connected | None => Connecting end;
     penalty := 0%Z;
     listeners := [];
     outbox := [] |}.

Definition new_OutboundPeer := new_Peer OutboundPeer.

Definition new_InboundPeer (info : P2PDiscoveredPeerInfo) (sock : Socket)
    (config : PeerConfig) : Peer :=
  new_Peer InboundPeer info (Some sock) config.

(** A peer read as a peer info (its [ipAddress] and [wsPort] getters). *)
Definition Peer_asPeerInfo (peer : Peer) : P2PPeerInfo :=
  mkP2PPeerInfo (peerIpAddress peer) (peerWsPort peer) None.

(** Modelled from the spec: [Peer.updatePeerInfo] is missing; it replaces
    the peer info of the peer. *)
Definition Peer_updatePeerInfo (peer : Peer) (info : P2PDiscoveredPeerInfo) : Peer :=
  Peer_with_peerInfo peer info.

Definition ConnectionState_connected (st : ConnectionState) : bool :=
  match st with Connected => true | _ => false end.

(** Modelled from the spec: [Peer.send] is missing; it is fire-and-forget
    and fails with [SendFail] when the channel is not connected. *)
Definition Peer_send (peer : Peer) (message : P2PMessagePacket) : P2PError + Peer :=
  if ConnectionState_connected (state peer)
  then inr (Peer_with_outbox peer (outbox peer ++ [message]))
  else inl (SendFailError "Peer socket does not exist").

(** Modelled from the spec: [Peer.request] is missing; the reply, or the
    failure, comes from the remote. *)
Definition Network := string -> P2PRequestPacket -> P2PError + P2PResponsePacket.

Definition Peer_request (network : Network) (peer : Peer)
    (packet : P2PRequestPacket) : P2PError + P2PResponsePacket :=
  network (id peer) packet.

(** Modelled from the spec: [Peer.disconnect] is missing; it is idempotent
    and leaves the peer closed.  The teardown of the socket completes
    later, so no event is delivered during the call. *)
Definition Peer_disconnect (peer : Peer) : Peer :=
  Peer_with_state peer Closed.

(** Modelled from the spec: [Peer.applyPenalty] is missing; it adds the
    weight to the penalty of the peer (the ban threshold is not defined). *)
Definition Peer_applyPenalty (peer : Peer) (w : Z) : Peer :=
  Peer_with_penalty peer (penalty peer + w)%Z.

(** [EventEmitter.on] appends to the array of listeners. *)
Definition Peer_on (eventName : string) (h : Handler) (peer : Peer) : Peer :=
  Peer_with_listeners peer (listeners peer ++ [(eventName, h)]).

Definition listener_matches (eventName : string) (h : Handler)
    (entry : string * Handler) : bool :=
  String.eqb (fst entry) eventName && Handler_eqb (snd entry) h.

Fixpoint remove_first_listener (eventName : string) (h : Handler)
    (ls : list (string * Handler)) : list (string * Handler) :=
  match ls with
  | [] => []
  | entry :: rest =>
      if listener_matches eventName h entry then rest
      else entry :: remove_first_listener eventName h rest
  end.

(** [EventEmitter.removeListener] removes at most one instance of the
    listener, the one added last. *)
Definition Peer_removeListener (eventName : string) (h : Handler) (peer : Peer) : Peer :=
  Peer_with_listeners peer
    (rev (remove_first_listener eventName h (rev (listeners peer)))).

(** The listeners an emission of [eventName] calls, in order. *)
Definition listenersFor (eventName : string) (ls : list (string * Handler)) : list Handler :=
  map snd (filter (fun entry => String.eqb (fst entry) eventName) ls).

(* ================================================================== *)
(** * The pool *)
(* ================================================================== *)

Record PeerPoolConfig := mkPeerPoolConfig {
  connectTimeout : option Z;
  ackTimeout : option Z;
  peerSelectionForSend : P2PPeerSelectionForSendFunction;
  peerSelectionForRequest : P2PPeerSelectionForRequestFunction;
  peerSelectionForConnection : P2PPeerSelectionForConnectionFunction;
  sendPeerLimit : Z;
  peerBanTime : option Z;
  maxOutboundConnections : Z;
  maxInboundConnections : Z;
  outboundEvictionInterval : option Z
}.

(** An event emitted by the pool, with the live-peer map its subscribers
    see while the emission runs. *)
Record Emission := mkEmission {
  emittedEvent : string;
  emittedArg : EventArg;
  observedPeerMap : JsMap Peer
}.

(** A [setTimeout] of the pool that has not fired yet. *)
Record Timeout := mkTimeout {
  timeoutHandler : Handler;
  timeoutArg : EventArg;
  timeoutDelay : option Z
}.

(** Work the pool started and did not wait for. *)
Inductive Task :=
| PushNodeInfo (peerId : string) (nodeInfo : P2PNodeInfo)
| FetchStatus (peerId : string).

(** The state of a pool: the private fields of the class ([_peerSelectFor...],
    [_maxOutboundConnections], [_maxInboundConnections] and [_sendPeerLimit]
    are read-only copies of the configuration and are read from it), the
    events emitted so far, the peer objects that left the map, and the
    pending timeouts and tasks. *)
Record PeerPool := mkPeerPool {
  _peerMap : JsMap Peer;
  _peerPoolConfig : PeerPoolConfig;
  _nodeInfo : option P2PNodeInfo;
  _outboundShuffleIntervalId : bool;
  emitted : list Emission;
  released : list Peer;
  timeouts : list Timeout;
  tasks : list Task
}.

Definition _maxOutboundConnections (pool : PeerPool) : Z :=
  maxOutboundConnections (_peerPoolConfig pool).
Definition _maxInboundConnections (pool : PeerPool) : Z :=
  maxInboundConnections (_peerPoolConfig pool).
Definition _sendPeerLimit (pool : PeerPool) : Z :=
  sendPeerLimit (_peerPoolConfig pool).
Definition _peerSelectForSend (pool : PeerPool) :=
  peerSelectionForSend (_peerPoolConfig pool).
Definition _peerSelectForRequest (pool : PeerPool) :=
  peerSelectionForRequest (_peerPoolConfig pool).
Definition _peerSelectForConnection (pool : PeerPool) :=
  peerSelectionForConnection (_peerPoolConfig pool).

Definition with_peerMap (pool : PeerPool) (m : JsMap Peer) : PeerPool :=
  mkPeerPool m (_peerPoolConfig pool) (_nodeInfo pool)
    (_outboundShuffleIntervalId pool) (emitted pool) (released pool)
    (timeouts pool) (tasks pool).

Definition with_nodeInfo (pool : PeerPool) (info : option P2PNodeInfo) : PeerPool :=
  mkPeerPool (_peerMap pool) (_peerPoolConfig pool) info
    (_outboundShuffleIntervalId pool) (emitted pool) (released pool)
    (timeouts pool) (tasks pool).

Definition with_interval (pool : PeerPool) (armed : bool) : PeerPool :=
  mkPeerPool (_peerMap pool) (_peerPoolConfig pool) (_nodeInfo pool)
    armed (emitted pool) (released pool) (timeouts pool) (tasks pool).

Definition with_emitted (pool : PeerPool) (log : list Emission) : PeerPool :=
  mkPeerPool (_peerMap pool) (_peerPoolConfig pool) (_nodeInfo pool)
    (_outboundShuffleIntervalId pool) log (released pool)
    (timeouts pool) (tasks pool).

Definition with_released (pool : PeerPool) (gone : list Peer) : PeerPool :=
  mkPeerPool (_peerMap pool) (_peerPoolConfig pool) (_nodeInfo pool)
    (_outboundShuffleIntervalId pool) (emitted pool) gone
    (timeouts pool) (tasks pool).

Definition with_timeouts (pool : PeerPool) (ts : list Timeout) : PeerPool :=
  mkPeerPool (_peerMap pool) (_peerPoolConfig pool) (_nodeInfo pool)
    (_outboundShuffleIntervalId pool) (emitted pool) (released pool)
    ts (tasks pool).

Definition with_tasks (pool : PeerPool) (ts : list Task) : PeerPool :=
  mkPeerPool (_peerMap pool) (_peerPoolConfig pool) (_nodeInfo pool)
    (_outboundShuffleIntervalId pool) (emitted pool) (released pool)
    (timeouts pool) ts.

(** The constructor: an empty map, and the interval of the periodic
    eviction of an outbound peer armed. *)
Definition new_PeerPool (peerPoolConfig : PeerPoolConfig) : PeerPool :=
  mkPeerPool [] peerPoolConfig None true [] [] [] [].

(* ------------------------------------------------------------------ *)
(** ** Methods as computations over the pool *)

Inductive Completion (A : Type) :=
| Return (value : A)
| Throw (error : P2PError).

Arguments Return {A} value.
Arguments Throw {A} error.

Definition M (A : Type) : Type := PeerPool -> Completion A * PeerPool.

Definition ret {A : Type} (a : A) : M A := fun pool => (Return a, pool).

Definition throw {A : Type} (e : P2PError) : M A := fun pool => (Throw e, pool).

Definition bind {A B : Type} (c : M A) (k : A -> M B) : M B :=
  fun pool =>
    match c pool with
    | (Return a, pool') => k a pool'
    | (Throw e, pool') => (Throw e, pool')
    end.

Declare Scope pool_scope.
Delimit Scope pool_scope with pool.
Notation "x <- c ;; k" := (bind c (fun x => k))
  (at level 61, c at next level, right associativity) : pool_scope.
Notation "c ;; k" := (bind c (fun _ => k))
  (at level 61, right associativity) : pool_scope.
Local Open Scope pool_scope.

Definition this : M PeerPool := fun pool => (Return pool, pool).

Definition update (f : PeerPool -> PeerPool) : M unit :=
  fun pool => (Return tt, f pool).

(** [Array.prototype.forEach]: a throw of the callback ends the loop. *)
Fixpoint forEach {A : Type} (callback : A -> M unit) (l : list A) : M unit :=
  match l with
  | [] => ret tt
  | x :: rest => callback x ;; forEach callback rest
  end.

(** [this.emit]: the subscribers of the pool run now, on the current map. *)
Definition emit (eventName : string) (arg : EventArg) : M unit :=
  update (fun pool =>
    with_emitted pool
      (emitted pool ++ [mkEmission eventName arg (_peerMap pool)])).

Definition setTimeout (h : Handler) (arg : EventArg) (delay : option Z) : M unit :=
  update (fun pool => with_timeouts pool (timeouts pool ++ [mkTimeout h arg delay])).

(* ------------------------------------------------------------------ *)
(** ** Reads *)

Definition getPeers (kind' : option PeerKind) (pool : PeerPool) : list Peer :=
  let peers := map_values (_peerMap pool) in
  match kind' with
  | Some k => filter (fun peer => PeerKind_eqb (kind peer) k) peers
  | None => peers
  end.

Definition getPeer (peerId : string) (pool : PeerPool) : option Peer :=
  map_get peerId (_peerMap pool).

Definition hasPeer (peerId : string) (pool : PeerPool) : bool :=
  map_has peerId (_peerMap pool).

Definition getAllPeerInfos (pool : PeerPool) : list P2PDiscoveredPeerInfo :=
  map peerInfo (getPeers None pool).

(** The reducer throws on a peer that is neither outbound nor inbound; a
    [PeerKind] is one of the two, so that branch has no counterpart. *)
Definition getPeersCountPerKind (pool : PeerPool) : P2PPeersCount :=
  fold_left
    (fun prev peer =>
       match kind peer with
       | OutboundPeer => mkP2PPeersCount (outbound prev + 1)%Z (inbound prev)
       | InboundPeer => mkP2PPeersCount (outbound prev) (inbound prev + 1)%Z
       end)
    (map_values (_peerMap pool))
    (mkP2PPeersCount 0 0).

(* ------------------------------------------------------------------ *)
(** ** Listeners *)

Definition _bindHandlersToPeer (peer : Peer) : Peer :=
  let peer := Peer_on EVENT_REQUEST_RECEIVED _handlePeerRPC peer in
  let peer := Peer_on EVENT_MESSAGE_RECEIVED _handlePeerMessage peer in
  let peer := Peer_on EVENT_CONNECT_OUTBOUND _handleOutboundPeerConnect peer in
  let peer := Peer_on EVENT_CONNECT_ABORT_OUTBOUND _handleOutboundPeerConnectAbort peer in
  let peer := Peer_on EVENT_CLOSE_OUTBOUND _handlePeerCloseOutbound peer in
  let peer := Peer_on EVENT_CLOSE_INBOUND _handlePeerCloseInbound peer in
  let peer := Peer_on EVENT_OUTBOUND_SOCKET_ERROR _handlePeerOutboundSocketError peer in
  let peer := Peer_on EVENT_INBOUND_SOCKET_ERROR _handlePeerInboundSocketError peer in
  let peer := Peer_on EVENT_UPDATED_PEER_INFO _handlePeerInfoUpdate peer in
  let peer := Peer_on EVENT_FAILED_PEER_INFO_UPDATE _handleFailedPeerInfoUpdate peer in
  let peer := Peer_on EVENT_BAN_PEER _handleBanPeer peer in
  Peer_on EVENT_UNBAN_PEER _handleUnbanPeer peer.

Definition _unbindHandlersFromPeer (peer : Peer) : Peer :=
  let peer := Peer_removeListener EVENT_REQUEST_RECEIVED _handlePeerRPC peer in
  let peer := Peer_removeListener EVENT_MESSAGE_RECEIVED _handlePeerMessage peer in
  let peer := Peer_removeListener EVENT_CONNECT_OUTBOUND _handleOutboundPeerConnect peer in
  let peer := Peer_removeListener EVENT_CONNECT_ABORT_OUTBOUND _handleOutboundPeerConnectAbort peer in
  let peer := Peer_removeListener EVENT_CLOSE_OUTBOUND _handlePeerCloseOutbound peer in
  let peer := Peer_removeListener EVENT_CLOSE_INBOUND _handlePeerCloseInbound peer in
  let peer := Peer_removeListener EVENT_UPDATED_PEER_INFO _handlePeerInfoUpdate peer in
  let peer := Peer_removeListener EVENT_FAILED_PEER_INFO_UPDATE _handleFailedPeerInfoUpdate peer in
  let peer := Peer_removeListener EVENT_BAN_PEER _handleBanPeer peer in
  Peer_removeListener EVENT_UNBAN_PEER _handleUnbanPeer peer.

(** [_applyNodeInfoOnPeer] starts the push and does not wait for it. *)
Definition _applyNodeInfoOnPeer (peer : Peer) (nodeInfo : P2PNodeInfo) : M unit :=
  update (fun pool => with_tasks pool (tasks pool ++ [PushNodeInfo (id peer) nodeInfo])).

(* ------------------------------------------------------------------ *)
(** ** Adding and removing peers *)

(** [this._peerMap.delete(key)]: the object of the entry leaves the map. *)
Definition Map_delete (key : string) : M bool :=
  fun pool =>
    (Return (map_has key (_peerMap pool)),
     with_peerMap pool (map_delete key (_peerMap pool))).

(** [this._peerMap.set(key, peer)] for a new peer object: an object the
    entry held before is no longer in the map, but lives on as it was. *)
Definition Map_set (key : string) (peer : Peer) : M unit :=
  update (fun pool =>
    let gone :=
      match map_get key (_peerMap pool) with
      | Some old => released pool ++ [old]
      | None => released pool
      end in
    with_released (with_peerMap pool (map_set key peer (_peerMap pool))) gone).

(** A method call that mutates the peer object held under [key]. *)
Definition mutatePeer (key : string) (peer : Peer) : M unit :=
  update (fun pool => with_peerMap pool (map_set key peer (_peerMap pool))).

Definition removePeer (peerId : string) : M bool :=
  pool <- this ;;
  match map_get peerId (_peerMap pool) with
  | Some peer =>
      let peer := Peer_disconnect peer in
      let peer := _unbindHandlersFromPeer peer in
      update (fun pool => with_released pool (released pool ++ [peer]))
  | None => ret tt
  end ;;
  Map_delete peerId.

Definition addInboundPeer (random : list nat) (peerInfo : P2PDiscoveredPeerInfo)
    (socket : Socket) : M Peer :=
  pool <- this ;;
  let inboundPeers := getPeers (Some InboundPeer) pool in
  (if (Z.of_nat (length inboundPeers) >=? _maxInboundConnections pool)%Z
   then
     match shuffle random inboundPeers with
     | victim :: _ => removePeer (id victim) ;; ret tt
     | [] => throw (TypeError "Cannot read property 'id' of undefined")
     end
   else ret tt) ;;
  let peerConfig :=
    mkPeerConfig (connectTimeout (_peerPoolConfig pool))
      (ackTimeout (_peerPoolConfig pool)) None in
  let peer := new_InboundPeer peerInfo socket peerConfig in
  pool <- this ;;
  if map_has (id peer) (_peerMap pool)
  then throw (Error ("Peer " ++ id peer ++ " was already in the peer pool"))
  else
    (* the listeners are bound on the object the map holds *)
    let peer := _bindHandlersToPeer peer in
    Map_set (id peer) peer ;;
    match _nodeInfo pool with
    | Some nodeInfo => _applyNodeInfoOnPeer peer nodeInfo
    | None => ret tt
    end ;;
    ret peer.

Definition addOutboundPeer (peerId : string) (peerInfo : P2PDiscoveredPeerInfo)
    (socket : option Socket) : M Peer :=
  pool <- this ;;
  match getPeer peerId pool with
  | Some existingPeer =>
      let existingPeer := Peer_updatePeerInfo existingPeer peerInfo in
      mutatePeer peerId existingPeer ;;
      ret existingPeer
  | None =>
      let peerConfig :=
        mkPeerConfig (connectTimeout (_peerPoolConfig pool))
          (ackTimeout (_peerPoolConfig pool))
          (peerBanTime (_peerPoolConfig pool)) in
      let peer := new_OutboundPeer peerInfo socket peerConfig in
      (* the listeners are bound on the object the map holds *)
      let peer := _bindHandlersToPeer peer in
      Map_set (id peer) peer ;;
      match _nodeInfo pool with
      | Some nodeInfo => _applyNodeInfoOnPeer peer nodeInfo
      | None => ret tt
      end ;;
      ret peer
  end.

Definition removeAllPeers : M unit :=
  pool <- this ;;
  (if _outboundShuffleIntervalId pool
   then update (fun pool => with_interval pool false)
   else ret tt) ;;
  forEach (fun peer => removePeer (id peer) ;; ret tt)
    (map_values (_peerMap pool)).

Definition applyPenalty (peerPenalty : P2PPenalty) : M unit :=
  pool <- this ;;
  match map_get (penaltyPeerId peerPenalty) (_peerMap pool) with
  | Some peer =>
      mutatePeer (penaltyPeerId peerPenalty)
        (Peer_applyPenalty peer (penaltyWeight peerPenalty))
  | None => throw (Error "Peer not found")
  end.

Definition _evictPeer (random : list nat) (kind' : PeerKind) : M unit :=
  pool <- this ;;
  let peers := getPeers (Some kind') pool in
  match peers with
  | [] => ret tt
  | _ :: _ =>
      match kind' with
      | OutboundPeer =>
          match shuffle random peers with
          | victim :: _ =>
              let peerIdToRemove :=
                constructPeerIdFromPeerInfo (Peer_asPeerInfo victim) in
              removePeer peerIdToRemove ;; ret tt
          | [] => throw (TypeError "Cannot read property 'ipAddress' of undefined")
          end
      | InboundPeer => ret tt
      end
  end.

(* ------------------------------------------------------------------ *)
(** ** Requests and messages *)

Definition requestFromPeer (network : Network) (packet : P2PRequestPacket)
    (peerId : string) : M P2PResponsePacket :=
  pool <- this ;;
  match map_get peerId (_peerMap pool) with
  | None =>
      throw (RequestFailError
        ("Request failed because a peer with id " ++ peerId ++ " could not be found"))
  | Some peer =>
      match Peer_request network peer packet with
      | inr response => ret response
      | inl error => throw error
      end
  end.

Definition request (network : Network) (packet : P2PRequestPacket) : M P2PResponsePacket :=
  pool <- this ;;
  let listOfPeerInfo := map peerInfo (map_values (_peerMap pool)) in
  let selectedPeers :=
    _peerSelectForRequest pool
      (mkRequestInput listOfPeerInfo (_nodeInfo pool) 1%Z packet) in
  match selectedPeers with
  | [] =>
      throw (RequestFailError
        "Request failed due to no peers found in peer selection")
  | first :: _ =>
      let selectedPeerId := constructPeerIdFromPeerInfo first in
      requestFromPeer network packet selectedPeerId
  end.

Definition sendToPeer (message : P2PMessagePacket) (peerId : string) : M unit :=
  pool <- this ;;
  match map_get peerId (_peerMap pool) with
  | None =>
      throw (SendFailError
        ("Send failed because a peer with id " ++ peerId ++ " could not be found"))
  | Some peer =>
      match Peer_send peer message with
      | inr peer => mutatePeer peerId peer
      | inl error => throw error
      end
  end.

Definition send (message : P2PMessagePacket) : M unit :=
  pool <- this ;;
  let listOfPeerInfo := map peerInfo (map_values (_peerMap pool)) in
  let selectedPeers :=
    _peerSelectForSend pool
      (mkSendInput listOfPeerInfo (_nodeInfo pool) (_sendPeerLimit pool) message) in
  forEach
    (fun peerInfo =>
       let selectedPeerId := constructPeerIdFromPeerInfo peerInfo in
       sendToPeer message selectedPeerId)
    selectedPeers.

Definition applyNodeInfo (nodeInfo : P2PNodeInfo) : M unit :=
  update (fun pool => with_nodeInfo pool (Some nodeInfo)) ;;
  pool <- this ;;
  let peerList := getPeers None pool in
  forEach (fun peer => _applyNodeInfoOnPeer peer nodeInfo) peerList.

(* ------------------------------------------------------------------ *)
(** ** Discovery and new connections *)

Definition tryCatch {A : Type} (body : M A) (handler : P2PError -> M A) : M A :=
  fun pool =>
    match body pool with
    | (Return a, pool') => (Return a, pool')
    | (Throw e, pool') => handler e pool'
    end.

Fixpoint mapM {A B : Type} (f : A -> M B) (l : list A) : M (list B) :=
  match l with
  | [] => ret []
  | x :: rest => y <- f x ;; ys <- mapM f rest ;; ret (y :: ys)
  end.

Fixpoint defined {A : Type} (l : list (option A)) : list A :=
  match l with
  | [] => []
  | Some x :: rest => x :: defined rest
  | None :: rest => defined rest
  end.

(** [connectAndFetchPeerInfo] dials a seed, and the callback of the seed
    waits for the dial.  The rest of the callback, which runs once the dial
    has settled with [outcome], on the pool as it is then: *)
Definition fetchStatusAndCreatePeers_settled
    (outcome : P2PError + (P2PDiscoveredPeerInfo * Socket))
    : M (option P2PDiscoveredPeerInfo) :=
  tryCatch
    (match outcome with
     | inr (seedPeerInfo, seedSocket) =>
         let peerId := constructPeerIdFromPeerInfo seedPeerInfo in
         addOutboundPeer peerId seedPeerInfo (Some seedSocket) ;;
         ret (Some seedPeerInfo)
     | inl error => throw error
     end)
    (fun error =>
       emit EVENT_FAILED_TO_FETCH_PEER_INFO (ArgError error) ;; ret None).

(** The call itself starts the dials and changes nothing of the pool.
    This is the run of [fetchStatusAndCreatePeers] in which the dials settle
    in the order of the seeds and nothing else runs on the pool before the
    last of them has settled; [connect] is what each dial settles with.  In
    any other run the callbacks are steps of their own, with other steps in
    between: see [Operation]. *)
Definition fetchStatusAndCreatePeers
    (connect : P2PPeerInfo -> P2PNodeInfo -> PeerConfig ->
               P2PError + (P2PDiscoveredPeerInfo * Socket))
    (seedPeers : list P2PPeerInfo) (nodeInfo : P2PNodeInfo)
    (peerConfig : PeerConfig) : M (list P2PDiscoveredPeerInfo) :=
  listOfPeerInfos <-
    mapM (fun seedPeer =>
      fetchStatusAndCreatePeers_settled (connect seedPeer nodeInfo peerConfig))
      seedPeers ;;
  ret (defined listOfPeerInfos).

Definition selectRandomPeerSample (random : list nat) (peerList : list Peer)
    (count : nat) : list Peer :=
  firstn count (shuffle random peerList).

(** [runDiscovery] up to its await: the known peers are added, or found,
    in the call itself. *)
Definition runDiscovery_started (knownPeers : list P2PDiscoveredPeerInfo)
    : M (list Peer) :=
  mapM (fun peerInfo =>
    let peerId := constructPeerIdFromPeerInfo peerInfo in
    addOutboundPeer peerId peerInfo None) knownPeers.

(** [runDiscovery] from the end of its await: [discoveredPeers] is what
    [discoverPeers] answered, and the pool is as it is then. *)
Definition runDiscovery_answered (discoveredPeers : list P2PDiscoveredPeerInfo)
    : M (list P2PDiscoveredPeerInfo) :=
  forEach
    (fun peerInfo =>
       let peerId := constructPeerIdFromPeerInfo peerInfo in
       pool <- this ;;
       match getPeer peerId pool with
       | Some existingPeer =>
           mutatePeer peerId (Peer_updatePeerInfo existingPeer peerInfo)
       | None => ret tt
       end)
    discoveredPeers ;;
  ret discoveredPeers.

(** [discoverPeers] probes the sample; what it answers is the argument
    [discover].  This is the run of [runDiscovery] in which nothing else
    runs on the pool during the probe; in any other run the two parts are
    steps of their own, with other steps in between: see [Operation]. *)
Definition runDiscovery (random : list nat)
    (discover : list Peer -> list string -> list P2PDiscoveredPeerInfo)
    (knownPeers : list P2PDiscoveredPeerInfo) (blacklist : list P2PPeerInfo)
    : M (list P2PDiscoveredPeerInfo) :=
  peersForDiscovery <- runDiscovery_started knownPeers ;;
  let peerSampleToProbe :=
    selectRandomPeerSample random peersForDiscovery
      MAX_PEER_DISCOVERY_PROBE_SAMPLE_SIZE in
  let discoveredPeers := discover peerSampleToProbe (map ipAddress blacklist) in
  runDiscovery_answered discoveredPeers.

Definition triggerNewConnections (peers : list P2PDiscoveredPeerInfo) : M unit :=
  pool <- this ;;
  let disconnectedPeers :=
    filter (fun peer =>
      negb (map_has (constructPeerIdFromPeerInfo peer) (_peerMap pool))) peers in
  let outbound' := outbound (getPeersCountPerKind pool) in
  let peersToConnect :=
    _peerSelectForConnection pool
      (mkConnectionInput disconnectedPeers
         (_maxOutboundConnections pool - outbound')%Z) in
  forEach
    (fun peerInfo =>
       let peerId := constructPeerIdFromPeerInfo peerInfo in
       addOutboundPeer peerId peerInfo None ;; ret tt)
    peersToConnect.

(* ------------------------------------------------------------------ *)
(** ** The listeners of the pool and the events of a peer *)

(** What each listener does with the payload it is called with.  The
    listeners that read a field of the payload are given the payload of
    their event by the types of [peer.ts]; any other payload has no such
    field. *)
Definition handle (h : Handler) (arg : EventArg) : M unit :=
  match h with
  | _handlePeerRPC => emit EVENT_REQUEST_RECEIVED arg
  | _handlePeerMessage => emit EVENT_MESSAGE_RECEIVED arg
  | _handleOutboundPeerConnect =>
      emit EVENT_CONNECT_OUTBOUND arg ;;
      match arg with
      | ArgPeerInfo peerInfo =>
          let peerId := constructPeerIdFromPeerInfo peerInfo in
          pool <- this ;;
          match getPeer peerId pool with
          | None =>
              emit EVENT_FAILED_TO_FETCH_PEER_INFO
                (ArgError (RequestFailError
                   "Failed to fetch peer status because the relevant peer could not be found"))
          | Some peer =>
              (* [peer.fetchStatus()] is awaited: see [settleFetchStatus] *)
              update (fun pool => with_tasks pool (tasks pool ++ [FetchStatus peerId]))
          end
      | _ => throw (TypeError "Cannot read property 'ipAddress' of undefined")
      end
  | _handleOutboundPeerConnectAbort => emit EVENT_CONNECT_ABORT_OUTBOUND arg
  | _handlePeerCloseOutbound =>
      match arg with
      | ArgClosePacket closePacket =>
          let peerId := constructPeerIdFromPeerInfo (closePeerInfo closePacket) in
          removePeer peerId ;;
          emit EVENT_CLOSE_OUTBOUND arg
      | _ => throw (TypeError "Cannot read property 'ipAddress' of undefined")
      end
  | _handlePeerCloseInbound =>
      match arg with
      | ArgClosePacket closePacket =>
          let peerId := constructPeerIdFromPeerInfo (closePeerInfo closePacket) in
          removePeer peerId ;;
          emit EVENT_CLOSE_INBOUND arg
      | _ => throw (TypeError "Cannot read property 'ipAddress' of undefined")
      end
  | _handlePeerOutboundSocketError => emit EVENT_OUTBOUND_SOCKET_ERROR arg
  | _handlePeerInboundSocketError => emit EVENT_INBOUND_SOCKET_ERROR arg
  | _handlePeerInfoUpdate => emit EVENT_UPDATED_PEER_INFO arg
  | _handleFailedPeerInfoUpdate => emit EVENT_FAILED_PEER_INFO_UPDATE arg
  | _handleBanPeer =>
      pool <- this ;;
      setTimeout _handleUnbanPeer arg (peerBanTime (_peerPoolConfig pool)) ;;
      emit EVENT_BAN_PEER arg
  | _handleUnbanPeer => emit EVENT_UNBAN_PEER arg
  end.

(** The end of the status fetch started by [_handleOutboundPeerConnect]. *)
Definition settleFetchStatus (outcome : P2PError + P2PDiscoveredPeerInfo) : M unit :=
  match outcome with
  | inr detailedPeerInfo => emit EVENT_DISCOVERED_PEER (ArgPeerInfo detailedPeerInfo)
  | inl error => emit EVENT_FAILED_TO_FETCH_PEER_INFO (ArgError error)
  end.

(** The end of a push started by [_applyNodeInfoOnPeer]. *)
Definition settlePushNodeInfo (outcome : option P2PError) : M unit :=
  match outcome with
  | None => ret tt
  | Some error => emit EVENT_FAILED_TO_PUSH_NODE_INFO (ArgError error)
  end.

(** [peer.emit(eventName, arg)]: the listeners registered on the peer for
    the event are called in the order of their registration. *)
Definition Peer_emit (peer : Peer) (eventName : string) (arg : EventArg) : M unit :=
  forEach (fun h => handle h arg) (listenersFor eventName (listeners peer)).

(** A timeout of the pool fires. *)
Definition fireTimeout (t : Timeout) : M unit :=
  handle (timeoutHandler t) (timeoutArg t).

(** A tick of the interval armed by the constructor. *)
Definition outboundShuffleTick (random : list nat) : M unit :=
  pool <- this ;;
  if _outboundShuffleIntervalId pool then _evictPeer random OutboundPeer else ret tt.

(* ------------------------------------------------------------------ *)
(** ** Sequences of steps on the pool *)

(** A step is what runs on the pool without anything else in between: a
    call of a public method; a part of [runDiscovery] or of
    [fetchStatusAndCreatePeers] between two awaits; and what the runtime
    delivers to the pool, an event of a peer, a timeout, a tick of the
    eviction interval, the end of a status fetch or of a push of the node
    info.  The two async methods that change the map are listed as one step,
    for the run in which nothing else happens during their awaits, and by
    their parts, for every other run. *)
Inductive Operation :=
| CallApplyNodeInfo (nodeInfo : P2PNodeInfo)
| CallRequest (network : Network) (packet : P2PRequestPacket)
| CallSend (message : P2PMessagePacket)
| CallRequestFromPeer (network : Network) (packet : P2PRequestPacket) (peerId : string)
| CallSendToPeer (message : P2PMessagePacket) (peerId : string)
| CallFetchStatusAndCreatePeers
    (connect : P2PPeerInfo -> P2PNodeInfo -> PeerConfig ->
               P2PError + (P2PDiscoveredPeerInfo * Socket))
    (seedPeers : list P2PPeerInfo) (nodeInfo : P2PNodeInfo) (peerConfig : PeerConfig)
| CallRunDiscovery (random : list nat)
    (discover : list Peer -> list string -> list P2PDiscoveredPeerInfo)
    (knownPeers : list P2PDiscoveredPeerInfo) (blacklist : list P2PPeerInfo)
| CallTriggerNewConnections (peers : list P2PDiscoveredPeerInfo)
| CallAddInboundPeer (random : list nat) (peerInfo : P2PDiscoveredPeerInfo) (socket : Socket)
| CallAddOutboundPeer (peerId : string) (peerInfo : P2PDiscoveredPeerInfo)
    (socket : option Socket)
| CallRemoveAllPeers
| CallRemovePeer (peerId : string)
| CallApplyPenalty (peerPenalty : P2PPenalty)
| StartRunDiscovery (knownPeers : list P2PDiscoveredPeerInfo)
| ResumeRunDiscovery (discoveredPeers : list P2PDiscoveredPeerInfo)
| ResumeFetchStatusAndCreatePeers
    (outcome : P2PError + (P2PDiscoveredPeerInfo * Socket))
| PeerEmits (peer : Peer) (eventName : string) (arg : EventArg)
| TimeoutFires (t : Timeout)
| IntervalTicks (random : list nat)
| FetchStatusSettles (outcome : P2PError + P2PDiscoveredPeerInfo)
| PushNodeInfoSettles (outcome : option P2PError).

(** The pool a step leaves behind, whether it returned or threw. *)
Definition perform (op : Operation) (pool : PeerPool) : PeerPool :=
  match op with
  | CallApplyNodeInfo nodeInfo => snd (applyNodeInfo nodeInfo pool)
  | CallRequest network packet => snd (request network packet pool)
  | CallSend message => snd (send message pool)
  | CallRequestFromPeer network packet peerId =>
      snd (requestFromPeer network packet peerId pool)
  | CallSendToPeer message peerId => snd (sendToPeer message peerId pool)
  | CallFetchStatusAndCreatePeers connect seedPeers nodeInfo peerConfig =>
      snd (fetchStatusAndCreatePeers connect seedPeers nodeInfo peerConfig pool)
  | CallRunDiscovery random discover knownPeers blacklist =>
      snd (runDiscovery random discover knownPeers blacklist pool)
  | CallTriggerNewConnections peers => snd (triggerNewConnections peers pool)
  | CallAddInboundPeer random peerInfo socket =>
      snd (addInboundPeer random peerInfo socket pool)
  | CallAddOutboundPeer peerId peerInfo socket =>
      snd (addOutboundPeer peerId peerInfo socket pool)
  | CallRemoveAllPeers => snd (removeAllPeers pool)
  | CallRemovePeer peerId => snd (removePeer peerId pool)
  | CallApplyPenalty peerPenalty => snd (applyPenalty peerPenalty pool)
  | StartRunDiscovery knownPeers => snd (runDiscovery_started knownPeers pool)
  | ResumeRunDiscovery discoveredPeers =>
      snd (runDiscovery_answered discoveredPeers pool)
  | ResumeFetchStatusAndCreatePeers outcome =>
      snd (fetchStatusAndCreatePeers_settled outcome pool)
  | PeerEmits peer eventName arg => snd (Peer_emit peer eventName arg pool)
  | TimeoutFires t => snd (fireTimeout t pool)
  | IntervalTicks random => snd (outboundShuffleTick random pool)
  | FetchStatusSettles outcome => snd (settleFetchStatus outcome pool)
  | PushNodeInfoSettles outcome => snd (settlePushNodeInfo outcome pool)
  end.

Definition performAll (ops : list Operation) (pool : PeerPool) : PeerPool :=
  fold_left (fun pool op => perform op pool) ops pool.

(* ------------------------------------------------------------------ *)
(** ** Measures and invariants of the map, and named parts of the methods *)

(** The keys of the map with the kind of the peer under each. *)
Definition shape (m : JsMap Peer) : list (string * PeerKind) :=
  map (fun entry => (fst entry, kind (snd entry))) m.

(** [peer instanceof kind]. *)
Definition ofKind (k : PeerKind) (peer : Peer) : bool := PeerKind_eqb (kind peer) k.

(** The number of peers of a kind in the map. *)
Definition countKind (k : PeerKind) (m : JsMap Peer) : nat :=
  length (filter (ofKind k) (map_values m)).

Definition unit_of (b : bool) : nat := if b then 1 else 0.

(** The outbound and the inbound peers of a pool. *)
Definition outboundCount (pool : PeerPool) : nat := countKind OutboundPeer (_peerMap pool).
Definition inboundCount (pool : PeerPool) : nat := countKind InboundPeer (_peerMap pool).

(** The map is keyed by the ids of its peers, each key once. *)
Definition WellKeyed (m : JsMap Peer) : Prop :=
  NoDup (map_keys m) /\ Forall (fun entry => id (snd entry) = fst entry) m.

(** The pool is keyed by the ids of its peers. *)
Definition wellKeyedPool (pool : PeerPool) : Prop := WellKeyed (_peerMap pool).

(** The pool has the configuration, the keys and the kinds of [pool0]. *)
Definition steadyFrom (pool0 pool : PeerPool) : Prop :=
  _peerPoolConfig pool = _peerPoolConfig pool0 /\
  shape (_peerMap pool) = shape (_peerMap pool0).

(** The pool has the configuration of [pool0] and no more outbound peers. *)
Definition calmFrom (pool0 pool : PeerPool) : Prop :=
  _peerPoolConfig pool = _peerPoolConfig pool0 /\
  outboundCount pool <= outboundCount pool0.

(** The configuration [addOutboundPeer] gives a new peer. *)
Definition outboundPeerConfig (pool : PeerPool) : PeerConfig :=
  mkPeerConfig (connectTimeout (_peerPoolConfig pool))
    (ackTimeout (_peerPoolConfig pool)) (peerBanTime (_peerPoolConfig pool)).

(** The configuration [addInboundPeer] gives a new peer. *)
Definition inboundPeerConfig (pool : PeerPool) : PeerConfig :=
  mkPeerConfig (connectTimeout (_peerPoolConfig pool))
    (ackTimeout (_peerPoolConfig pool)) None.

(** The two parts of the body of [addInboundPeer], named to state what each
    does: the eviction when the inbound peers are at the limit, and the
    insertion of the new peer. *)
Definition addInboundPeer_eviction (random : list nat) : M unit :=
  pool <- this ;;
  let inboundPeers := getPeers (Some InboundPeer) pool in
  if (Z.of_nat (length inboundPeers) >=? _maxInboundConnections pool)%Z
  then
    match shuffle random inboundPeers with
    | victim :: _ => removePeer (id victim) ;; ret tt
    | [] => throw (TypeError "Cannot read property 'id' of undefined")
    end
  else ret tt.

Definition addInboundPeer_insertion (peerConfig : PeerConfig)
    (peerInfo : P2PDiscoveredPeerInfo) (socket : Socket) : M Peer :=
  let peer := new_InboundPeer peerInfo socket peerConfig in
  pool <- this ;;
  if map_has (id peer) (_peerMap pool)
  then throw (Error ("Peer " ++ id peer ++ " was already in the peer pool"))
  else
    let peer := _bindHandlersToPeer peer in
    Map_set (id peer) peer ;;
    match _nodeInfo pool with
    | Some nodeInfo => _applyNodeInfoOnPeer peer nodeInfo
    | None => ret tt
    end ;;
    ret peer.

(** The listeners [_bindHandlersToPeer] registers, in order. *)
Definition poolListeners : list (string * Handler) :=
  [ (EVENT_REQUEST_RECEIVED, _handlePeerRPC);
    (EVENT_MESSAGE_RECEIVED, _handlePeerMessage);
    (EVENT_CONNECT_OUTBOUND, _handleOutboundPeerConnect);
    (EVENT_CONNECT_ABORT_OUTBOUND, _handleOutboundPeerConnectAbort);
    (EVENT_CLOSE_OUTBOUND, _handlePeerCloseOutbound);
    (EVENT_CLOSE_INBOUND, _handlePeerCloseInbound);
    (EVENT_OUTBOUND_SOCKET_ERROR, _handlePeerOutboundSocketError);
    (EVENT_INBOUND_SOCKET_ERROR, _handlePeerInboundSocketError);
    (EVENT_UPDATED_PEER_INFO, _handlePeerInfoUpdate);
    (EVENT_FAILED_PEER_INFO_UPDATE, _handleFailedPeerInfoUpdate);
    (EVENT_BAN_PEER, _handleBanPeer);
    (EVENT_UNBAN_PEER, _handleUnbanPeer) ].

(** The listeners [_unbindHandlersFromPeer] leaves of those. *)
Definition staleListeners : list (string * Handler) :=
  [ (EVENT_OUTBOUND_SOCKET_ERROR, _handlePeerOutboundSocketError);
    (EVENT_INBOUND_SOCKET_ERROR, _handlePeerInboundSocketError) ].

(** The peers [request] is given by the selector: the selector is called on
    the peer infos of the map, in the order of the map, with limit 1. *)
Definition requestSelection (pool : PeerPool) (packet : P2PRequestPacket)
    : list P2PDiscoveredPeerInfo :=
  _peerSelectForRequest pool
    (mkRequestInput (map peerInfo (map_values (_peerMap pool)))
       (_nodeInfo pool) 1%Z packet).

(** The peers [send] is given by the selector, called with [sendPeerLimit]. *)
Definition sendSelection (pool : PeerPool) (message : P2PMessagePacket)
    : list P2PDiscoveredPeerInfo :=
  _peerSelectForSend pool
    (mkSendInput (map peerInfo (map_values (_peerMap pool)))
       (_nodeInfo pool) (_sendPeerLimit pool) message).

(* ------------------------------------------------------------------ *)
(** ** Statements about the pool *)

(** Two calls of [addOutboundPeer] with one id: the second call leaves the
    size of the map as the first left it, returns the peer object the map
    held under the id, and that object, still under the id, has the peer
    info of the second call. *)
Definition addOutboundPeer_twice_idempotent (pool : PeerPool) (peerId : string)
    (info1 info2 : P2PDiscoveredPeerInfo) (socket1 socket2 : option Socket) : Prop :=
  let pool1 := snd (addOutboundPeer peerId info1 socket1 pool) in
  let result := addOutboundPeer peerId info2 socket2 pool1 in
  map_size (_peerMap (snd result)) = map_size (_peerMap pool1) /\
  exists existing,
    getPeer peerId pool1 = Some existing /\
    fst result = Return (Peer_updatePeerInfo existing info2) /\
    getPeer peerId (snd result) = Some (Peer_updatePeerInfo existing info2) /\
    peerInfo (Peer_updatePeerInfo existing info2) = info2.


(** The call ends with a [RequestFail]. *)
Definition failsWithRequestFail {A : Type} (c : Completion A) : Prop :=
  exists message, c = Throw (RequestFailError message).

(** [request] fails with [RequestFail] exactly when the selector returns
    no peer. *)
Definition request_fails_iff_no_selection (network : Network)
    (packet : P2PRequestPacket) (pool : PeerPool) : Prop :=
  failsWithRequestFail (fst (request network packet pool))
  <-> requestSelection pool packet = [].

(** [send] does not throw, and a selected peer that is not in the map shows
    as an event of the pool. *)
Definition send_surfaces_failures_as_events (message : P2PMessagePacket)
    (pool : PeerPool) : Prop :=
  fst (send message pool) = Return tt /\
  ((exists info, In info (sendSelection pool message) /\
                 hasPeer (constructPeerIdFromPeerInfo info) pool = false) ->
   emitted (snd (send message pool)) <> emitted pool).

(** At the limit [addInboundPeer] evicts one inbound peer and inserts the
    new one: the call returns the new peer, one inbound peer of the pool is
    gone, every other peer is as it was, the new peer is in the map under
    its id, and the inbound peers are again as many as the limit. *)
Definition evictsOneInbound (random : list nat) (info : P2PDiscoveredPeerInfo)
    (socket : Socket) (pool : PeerPool) : Prop :=
  exists victim peer pool',
    In victim (getPeers (Some InboundPeer) pool) /\
    addInboundPeer random info socket pool = (Return peer, pool') /\
    hasPeer (id victim) pool' = false /\
    (forall peerId,
       peerId <> id victim -> peerId <> constructPeerIdFromPeerInfo info ->
       getPeer peerId pool' = getPeer peerId pool) /\
    getPeer (constructPeerIdFromPeerInfo info) pool' = Some peer /\
    kind peer = InboundPeer /\
    peerInfo peer = info /\
    Z.of_nat (inboundCount pool') = _maxInboundConnections pool'.

(** The claim on [addInboundPeer] at the limit, for every pool. *)
Definition addInboundPeer_at_limit_claim (random : list nat)
    (info : P2PDiscoveredPeerInfo) (socket : Socket) (pool : PeerPool) : Prop :=
  Z.of_nat (inboundCount pool) = _maxInboundConnections pool ->
  hasPeer (constructPeerIdFromPeerInfo info) pool = false ->
  evictsOneInbound random info socket pool.

(** The pools after each step of a sequence. *)
Fixpoint poolsAfter (ops : list Operation) (pool : PeerPool) : list PeerPool :=
  match ops with
  | [] => []
  | op :: rest => perform op pool :: poolsAfter rest (perform op pool)
  end.

(** The outbound peers, as [getPeersCountPerKind] counts them, are no more
    than [maxOutboundConnections]. *)
Definition withinOutboundLimit (pool : PeerPool) : Prop :=
  (outbound (getPeersCountPerKind pool) <= _maxOutboundConnections pool)%Z.

(** The contract of a connection selector: at most [peerLimit] peers,
    whenever the limit is not negative. *)
Definition honoursPeerLimit (select : P2PPeerSelectionForConnectionFunction) : Prop :=
  forall input,
    (0 <= connectionPeerLimit input)%Z ->
    (Z.of_nat (length (select input)) <= connectionPeerLimit input)%Z.

(** A step that creates no outbound peer outside [triggerNewConnections]:
    [addOutboundPeer] is called with an id the map has, [runDiscovery] with
    known peers whose ids the map has, and a dial of
    [fetchStatusAndCreatePeers] that succeeds answers with a peer info
    whose id the map has when the callback of the seed runs on. *)
Definition addsNoNewOutbound (pool : PeerPool) (op : Operation) : bool :=
  match op with
  | CallAddOutboundPeer peerId _ _ => hasPeer peerId pool
  | CallRunDiscovery _ _ knownPeers _ =>
      forallb (fun info => hasPeer (constructPeerIdFromPeerInfo info) pool) knownPeers
  | CallFetchStatusAndCreatePeers connect seedPeers nodeInfo peerConfig =>
      forallb
        (fun seedPeer =>
           match connect seedPeer nodeInfo peerConfig with
           | inr (info, _) => hasPeer (constructPeerIdFromPeerInfo info) pool
           | inl _ => true
           end)
        seedPeers
  | StartRunDiscovery knownPeers =>
      forallb (fun info => hasPeer (constructPeerIdFromPeerInfo info) pool) knownPeers
  | ResumeFetchStatusAndCreatePeers outcome =>
      match outcome with
      | inr (info, _) => hasPeer (constructPeerIdFromPeerInfo info) pool
      | inl _ => true
      end
  | _ => true
  end.

(** Every step of the sequence is such a step, on the pool it runs on. *)
Fixpoint allAddNoNewOutbound (ops : list Operation) (pool : PeerPool) : bool :=
  match ops with
  | [] => true
  | op :: rest =>
      addsNoNewOutbound pool op && allAddNoNewOutbound rest (perform op pool)
  end.

(* ------------------------------------------------------------------ *)
(** ** Sample data *)

(** Selectors that return the first [peerLimit] peers they are given. *)
Definition selectFirst_send : P2PPeerSelectionForSendFunction :=
  fun input => firstn (Z.to_nat (sendInputPeerLimit input)) (sendPeers input).
Definition selectFirst_request : P2PPeerSelectionForRequestFunction :=
  fun input => firstn (Z.to_nat (requestPeerLimit input)) (requestPeers input).
Definition selectFirst_connection : P2PPeerSelectionForConnectionFunction :=
  fun input => firstn (Z.to_nat (connectionPeerLimit input)) (connectionPeers input).

Definition sampleConfig (maxOut maxIn : Z) : PeerPoolConfig :=
  mkPeerPoolConfig (Some 2000%Z) (Some 10000%Z)
    selectFirst_send selectFirst_request selectFirst_connection
    16%Z (Some 50%Z) maxOut maxIn (Some 1000%Z).

Definition peerInfoAt (ip : string) (port : Z) (h : Z) : P2PDiscoveredPeerInfo :=
  mkP2PPeerInfo ip port
    (Some (mkDiscoveredAttributes "1.0.0" h "" "" "linux" 4000%Z "1.0")).

Definition peerA := peerInfoAt "1.1.1.1" 5000 10.
Definition peerB := peerInfoAt "2.2.2.2" 5000 10.
Definition peerC := peerInfoAt "3.3.3.3" 5000 10.

(** A network in which every peer answers with the name of the procedure. *)
Definition echoNetwork : Network :=
  fun peerId packet => inr (mkP2PResponsePacket (procedure packet)).

Definition getBlocks : P2PRequestPacket := mkP2PRequestPacket "getBlocks" "".
Definition hello : P2PMessagePacket := mkP2PMessagePacket "hello" "".

(** A new pool of at most two outbound and two inbound peers. *)
Definition emptyPool : PeerPool := new_PeerPool (sampleConfig 2 2).

(** A pool with the outbound peer [1.1.1.1:5000]. *)
Definition poolWithOutboundA : PeerPool :=
  snd (addOutboundPeer "1.1.1.1:5000" peerA None emptyPool).

(** The outbound peer object of [poolWithOutboundA]. *)
Definition outboundA : Peer :=
  _bindHandlersToPeer
    (new_OutboundPeer peerA None
       (mkPeerConfig (Some 2000%Z) (Some 10000%Z) (Some 50%Z))).

(** The pool left by removing that outbound peer again. *)
Definition emptiedPool : PeerPool :=
  snd (removePeer "1.1.1.1:5000" poolWithOutboundA).

(** A pool with the inbound peer [1.1.1.1:5000]. *)
Definition poolWithInboundA : PeerPool :=
  snd (addInboundPeer [] peerA (mkSocket "inbound-1") emptyPool).

(** The inbound peer object of [poolWithInboundA]. *)
Definition inboundA : Peer :=
  _bindHandlersToPeer
    (new_InboundPeer peerA (mkSocket "inbound-1")
       (mkPeerConfig (Some 2000%Z) (Some 10000%Z) None)).

(** A configuration whose selectors return [peerB], which the pool does not
    have (the selector for [send] puts it before the peers it is given), and
    a pool of it with the inbound peer [1.1.1.1:5000]. *)
Definition stubbornConfig : PeerPoolConfig :=
  mkPeerPoolConfig (Some 2000%Z) (Some 10000%Z)
    (fun input => peerB :: sendPeers input)
    (fun _ => [peerB])
    (fun _ => [peerB])
    16%Z (Some 50%Z) 2%Z 2%Z (Some 1000%Z).

Definition stubbornPool : PeerPool :=
  snd (addInboundPeer [] peerA (mkSocket "inbound-1") (new_PeerPool stubbornConfig)).

(** A pool that accepts no inbound peer. *)
Definition closedPool : PeerPool := new_PeerPool (sampleConfig 2 0).

(** A pool of at most one inbound peer, with the inbound peer [1.1.1.1:5000]. *)
Definition fullPool : PeerPool :=
  snd (addInboundPeer [] peerA (mkSocket "inbound-1") (new_PeerPool (sampleConfig 2 1))).

(** A pool of at most one outbound peer. *)
Definition narrowPool : PeerPool := new_PeerPool (sampleConfig 1 1).

(** Two outbound peers added one after the other. *)
Definition twoOutboundCalls : list Operation :=
  [ CallAddOutboundPeer "1.1.1.1:5000" peerA None;
    CallAddOutboundPeer "2.2.2.2:5000" peerB None ].

(** A sequence of steps that adds outbound peers through
    [triggerNewConnections] only: the dial of the seed [1.1.1.1:5000]
    settles while that id is in the map, and the peer of that id closes
    afterwards. *)
Definition checkedCalls : list Operation :=
  [ CallTriggerNewConnections [peerA; peerB];
    CallAddOutboundPeer "1.1.1.1:5000" (peerInfoAt "1.1.1.1" 5000 20) None;
    CallAddInboundPeer [] peerC (mkSocket "inbound-3");
    CallSend hello;
    CallRemovePeer "1.1.1.1:5000";
    CallTriggerNewConnections [peerA; peerB];
    StartRunDiscovery [peerA];
    ResumeFetchStatusAndCreatePeers (inr (peerA, mkSocket "seed"));
    ResumeRunDiscovery [peerB];
    PeerEmits outboundA EVENT_CLOSE_OUTBOUND
      (ArgClosePacket (mkP2PClosePacket peerA 1000 None));
    IntervalTicks [];
    CallTriggerNewConnections [peerB; peerC] ].

(** A dial that settles late: [fetchStatusAndCreatePeers] is called for
    the seed [1.1.1.1:5000] while the pool has that outbound peer; before
    the dial settles the peer is removed and [triggerNewConnections]
    connects [2.2.2.2:5000] in its place. *)
Definition lateDial : list Operation :=
  [ CallAddOutboundPeer "1.1.1.1:5000" peerA None;
    CallRemovePeer "1.1.1.1:5000";
    CallTriggerNewConnections [peerB];
    ResumeFetchStatusAndCreatePeers (inr (peerA, mkSocket "seed")) ].

(* ------------------------------------------------------------------ *)
(** ** Further measures *)

(** No character of the string is a colon. *)
Fixpoint noColon (s : string) : bool :=
  match s with
  | EmptyString => true
  | String c rest => negb (Ascii.eqb c (Ascii.ascii_of_nat 58)) && noColon rest
  end.

(** The inbound peers, as [getPeersCountPerKind] counts them, are no more
    than [maxInboundConnections]. *)
Definition withinInboundLimit (pool : PeerPool) : Prop :=
  (inbound (getPeersCountPerKind pool) <= _maxInboundConnections pool)%Z.

(** The pool has the configuration of [pool0] and no more inbound peers. *)
Definition tameFrom (pool0 pool : PeerPool) : Prop :=
  _peerPoolConfig pool = _peerPoolConfig pool0 /\
  inboundCount pool <= inboundCount pool0.

(** The id of the peer is the id of its own address and port. *)
Definition ownId (peer : Peer) : Prop :=
  id peer = constructPeerIdFromPeerInfo (Peer_asPeerInfo peer).

(** Every peer of the pool has the id of its own address and port. *)
Definition ownIdsPool (pool : PeerPool) : Prop :=
  Forall (fun entry => ownId (snd entry)) (_peerMap pool).

(** The peer object as [removePeer] leaves it: disconnected, and without
    the listeners [_unbindHandlersFromPeer] removes. *)
Definition Peer_removed (peer : Peer) : Peer :=
  _unbindHandlersFromPeer (Peer_disconnect peer).

(* ------------------------------------------------------------------ *)
(** ** Further sample data *)

(** A pool of at most one inbound peer, with the inbound peer
    [1.1.1.1:5000] and the outbound peer [2.2.2.2:5000]. *)
Definition fullPoolWithOutboundB : PeerPool :=
  snd (addOutboundPeer "2.2.2.2:5000" peerB None fullPool).

(* ------------------------------------------------------------------ *)
(** ** Further statements *)

(** The candidates [triggerNewConnections] gives the selector, and the
    peers the selector returns for them. *)
Definition connectionCandidates (pool : PeerPool)
    (peers : list P2PDiscoveredPeerInfo) : list P2PDiscoveredPeerInfo :=
  filter (fun peer =>
    negb (map_has (constructPeerIdFromPeerInfo peer) (_peerMap pool))) peers.

Definition connectionSelection (pool : PeerPool)
    (peers : list P2PDiscoveredPeerInfo) : list P2PDiscoveredPeerInfo :=
  _peerSelectForConnection pool
    (mkConnectionInput (connectionCandidates pool peers)
       (_maxOutboundConnections pool - outbound (getPeersCountPerKind pool))%Z).

(** What happened to the pool between [pool] and [pool']: no id left the
    map, no peer object left the map, nothing was emitted, the inbound
    peers are as many, the outbound peers no fewer, and the configuration
    is the same. *)
Definition onlyAdded (pool pool' : PeerPool) : Prop :=
  (forall key, hasPeer key pool = true -> hasPeer key pool' = true) /\
  released pool' = released pool /\
  emitted pool' = emitted pool /\
  inboundCount pool' = inboundCount pool /\
  outboundCount pool <= outboundCount pool' /\
  _peerPoolConfig pool' = _peerPoolConfig pool.

(** The events the pool has emitted, with what they carry. *)
Definition emittedEvents (pool : PeerPool) : list (string * EventArg) :=
  map (fun emission => (emittedEvent emission, emittedArg emission)) (emitted pool).

(** The callback [fetchStatusAndCreatePeers] maps over the seeds, named to
    state what it does for one seed. *)
Definition fetchStatusAndCreatePeers_seed
    (connect : P2PPeerInfo -> P2PNodeInfo -> PeerConfig ->
               P2PError + (P2PDiscoveredPeerInfo * Socket))
    (nodeInfo : P2PNodeInfo) (peerConfig : PeerConfig) (seedPeer : P2PPeerInfo)
    : M (option P2PDiscoveredPeerInfo) :=
  tryCatch
    (match connect seedPeer nodeInfo peerConfig with
     | inr (seedPeerInfo, seedSocket) =>
         let peerId := constructPeerIdFromPeerInfo seedPeerInfo in
         addOutboundPeer peerId seedPeerInfo (Some seedSocket) ;;
         ret (Some seedPeerInfo)
     | inl error => throw error
     end)
    (fun error =>
       emit EVENT_FAILED_TO_FETCH_PEER_INFO (ArgError error) ;; ret None).

(** The seeds that connected, with the peer infos they answered, and the
    errors of those that did not, in the order of the seeds. *)
Definition connectedSeeds
    (connect : P2PPeerInfo -> P2PNodeInfo -> PeerConfig ->
               P2PError + (P2PDiscoveredPeerInfo * Socket))
    (nodeInfo : P2PNodeInfo) (peerConfig : PeerConfig)
    (seedPeers : list P2PPeerInfo) : list P2PDiscoveredPeerInfo :=
  defined (map (fun seedPeer =>
                  match connect seedPeer nodeInfo peerConfig with
                  | inr (seedPeerInfo, _) => Some seedPeerInfo
                  | inl _ => None
                  end) seedPeers).

Definition failedSeeds
    (connect : P2PPeerInfo -> P2PNodeInfo -> PeerConfig ->
               P2PError + (P2PDiscoveredPeerInfo * Socket))
    (nodeInfo : P2PNodeInfo) (peerConfig : PeerConfig)
    (seedPeers : list P2PPeerInfo) : list P2PError :=
  defined (map (fun seedPeer =>
                  match connect seedPeer nodeInfo peerConfig with
                  | inr _ => None
                  | inl error => Some error
                  end) seedPeers).

(** The two callbacks of [runDiscovery], named to state what each does:
    the one mapped over the known peers, and the one run on each
    discovered peer. *)
Definition runDiscovery_known (peerInfo : P2PDiscoveredPeerInfo) : M Peer :=
  let peerId := constructPeerIdFromPeerInfo peerInfo in
  addOutboundPeer peerId peerInfo None.

Definition runDiscovery_discovered (peerInfo : P2PDiscoveredPeerInfo) : M unit :=
  let peerId := constructPeerIdFromPeerInfo peerInfo in
  pool <- this ;;
  match getPeer peerId pool with
  | Some existingPeer =>
      mutatePeer peerId (Peer_updatePeerInfo existingPeer peerInfo)
  | None => ret tt
  end.

(** The peer of the id of the peer info is in the map, and its channel is
    connected. *)
Definition reachable (pool : PeerPool) (info : P2PDiscoveredPeerInfo) : bool :=
  match getPeer (constructPeerIdFromPeerInfo info) pool with
  | Some peer => ConnectionState_connected (state peer)
  | None => false
  end.

(** Between [pool] and [pool'] the map kept its ids, and each peer its
    state and the messages it had been sent. *)
Definition sentOnly (pool pool' : PeerPool) : Prop :=
  forall key,
    match getPeer key pool, getPeer key pool' with
    | Some peer, Some peer' =>
        state peer' = state peer /\ incl (outbox peer) (outbox peer')
    | None, None => True
    | _, _ => False
    end.

(** The events of a peer the pool only passes on. *)
Definition reEmittedEvents : list string :=
  [ EVENT_REQUEST_RECEIVED; EVENT_MESSAGE_RECEIVED;
    EVENT_CONNECT_ABORT_OUTBOUND;
    EVENT_OUTBOUND_SOCKET_ERROR; EVENT_INBOUND_SOCKET_ERROR;
    EVENT_UPDATED_PEER_INFO; EVENT_FAILED_PEER_INFO_UPDATE;
    EVENT_UNBAN_PEER ].

(** The node info of the node of the samples. *)
Definition ownNodeInfo : P2PNodeInfo :=
  mkP2PNodeInfo "1.0.0" 10 "" "" "linux" 5000 4000 "1.0".

(** A dial that every seed answers, with its own peer info. *)
Definition everySeedAnswers (seedPeer : P2PPeerInfo) (nodeInfo : P2PNodeInfo)
    (peerConfig : PeerConfig) : P2PError + (P2PDiscoveredPeerInfo * Socket) :=
  inr (seedPeer, mkSocket "seed").

(** A probe that finds the peer [2.2.2.2:5000]. *)
Definition probeFindsB (peerSampleToProbe : list Peer) (blacklist : list string)
    : list P2PDiscoveredPeerInfo :=
  [peerB].

(* ------------------------------------------------------------------ *)
(** ** Close events, as the specification states them *)







Unset Implicit Arguments.

(* ================================================================== *)
(** * Facts about the map *)
(* ================================================================== *)

Section JsMapFacts.
Context {V : Type}.
Implicit Types (m : JsMap V) (k : string) (v : V).

Lemma map_get_set_eq k v m : map_get k (map_set k v m) = Some v.
Proof.
  induction m as [|[k' v'] rest IH]; simpl.
  - now rewrite String.eqb_refl.
  - destruct (String.eqb k' k) eqn:E; simpl; rewrite E; auto.
Qed.

Lemma map_get_set_ne k k' v m :
  k <> k' -> map_get k' (map_set k v m) = map_get k' m.
Proof.
  intros Hne. induction m as [|[k0 v0] rest IH]; simpl.
  - destruct (String.eqb k k') eqn:E; auto.
    apply String.eqb_eq in E. contradiction.
  - destruct (String.eqb k0 k) eqn:E; simpl.
    + apply String.eqb_eq in E. subst k0.
      destruct (String.eqb k k') eqn:E'; auto.
      apply String.eqb_eq in E'. contradiction.
    + now rewrite IH.
Qed.

Lemma map_has_set_eq k v m : map_has k (map_set k v m) = true.
Proof. unfold map_has. now rewrite map_get_set_eq. Qed.

Lemma map_get_delete_eq k m : map_get k (map_delete k m) = None.
Proof.
  induction m as [|[k' v'] rest IH]; simpl; auto.
  destruct (String.eqb k' k) eqn:E; simpl; auto.
  now rewrite E.
Qed.

Lemma map_get_delete_ne k k' m :
  k <> k' -> map_get k' (map_delete k m) = map_get k' m.
Proof.
  intros Hne. induction m as [|[k0 v0] rest IH]; simpl; auto.
  destruct (String.eqb k0 k) eqn:E; simpl.
  - apply String.eqb_eq in E. subst k0.
    destruct (String.eqb k k') eqn:E'; auto.
    apply String.eqb_eq in E'. contradiction.
  - now rewrite IH.
Qed.

Lemma map_has_delete_eq k m : map_has k (map_delete k m) = false.
Proof. unfold map_has. now rewrite map_get_delete_eq. Qed.

Lemma map_delete_absent k m : map_get k m = None -> map_delete k m = m.
Proof.
  induction m as [|[k' v'] rest IH]; simpl; auto.
  destruct (String.eqb k' k) eqn:E; simpl; [discriminate|].
  intros H. now rewrite IH.
Qed.

Lemma map_set_absent k v m : map_get k m = None -> map_set k v m = m ++ [(k, v)].
Proof.
  induction m as [|[k' v'] rest IH]; simpl; auto.
  destruct (String.eqb k' k) eqn:E; [discriminate|].
  intros H. now rewrite IH.
Qed.

Lemma map_size_set_present k v m :
  map_has k m = true -> map_size (map_set k v m) = map_size m.
Proof.
  unfold map_has, map_size.
  induction m as [|[k' v'] rest IH]; simpl; [discriminate|].
  destruct (String.eqb k' k) eqn:E; simpl; auto.
Qed.

Lemma map_size_set_absent k v m :
  map_has k m = false -> map_size (map_set k v m) = S (map_size m).
Proof.
  unfold map_has, map_size. intros H.
  destruct (map_get k m) eqn:G; [discriminate|].
  rewrite map_set_absent by assumption. rewrite length_app. simpl. lia.
Qed.

Lemma map_get_In k v m : map_get k m = Some v -> In (k, v) m.
Proof.
  induction m as [|[k' v'] rest IH]; simpl; [discriminate|].
  destruct (String.eqb k' k) eqn:E.
  - apply String.eqb_eq in E. intros [= ->]. left. now subst.
  - auto.
Qed.

Lemma map_get_key_In k v m : map_get k m = Some v -> In k (map_keys m).
Proof.
  intros H. apply map_get_In in H.
  unfold map_keys. change k with (fst (k, v)). now apply in_map.
Qed.

Lemma map_get_not_In k m : map_get k m = None -> ~ In k (map_keys m).
Proof.
  induction m as [|[k' v'] rest IH]; simpl; auto.
  destruct (String.eqb k' k) eqn:E; [discriminate|].
  intros H [Heq|Hin].
  - subst. now rewrite String.eqb_refl in E.
  - now apply IH.
Qed.

Lemma map_In_get k v m : NoDup (map_keys m) -> In (k, v) m -> map_get k m = Some v.
Proof.
  induction m as [|[k' v'] rest IH]; simpl; [contradiction|].
  intros Hnd [Heq|Hin].
  - injection Heq as -> ->. now rewrite String.eqb_refl.
  - inversion Hnd as [|? ? Hnotin Hnd']; subst.
    destruct (String.eqb k' k) eqn:E.
    + apply String.eqb_eq in E. subst k'. exfalso. apply Hnotin.
      unfold map_keys. change k with (fst (k, v)). now apply in_map.
    + now apply IH.
Qed.

Lemma map_keys_set_present k v m :
  map_has k m = true -> map_keys (map_set k v m) = map_keys m.
Proof.
  unfold map_has.
  induction m as [|[k' v'] rest IH]; simpl; [discriminate|].
  destruct (String.eqb k' k) eqn:E; simpl; auto.
  intros H. now rewrite IH.
Qed.

Lemma map_keys_delete k m :
  map_keys (map_delete k m) = filter (fun k' => negb (String.eqb k' k)) (map_keys m).
Proof.
  induction m as [|[k' v'] rest IH]; simpl; auto.
  destruct (String.eqb k' k); simpl; now rewrite IH.
Qed.
End JsMapFacts.

(* ================================================================== *)
(** * Counting the peers of a kind *)
(* ================================================================== *)

Lemma getPeers_length k pool :
  length (getPeers (Some k) pool) = countKind k (_peerMap pool).
Proof. reflexivity. Qed.

Lemma count_fold (l : list Peer) (a b : Z) :
  fold_left
    (fun prev peer =>
       match kind peer with
       | OutboundPeer => mkP2PPeersCount (outbound prev + 1)%Z (inbound prev)
       | InboundPeer => mkP2PPeersCount (outbound prev) (inbound prev + 1)%Z
       end) l (mkP2PPeersCount a b)
  = mkP2PPeersCount
      (a + Z.of_nat (length (filter (ofKind OutboundPeer) l)))%Z
      (b + Z.of_nat (length (filter (ofKind InboundPeer) l)))%Z.
Proof.
  revert a b. induction l as [|p l IH]; intros a b.
  - simpl. f_equal; lia.
  - cbn [fold_left filter outbound inbound].
    assert (Hout : ofKind OutboundPeer p = PeerKind_eqb (kind p) OutboundPeer) by reflexivity.
    assert (Hin : ofKind InboundPeer p = PeerKind_eqb (kind p) InboundPeer) by reflexivity.
    rewrite Hout, Hin.
    destruct (kind p); rewrite IH; cbn [PeerKind_eqb length]; f_equal; lia.
Qed.

Lemma getPeersCountPerKind_outbound pool :
  outbound (getPeersCountPerKind pool)
  = Z.of_nat (countKind OutboundPeer (_peerMap pool)).
Proof. unfold getPeersCountPerKind. rewrite count_fold. reflexivity. Qed.

Lemma getPeersCountPerKind_inbound pool :
  inbound (getPeersCountPerKind pool)
  = Z.of_nat (countKind InboundPeer (_peerMap pool)).
Proof. unfold getPeersCountPerKind. rewrite count_fold. reflexivity. Qed.

Lemma countKind_of_shape k m :
  countKind k m = length (filter (fun e => PeerKind_eqb (snd e) k) (shape m)).
Proof.
  unfold countKind, map_values, shape.
  induction m as [|[key p] rest IH]; simpl; auto.
  unfold ofKind at 1. destruct (PeerKind_eqb (kind p) k); simpl; now rewrite IH.
Qed.

Lemma countKind_shape k m m' : shape m = shape m' -> countKind k m = countKind k m'.
Proof. intros H. now rewrite !countKind_of_shape, H. Qed.

Lemma map_has_shape key m : forall m', shape m = shape m' -> map_has key m = map_has key m'.
Proof.
  unfold map_has.
  induction m as [|[k p] rest IH]; intros [|[k' p'] rest']; simpl; try discriminate; auto.
  intros H. injection H as -> Hk Hrest.
  destruct (String.eqb k' key); auto.
Qed.

Lemma map_size_shape m m' : shape m = shape m' -> map_size m = map_size m'.
Proof.
  intros H. unfold map_size.
  rewrite <- (length_map (fun entry => (fst entry, kind (snd entry))) m).
  rewrite <- (length_map (fun entry => (fst entry, kind (snd entry))) m').
  unfold shape in H. now rewrite H.
Qed.

Lemma shape_set_same_kind key p p' m :
  map_get key m = Some p -> kind p' = kind p -> shape (map_set key p' m) = shape m.
Proof.
  intros Hget Hkind.
  induction m as [|[k q] rest IH]; simpl in *; [discriminate|].
  destruct (String.eqb k key) eqn:E; simpl.
  - injection Hget as ->. now rewrite Hkind.
  - now rewrite IH.
Qed.

Lemma countKind_app k m m' : countKind k (m ++ m') = countKind k m + countKind k m'.
Proof.
  unfold countKind, map_values. now rewrite map_app, filter_app, length_app.
Qed.

Lemma countKind_set_absent k key p m :
  map_get key m = None ->
  countKind k (map_set key p m) = countKind k m + unit_of (ofKind k p).
Proof.
  intros H. rewrite map_set_absent by assumption. rewrite countKind_app.
  f_equal. unfold countKind. simpl. now destruct (ofKind k p).
Qed.

Lemma countKind_set_le k key p m : countKind k (map_set key p m) <= S (countKind k m).
Proof.
  unfold countKind, map_values.
  induction m as [|[k' q] rest IH]; simpl.
  - destruct (ofKind k p); simpl; lia.
  - destruct (String.eqb k' key); simpl.
    + destruct (ofKind k p), (ofKind k q); simpl; lia.
    + destruct (ofKind k q); simpl; lia.
Qed.

Lemma countKind_delete_le k key m : countKind k (map_delete key m) <= countKind k m.
Proof.
  unfold countKind, map_values, map_delete.
  induction m as [|[k' q] rest IH]; simpl; auto.
  destruct (String.eqb k' key); simpl; destruct (ofKind k q); simpl; lia.
Qed.

Lemma countKind_delete_present k key p m :
  NoDup (map_keys m) -> map_get key m = Some p ->
  countKind k m = countKind k (map_delete key m) + unit_of (ofKind k p).
Proof.
  induction m as [|[k' q] rest IH]; simpl; [discriminate|].
  intros Hnd Hget. inversion Hnd as [|? ? Hnotin Hnd']; subst.
  destruct (String.eqb k' key) eqn:E; simpl.
  - injection Hget as ->. apply String.eqb_eq in E. subst k'.
    assert (Habs : map_get key rest = None).
    { destruct (map_get key rest) eqn:G; auto.
      exfalso. apply Hnotin. eapply map_get_key_In; eauto. }
    fold (map_delete key rest). rewrite (map_delete_absent _ _ Habs).
    unfold countKind. simpl. destruct (ofKind k p); simpl; lia.
  - fold (map_delete key rest). specialize (IH Hnd' Hget).
    unfold countKind in *. simpl. destruct (ofKind k q); simpl; lia.
Qed.

(* ================================================================== *)
(** * The map is keyed by the ids of its peers *)
(* ================================================================== *)

Lemma WellKeyed_empty : WellKeyed [].
Proof. split; constructor. Qed.

Lemma WellKeyed_get key p m : WellKeyed m -> map_get key m = Some p -> id p = key.
Proof.
  intros [_ Hall] Hget. apply map_get_In in Hget.
  rewrite Forall_forall in Hall. apply (Hall _ Hget).
Qed.

Lemma WellKeyed_In p m : WellKeyed m -> In p (map_values m) -> map_get (id p) m = Some p.
Proof.
  intros [Hnd Hall] Hin. unfold map_values in Hin.
  apply in_map_iff in Hin. destruct Hin as [[k q] [Heq Hin]]. simpl in Heq. subst q.
  rewrite Forall_forall in Hall. pose proof (Hall _ Hin) as Hid. simpl in Hid.
  rewrite Hid. now apply map_In_get.
Qed.

Lemma WellKeyed_set key p m : id p = key -> WellKeyed m -> WellKeyed (map_set key p m).
Proof.
  intros Hid [Hnd Hall]. destruct (map_get key m) eqn:G.
  - split.
    + rewrite map_keys_set_present; auto. unfold map_has. now rewrite G.
    + clear Hnd G. induction Hall as [|[k q] rest Hhead Htail IH]; simpl.
      * constructor; auto.
      * destruct (String.eqb k key) eqn:E.
        -- apply String.eqb_eq in E. constructor; auto. simpl. congruence.
        -- constructor; auto.
  - rewrite map_set_absent by assumption. split.
    + unfold map_keys. rewrite map_app. simpl.
      apply NoDup_app; auto.
      * repeat constructor. simpl. tauto.
      * intros x Hx [Heq|[]]. subst x.
        exact (map_get_not_In _ _ G Hx).
    + apply Forall_app. split; auto.
Qed.

Lemma WellKeyed_delete key m : WellKeyed m -> WellKeyed (map_delete key m).
Proof.
  intros [Hnd Hall]. split.
  - rewrite map_keys_delete. now apply NoDup_filter.
  - unfold map_delete. rewrite Forall_forall in *. intros x Hx.
    apply filter_In in Hx. now apply Hall.
Qed.

(* ================================================================== *)
(** * Running the methods *)
(* ================================================================== *)

Ltac run :=
  unfold bind, this, ret, throw, update, Map_delete, Map_set, mutatePeer,
    _applyNodeInfoOnPeer, emit, setTimeout; simpl.

Lemma with_peerMap_same pool : with_peerMap pool (_peerMap pool) = pool.
Proof. now destruct pool. Qed.

Lemma removePeer_present peerId peer pool :
  map_get peerId (_peerMap pool) = Some peer ->
  removePeer peerId pool =
  (Return true,
   with_peerMap
     (with_released pool
        (released pool ++ [_unbindHandlersFromPeer (Peer_disconnect peer)]))
     (map_delete peerId (_peerMap pool))).
Proof.
  intros H. unfold removePeer. run. rewrite H. run.
  unfold map_has. now rewrite H.
Qed.

Lemma removePeer_absent peerId pool :
  map_get peerId (_peerMap pool) = None ->
  removePeer peerId pool = (Return false, pool).
Proof.
  intros H. unfold removePeer. run. rewrite H. run.
  unfold map_has. rewrite H. rewrite (map_delete_absent _ _ H).
  now rewrite with_peerMap_same.
Qed.

Lemma removePeer_peerMap peerId pool :
  _peerMap (snd (removePeer peerId pool)) = map_delete peerId (_peerMap pool).
Proof.
  destruct (map_get peerId (_peerMap pool)) eqn:G.
  - now rewrite (removePeer_present _ _ _ G).
  - rewrite (removePeer_absent _ _ G). simpl. now rewrite map_delete_absent.
Qed.

Lemma removePeer_returns peerId pool :
  fst (removePeer peerId pool) = Return (hasPeer peerId pool).
Proof.
  unfold hasPeer, map_has. destruct (map_get peerId (_peerMap pool)) eqn:G.
  - now rewrite (removePeer_present _ _ _ G).
  - now rewrite (removePeer_absent _ _ G).
Qed.

Lemma removePeer_keeps peerId pool :
  _peerPoolConfig (snd (removePeer peerId pool)) = _peerPoolConfig pool /\
  _nodeInfo (snd (removePeer peerId pool)) = _nodeInfo pool /\
  emitted (snd (removePeer peerId pool)) = emitted pool.
Proof.
  destruct (map_get peerId (_peerMap pool)) eqn:G.
  - rewrite (removePeer_present _ _ _ G). simpl. auto.
  - rewrite (removePeer_absent _ _ G). simpl. auto.
Qed.

Lemma addOutboundPeer_existing peerId existing peerInfo socket pool :
  getPeer peerId pool = Some existing ->
  addOutboundPeer peerId peerInfo socket pool =
  (Return (Peer_updatePeerInfo existing peerInfo),
   with_peerMap pool
     (map_set peerId (Peer_updatePeerInfo existing peerInfo) (_peerMap pool))).
Proof. intros H. unfold addOutboundPeer. run. now rewrite H. Qed.

Lemma addOutboundPeer_new peerId peerInfo socket pool :
  getPeer peerId pool = None ->
  let peer :=
    _bindHandlersToPeer (new_OutboundPeer peerInfo socket (outboundPeerConfig pool)) in
  fst (addOutboundPeer peerId peerInfo socket pool) = Return peer /\
  _peerMap (snd (addOutboundPeer peerId peerInfo socket pool))
  = map_set (constructPeerIdFromPeerInfo peerInfo) peer (_peerMap pool) /\
  _peerPoolConfig (snd (addOutboundPeer peerId peerInfo socket pool))
  = _peerPoolConfig pool.
Proof.
  intros H. unfold addOutboundPeer. run. rewrite H. run.
  destruct (_nodeInfo pool); run; auto.
Qed.

Lemma getPeersCountPerKind_shape pool pool' :
  shape (_peerMap pool) = shape (_peerMap pool') ->
  getPeersCountPerKind pool = getPeersCountPerKind pool'.
Proof.
  intros H. unfold getPeersCountPerKind. rewrite !count_fold.
  change (length (filter (ofKind OutboundPeer) (map_values (_peerMap pool))))
    with (countKind OutboundPeer (_peerMap pool)).
  change (length (filter (ofKind InboundPeer) (map_values (_peerMap pool))))
    with (countKind InboundPeer (_peerMap pool)).
  change (length (filter (ofKind OutboundPeer) (map_values (_peerMap pool'))))
    with (countKind OutboundPeer (_peerMap pool')).
  change (length (filter (ofKind InboundPeer) (map_values (_peerMap pool'))))
    with (countKind InboundPeer (_peerMap pool')).
  now rewrite (countKind_shape OutboundPeer _ _ H), (countKind_shape InboundPeer _ _ H).
Qed.

(* ================================================================== *)
(** * Removing a peer *)
(* ================================================================== *)

(** C9: [removePeer] of an id that is not in the pool returns [false] and
    does not throw (no call of [removePeer] throws); after a [removePeer]
    that returned [true] the id is no longer in the pool, and a second
    [removePeer] of it returns [false]. *)
Theorem removePeer_absent_then_repeated :
  forall (peerId : string) (pool : PeerPool),
    (exists removed, fst (removePeer peerId pool) = Return removed) /\
    (hasPeer peerId pool = false ->
     removePeer peerId pool = (Return false, pool)) /\
    (forall pool', removePeer peerId pool = (Return true, pool') ->
       hasPeer peerId pool' = false /\
       removePeer peerId pool' = (Return false, pool')).
Proof.
  intros peerId pool. split; [|split].
  - exists (hasPeer peerId pool). apply removePeer_returns.
  - unfold hasPeer, map_has. intros H.
    destruct (map_get peerId (_peerMap pool)) eqn:G; [discriminate|].
    now apply removePeer_absent.
  - intros pool' H.
    assert (Hmap : _peerMap pool' = map_delete peerId (_peerMap pool)).
    { rewrite <- (removePeer_peerMap peerId pool). now rewrite H. }
    assert (Hgone : map_get peerId (_peerMap pool') = None).
    { rewrite Hmap. apply map_get_delete_eq. }
    split.
    + unfold hasPeer, map_has. now rewrite Hgone.
    + now apply removePeer_absent.
Qed.

Lemma removePeer_absent_then_repeated_witness :
  (hasPeer "9.9.9.9:5000" poolWithOutboundA = false /\
   removePeer "9.9.9.9:5000" poolWithOutboundA = (Return false, poolWithOutboundA)) /\
  (removePeer "1.1.1.1:5000" poolWithOutboundA = (Return true, emptiedPool) /\
   hasPeer "1.1.1.1:5000" emptiedPool = false /\
   removePeer "1.1.1.1:5000" emptiedPool = (Return false, emptiedPool)).
Proof.
  split.
  - split; [vm_compute; reflexivity|].
    apply (proj1 (proj2 (removePeer_absent_then_repeated "9.9.9.9:5000" poolWithOutboundA))).
    vm_compute; reflexivity.
  - split; [vm_compute; reflexivity|].
    apply (proj2 (proj2 (removePeer_absent_then_repeated "1.1.1.1:5000" poolWithOutboundA))).
    vm_compute; reflexivity.
Defined.

(* ================================================================== *)
(** * Adding an outbound peer under an id the pool already has *)
(* ================================================================== *)

(** C10: when the id is in the map as an inbound peer, [addOutboundPeer]
    creates no outbound peer: it updates the peer info of the inbound peer
    and returns that peer, which the map still holds under the id; the
    counts per kind, the keys and the size of the map are unchanged, and no
    peer object leaves the map. *)
Theorem addOutboundPeer_on_inbound_id :
  forall (pool : PeerPool) (peerId : string) (existing : Peer)
         (info : P2PDiscoveredPeerInfo) (socket : option Socket),
    getPeer peerId pool = Some existing ->
    kind existing = InboundPeer ->
    let updated := Peer_updatePeerInfo existing info in
    let result := addOutboundPeer peerId info socket pool in
    fst result = Return updated /\
    kind updated = InboundPeer /\
    peerInfo updated = info /\
    getPeer peerId (snd result) = Some updated /\
    getPeersCountPerKind (snd result) = getPeersCountPerKind pool /\
    map_keys (_peerMap (snd result)) = map_keys (_peerMap pool) /\
    map_size (_peerMap (snd result)) = map_size (_peerMap pool) /\
    released (snd result) = released pool.
Proof.
  intros pool peerId existing info socket Hget Hkind updated result.
  subst result. rewrite (addOutboundPeer_existing _ _ _ socket _ Hget). simpl.
  assert (Hhas : map_has peerId (_peerMap pool) = true).
  { unfold map_has. unfold getPeer in Hget. now rewrite Hget. }
  repeat split; auto.
  - unfold getPeer. simpl. apply map_get_set_eq.
  - apply getPeersCountPerKind_shape. simpl.
    now apply shape_set_same_kind with (p := existing).
  - now apply map_keys_set_present.
  - now apply map_size_set_present.
Qed.

Lemma addOutboundPeer_on_inbound_id_witness :
  getPeer "1.1.1.1:5000" poolWithInboundA = Some inboundA /\
  kind inboundA = InboundPeer /\
  fst (addOutboundPeer "1.1.1.1:5000" peerB None poolWithInboundA)
  = Return (Peer_updatePeerInfo inboundA peerB) /\
  getPeersCountPerKind
    (snd (addOutboundPeer "1.1.1.1:5000" peerB None poolWithInboundA))
  = getPeersCountPerKind poolWithInboundA.
Proof.
  assert (Hget : getPeer "1.1.1.1:5000" poolWithInboundA = Some inboundA)
    by (vm_compute; reflexivity).
  assert (Hkind : kind inboundA = InboundPeer) by reflexivity.
  split; [exact Hget|]. split; [exact Hkind|].
  destruct (addOutboundPeer_on_inbound_id
              poolWithInboundA "1.1.1.1:5000" inboundA peerB None Hget Hkind)
    as (H1 & _ & _ & _ & H5 & _).
  split; assumption.
Defined.

(* ================================================================== *)
(** * Adding an outbound peer twice *)
(* ================================================================== *)

Lemma addOutboundPeer_then_present peerId info socket pool :
  peerId = constructPeerIdFromPeerInfo info \/ hasPeer peerId pool = true ->
  hasPeer peerId (snd (addOutboundPeer peerId info socket pool)) = true.
Proof.
  intros Hid. unfold hasPeer.
  destruct (getPeer peerId pool) as [existing|] eqn:G.
  - rewrite (addOutboundPeer_existing _ _ _ socket _ G). simpl.
    apply map_has_set_eq.
  - destruct (addOutboundPeer_new peerId info socket pool G) as (_ & Hmap & _).
    rewrite Hmap. destruct Hid as [->|Hhas].
    + apply map_has_set_eq.
    + unfold hasPeer, map_has in Hhas. unfold getPeer in G.
      rewrite G in Hhas. discriminate.
Qed.

(** C6, as the code has it: when the id is the canonical id of the first
    peer info (as every caller inside the pool passes it), or is in the map
    already, the second [addOutboundPeer] with that id leaves the size of
    the map unchanged, returns the peer object the map held under the id,
    and that object has the peer info of the second call. *)
Theorem addOutboundPeer_twice_canonical_id :
  forall (pool : PeerPool) (peerId : string)
         (info1 info2 : P2PDiscoveredPeerInfo) (socket1 socket2 : option Socket),
    peerId = constructPeerIdFromPeerInfo info1 \/ hasPeer peerId pool = true ->
    addOutboundPeer_twice_idempotent pool peerId info1 info2 socket1 socket2.
Proof.
  intros pool peerId info1 info2 socket1 socket2 Hid.
  pose proof (addOutboundPeer_then_present peerId info1 socket1 pool Hid) as Hhas.
  unfold addOutboundPeer_twice_idempotent.
  set (pool1 := snd (addOutboundPeer peerId info1 socket1 pool)) in *.
  cbv zeta.
  destruct (getPeer peerId pool1) as [existing|] eqn:G.
  - rewrite (addOutboundPeer_existing _ _ _ socket2 _ G). simpl. split.
    + now apply map_size_set_present.
    + exists existing. repeat split; auto.
      unfold getPeer. simpl. apply map_get_set_eq.
  - unfold hasPeer, map_has in Hhas. unfold getPeer in G.
    rewrite G in Hhas. discriminate.
Qed.

Lemma addOutboundPeer_twice_canonical_id_witness :
  ("1.1.1.1:5000" = constructPeerIdFromPeerInfo peerA \/
   hasPeer "1.1.1.1:5000" emptyPool = true) /\
  addOutboundPeer_twice_idempotent emptyPool "1.1.1.1:5000"
    peerA (peerInfoAt "1.1.1.1" 5000 20) None None.
Proof.
  assert (H : "1.1.1.1:5000" = constructPeerIdFromPeerInfo peerA \/
              hasPeer "1.1.1.1:5000" emptyPool = true)
    by (left; vm_compute; reflexivity).
  split; [exact H|].
  exact (addOutboundPeer_twice_canonical_id emptyPool "1.1.1.1:5000"
           peerA (peerInfoAt "1.1.1.1" 5000 20) None None H).
Defined.

(** C6, as stated, fails: under an id that is not the canonical id of the
    peer info the map is keyed by the id of the new peer, so a second call
    with the same id and another address adds a second entry. *)
Lemma addOutboundPeer_twice_other_id :
  ~ addOutboundPeer_twice_idempotent emptyPool "X" peerA peerB None None.
Proof.
  intros [Hsize _]. vm_compute in Hsize. discriminate.
Qed.

(* ================================================================== *)
(** * The listeners of a peer *)
(* ================================================================== *)

Lemma _bindHandlersToPeer_listeners peer :
  listeners (_bindHandlersToPeer peer) = listeners peer ++ poolListeners.
Proof.
  unfold _bindHandlersToPeer, Peer_on, poolListeners. simpl.
  repeat rewrite <- app_assoc. reflexivity.
Qed.

Lemma _bindHandlersToPeer_fields peer :
  id (_bindHandlersToPeer peer) = id peer /\
  kind (_bindHandlersToPeer peer) = kind peer /\
  peerInfo (_bindHandlersToPeer peer) = peerInfo peer /\
  state (_bindHandlersToPeer peer) = state peer.
Proof. repeat split. Qed.

Lemma Peer_removeListener_listeners eventName h peer :
  listeners (Peer_removeListener eventName h peer)
  = rev (remove_first_listener eventName h (rev (listeners peer))).
Proof. reflexivity. Qed.

Lemma _unbindHandlersFromPeer_bound peer :
  listeners peer = poolListeners ->
  listeners (_unbindHandlersFromPeer peer) = staleListeners.
Proof.
  intros H. unfold _unbindHandlersFromPeer. cbv zeta.
  rewrite !Peer_removeListener_listeners, H.
  vm_compute. reflexivity.
Qed.

Lemma Peer_disconnect_listeners peer :
  listeners (Peer_disconnect peer) = listeners peer.
Proof. reflexivity. Qed.

(** C3 fails on the code: [_unbindHandlersFromPeer] removes ten of the
    twelve listeners [_bindHandlersToPeer] registered.  After
    [addOutboundPeer] and [removePeer] of a peer on a new pool, the peer
    object that left the map still has the listeners of
    [outboundSocketError] and [inboundSocketError], and a socket error it
    emits is still re-emitted by the pool. *)
Theorem removePeer_leaves_socket_error_listeners :
  forall (config : PeerPoolConfig) (info : P2PDiscoveredPeerInfo)
         (socket : option Socket) (error : P2PError),
    let peerId := constructPeerIdFromPeerInfo info in
    let pool := snd (addOutboundPeer peerId info socket (new_PeerPool config)) in
    let pool' := snd (removePeer peerId pool) in
    exists removed,
      released pool' = [removed] /\
      id removed = peerId /\
      hasPeer peerId pool' = false /\
      listeners removed = staleListeners /\
      emitted (snd (Peer_emit removed EVENT_OUTBOUND_SOCKET_ERROR (ArgError error) pool'))
      = emitted pool' ++
        [mkEmission EVENT_OUTBOUND_SOCKET_ERROR (ArgError error) (_peerMap pool')] /\
      emitted (snd (Peer_emit removed EVENT_INBOUND_SOCKET_ERROR (ArgError error) pool'))
      = emitted pool' ++
        [mkEmission EVENT_INBOUND_SOCKET_ERROR (ArgError error) (_peerMap pool')].
Proof.
  intros config info socket error peerId pool pool'.
  set (peer := _bindHandlersToPeer
                 (new_OutboundPeer info socket (outboundPeerConfig (new_PeerPool config)))).
  assert (Hpool : _peerMap pool = [(peerId, peer)] /\ released pool = []).
  { subst pool. unfold addOutboundPeer. run.
    destruct (_nodeInfo (new_PeerPool config)); run; auto. }
  destruct Hpool as [Hmap Hrel].
  assert (Hget : map_get peerId (_peerMap pool) = Some peer).
  { rewrite Hmap. simpl. now rewrite String.eqb_refl. }
  exists (_unbindHandlersFromPeer (Peer_disconnect peer)).
  assert (Hls : listeners (_unbindHandlersFromPeer (Peer_disconnect peer)) = staleListeners).
  { apply _unbindHandlersFromPeer_bound. reflexivity. }
  subst pool'. rewrite (removePeer_present _ _ _ Hget).
  cbn [snd released with_peerMap with_released]. rewrite Hrel.
  split; [reflexivity|]. split; [reflexivity|].
  split; [unfold hasPeer; cbn [_peerMap with_peerMap]; apply map_has_delete_eq|].
  split; [exact Hls|].
  unfold Peer_emit. rewrite Hls. split; reflexivity.
Qed.

(** The other half of C3 holds: a peer added again after its removal is a
    new object with the twelve listeners of the pool, one for each event. *)
Lemma readded_peer_has_fresh_listeners :
  forall (config : PeerPoolConfig) (info : P2PDiscoveredPeerInfo)
         (socket socket' : option Socket),
    let peerId := constructPeerIdFromPeerInfo info in
    let pool := snd (addOutboundPeer peerId info socket (new_PeerPool config)) in
    let pool' := snd (removePeer peerId pool) in
    exists peer,
      fst (addOutboundPeer peerId info socket' pool') = Return peer /\
      listeners peer = poolListeners /\
      Forall (fun entry => listenersFor (fst entry) (listeners peer) = [snd entry])
        poolListeners.
Proof.
  intros config info socket socket' peerId pool pool'.
  assert (Habsent : getPeer peerId pool' = None).
  { unfold getPeer. subst pool'. rewrite removePeer_peerMap. apply map_get_delete_eq. }
  destruct (addOutboundPeer_new peerId info socket' pool' Habsent) as (Hret & _).
  exists (_bindHandlersToPeer
            (new_OutboundPeer info socket' (outboundPeerConfig pool'))).
  split; [exact Hret|].
  assert (Hls : listeners (_bindHandlersToPeer
                   (new_OutboundPeer info socket' (outboundPeerConfig pool')))
                = poolListeners) by apply _bindHandlersToPeer_listeners.
  rewrite Hls. split; [reflexivity|].
  unfold poolListeners at 2.
  repeat (constructor; [vm_compute; reflexivity|]). constructor.
Qed.

(* ================================================================== *)
(** * Bucketing *)
(* ================================================================== *)

Lemma getBucket_range ipAddress secret bucketSize random :
  Qle (Qmake 0 1) random -> Qlt random (Qmake 1 1) ->
  (0 <= getBucket ipAddress secret bucketSize random < 64)%Z.
Proof.
  destruct random as [n d]. unfold Qle, Qlt, getBucket, Qmult, Qfloor. simpl.
  intros Hlo Hhi.
  assert (Hd : (0 < Z.pos (d * 1))%Z) by lia.
  assert (Hn : (0 <= n)%Z) by lia.
  assert (Hlt : (n < Z.pos (d * 1))%Z) by lia.
  split.
  - apply Z.div_pos; lia.
  - apply Z.div_lt_upper_bound; lia.
Qed.

(** C4 fails on the code: [getBucket] is a stub that returns
    [Math.floor(Math.random() * 64)], whatever its arguments.  Two calls
    with the same address, secret and bucket size return the buckets 0 and
    32 when [Math.random] draws 0 and then one half. *)
Theorem getBucket_follows_the_draw :
  forall (ipAddress : string) (secret bucketSize : Z),
    getBucket ipAddress secret bucketSize (Qmake 0 1) = 0%Z /\
    getBucket ipAddress secret bucketSize (Qmake 1 2) = 32%Z /\
    getBucket ipAddress secret bucketSize (Qmake 0 1)
    <> getBucket ipAddress secret bucketSize (Qmake 1 2).
Proof.
  intros ipAddress secret bucketSize.
  repeat split; try reflexivity. vm_compute. discriminate.
Qed.

(* ================================================================== *)
(** * Close events *)
(* ================================================================== *)




(* ================================================================== *)
(** * Requests *)
(* ================================================================== *)

Lemma requestFromPeer_absent network packet peerId pool :
  hasPeer peerId pool = false ->
  requestFromPeer network packet peerId pool
  = (Throw (RequestFailError
       ("Request failed because a peer with id " ++ peerId ++ " could not be found")),
     pool).
Proof.
  unfold hasPeer, map_has, requestFromPeer. run.
  destruct (map_get peerId (_peerMap pool)); [discriminate|reflexivity].
Qed.

Lemma requestFromPeer_present network packet peerId peer pool :
  getPeer peerId pool = Some peer ->
  requestFromPeer network packet peerId pool
  = (match Peer_request network peer packet with
     | inr response => Return response
     | inl error => Throw error
     end, pool).
Proof.
  unfold getPeer, requestFromPeer. run. intros ->.
  now destruct (Peer_request network peer packet).
Qed.

(** C7, as the code has it: [request] calls the selector with limit 1 on
    the peer infos of the map; when the selector returns no peer it fails
    with the [RequestFail] of the selection; otherwise it returns what
    [requestFromPeer] returns for the id of the first selected peer, which
    is again a [RequestFail] when that id is not in the map.  On a pool
    without peers [request] fails with [RequestFail] whatever the selector
    returns. *)
Theorem request_selects_then_forwards :
  forall (network : Network) (packet : P2PRequestPacket) (pool : PeerPool),
    (requestSelection pool packet = [] ->
     request network packet pool
     = (Throw (RequestFailError
          "Request failed due to no peers found in peer selection"), pool)) /\
    (forall first rest,
       requestSelection pool packet = first :: rest ->
       request network packet pool
       = requestFromPeer network packet (constructPeerIdFromPeerInfo first) pool) /\
    (forall peerId,
       hasPeer peerId pool = false ->
       failsWithRequestFail (fst (requestFromPeer network packet peerId pool))) /\
    (_peerMap pool = [] ->
     failsWithRequestFail (fst (request network packet pool))).
Proof.
  intros network packet pool.
  assert (Hempty : requestSelection pool packet = [] ->
                   request network packet pool
                   = (Throw (RequestFailError
                        "Request failed due to no peers found in peer selection"), pool)).
  { unfold requestSelection, request. run. now intros ->. }
  assert (Hfirst : forall first rest,
             requestSelection pool packet = first :: rest ->
             request network packet pool
             = requestFromPeer network packet (constructPeerIdFromPeerInfo first) pool).
  { intros first rest. unfold requestSelection, request. run. now intros ->. }
  assert (Habsent : forall peerId,
             hasPeer peerId pool = false ->
             failsWithRequestFail (fst (requestFromPeer network packet peerId pool))).
  { intros peerId H. rewrite (requestFromPeer_absent network packet peerId pool H).
    eexists. reflexivity. }
  repeat split; auto.
  intros Hmap. destruct (requestSelection pool packet) as [|first rest] eqn:S.
  - rewrite (Hempty eq_refl). eexists. reflexivity.
  - rewrite (Hfirst first rest eq_refl). apply Habsent.
    unfold hasPeer. now rewrite Hmap.
Qed.

Lemma request_selects_then_forwards_witness :
  (_peerMap emptyPool = [] /\
   failsWithRequestFail (fst (request echoNetwork getBlocks emptyPool))) /\
  (requestSelection poolWithInboundA getBlocks = [peerA] /\
   request echoNetwork getBlocks poolWithInboundA
   = requestFromPeer echoNetwork getBlocks "1.1.1.1:5000" poolWithInboundA).
Proof.
  split.
  - split; [reflexivity|].
    apply (proj2 (proj2 (proj2
             (request_selects_then_forwards echoNetwork getBlocks emptyPool)))).
    reflexivity.
  - split; [vm_compute; reflexivity|].
    apply (proj1 (proj2
             (request_selects_then_forwards echoNetwork getBlocks poolWithInboundA))
             peerA []).
    vm_compute; reflexivity.
Defined.

(** C7, as stated, fails: with a selector that returns a peer that is not
    in the map, [request] fails with [RequestFail] although the selection is
    not empty. *)
Lemma request_fails_on_absent_selection :
  ~ request_fails_iff_no_selection echoNetwork getBlocks stubbornPool.
Proof.
  intros [Honly _].
  assert (Hfail : failsWithRequestFail (fst (request echoNetwork getBlocks stubbornPool))).
  { eexists. vm_compute. reflexivity. }
  specialize (Honly Hfail). vm_compute in Honly. discriminate.
Qed.

(* ================================================================== *)
(** * Messages *)
(* ================================================================== *)

Lemma forEach_app {A : Type} (f : A -> M unit) (l1 l2 : list A) (pool : PeerPool) :
  forEach f (l1 ++ l2) pool
  = match forEach f l1 pool with
    | (Return _, pool1) => forEach f l2 pool1
    | (Throw e, pool1) => (Throw e, pool1)
    end.
Proof.
  revert pool. induction l1 as [|x l1 IH]; intros pool; simpl.
  - reflexivity.
  - unfold bind. destruct (f x pool) as [[[]|e] pool']; auto.
Qed.

Lemma sendToPeer_absent message peerId pool :
  hasPeer peerId pool = false ->
  sendToPeer message peerId pool
  = (Throw (SendFailError
       ("Send failed because a peer with id " ++ peerId ++ " could not be found")),
     pool).
Proof.
  unfold hasPeer, map_has, sendToPeer. run.
  destruct (map_get peerId (_peerMap pool)); [discriminate|reflexivity].
Qed.

Lemma sendToPeer_not_connected message peerId peer pool :
  getPeer peerId pool = Some peer ->
  ConnectionState_connected (state peer) = false ->
  sendToPeer message peerId pool
  = (Throw (SendFailError "Peer socket does not exist"), pool).
Proof.
  unfold getPeer, sendToPeer, Peer_send. run. intros -> ->. reflexivity.
Qed.

Lemma sendToPeer_connected message peerId peer pool :
  getPeer peerId pool = Some peer ->
  ConnectionState_connected (state peer) = true ->
  sendToPeer message peerId pool
  = (Return tt,
     with_peerMap pool
       (map_set peerId (Peer_with_outbox peer (outbox peer ++ [message]))
          (_peerMap pool))).
Proof.
  unfold getPeer, sendToPeer, Peer_send. run. intros -> ->. reflexivity.
Qed.

(** A call of [sendToPeer] emits nothing, and one that throws changes
    nothing. *)
Lemma sendToPeer_quiet message peerId pool :
  emitted (snd (sendToPeer message peerId pool)) = emitted pool /\
  (forall error, fst (sendToPeer message peerId pool) = Throw error ->
                 snd (sendToPeer message peerId pool) = pool).
Proof.
  destruct (getPeer peerId pool) as [peer|] eqn:G.
  - destruct (ConnectionState_connected (state peer)) eqn:C.
    + rewrite (sendToPeer_connected message peerId peer pool G C). simpl.
      split; [reflexivity|discriminate].
    + rewrite (sendToPeer_not_connected message peerId peer pool G C). simpl. auto.
  - rewrite (sendToPeer_absent message peerId pool); simpl; auto.
    unfold hasPeer, map_has. unfold getPeer in G. now rewrite G.
Qed.

Lemma forEach_sendToPeer_emitted message (selected : list P2PDiscoveredPeerInfo) pool :
  emitted (snd (forEach
                  (fun info => sendToPeer message (constructPeerIdFromPeerInfo info))
                  selected pool))
  = emitted pool.
Proof.
  revert pool. induction selected as [|info rest IH]; intros pool; simpl; auto.
  unfold bind.
  pose proof (proj1 (sendToPeer_quiet message (constructPeerIdFromPeerInfo info) pool)) as H.
  destruct (sendToPeer message (constructPeerIdFromPeerInfo info) pool) as [[[]|e] pool'];
    simpl in *; auto.
  now rewrite IH.
Qed.

Lemma send_unfold message pool :
  send message pool
  = forEach (fun info => sendToPeer message (constructPeerIdFromPeerInfo info))
      (sendSelection pool message) pool.
Proof. reflexivity. Qed.

(** C2, as the code has it: [send] calls the selector with [sendPeerLimit]
    on the peer infos of the map and calls [sendToPeer] on the selected
    peers in order.  The first call that fails, because the peer is not in
    the map or because its channel is not connected, throws its error to the
    caller of [send]: the peers selected after it are not sent to, and the
    pool emits no event. *)
Theorem send_forwards_until_first_failure :
  forall (message : P2PMessagePacket) (pool : PeerPool),
    send message pool
    = forEach (fun info => sendToPeer message (constructPeerIdFromPeerInfo info))
        (sendSelection pool message) pool /\
    (forall before failing after pool1 error,
       sendSelection pool message = before ++ failing :: after ->
       forEach (fun info => sendToPeer message (constructPeerIdFromPeerInfo info))
         before pool = (Return tt, pool1) ->
       fst (sendToPeer message (constructPeerIdFromPeerInfo failing) pool1)
       = Throw error ->
       send message pool = (Throw error, pool1)) /\
    (forall peerId pool1,
       hasPeer peerId pool1 = false ->
       exists text, sendToPeer message peerId pool1 = (Throw (SendFailError text), pool1)) /\
    (forall peerId peer pool1,
       getPeer peerId pool1 = Some peer ->
       ConnectionState_connected (state peer) = false ->
       exists text, sendToPeer message peerId pool1 = (Throw (SendFailError text), pool1)) /\
    emitted (snd (send message pool)) = emitted pool.
Proof.
  intros message pool. split; [apply send_unfold|]. split; [|split; [|split]].
  - intros before failing after pool1 error Hsel Hbefore Hfail.
    rewrite send_unfold, Hsel, forEach_app, Hbefore. cbn [forEach]. unfold bind.
    pose proof (proj2 (sendToPeer_quiet message
                         (constructPeerIdFromPeerInfo failing) pool1) error Hfail) as Hsame.
    destruct (sendToPeer message (constructPeerIdFromPeerInfo failing) pool1)
      as [c pool2]. simpl in *. now subst.
  - intros peerId pool1 H. eexists. now apply sendToPeer_absent.
  - intros peerId peer pool1 G C. eexists.
    now apply sendToPeer_not_connected with (peer := peer).
  - rewrite send_unfold. apply forEach_sendToPeer_emitted.
Qed.

Lemma send_forwards_until_first_failure_witness :
  sendSelection stubbornPool hello = [] ++ peerB :: [peerA] /\
  forEach (fun info => sendToPeer hello (constructPeerIdFromPeerInfo info))
    [] stubbornPool = (Return tt, stubbornPool) /\
  fst (sendToPeer hello (constructPeerIdFromPeerInfo peerB) stubbornPool)
  = Throw (SendFailError
             "Send failed because a peer with id 2.2.2.2:5000 could not be found") /\
  send hello stubbornPool
  = (Throw (SendFailError
              "Send failed because a peer with id 2.2.2.2:5000 could not be found"),
     stubbornPool).
Proof.
  assert (H1 : sendSelection stubbornPool hello = [] ++ peerB :: [peerA])
    by (vm_compute; reflexivity).
  assert (H2 : forEach (fun info => sendToPeer hello (constructPeerIdFromPeerInfo info))
                 [] stubbornPool = (Return tt, stubbornPool)) by reflexivity.
  assert (H3 : fst (sendToPeer hello (constructPeerIdFromPeerInfo peerB) stubbornPool)
               = Throw (SendFailError
                    "Send failed because a peer with id 2.2.2.2:5000 could not be found"))
    by (vm_compute; reflexivity).
  split; [exact H1|]. split; [exact H2|]. split; [exact H3|].
  exact (proj1 (proj2 (send_forwards_until_first_failure hello stubbornPool))
           [] peerB [peerA] stubbornPool _ H1 H2 H3).
Defined.

(** C2, as stated, fails: when the selector returns a peer that is not in
    the map, [send] throws the [SendFail] of [sendToPeer] to its caller. *)
Lemma send_throws_on_absent_peer :
  ~ send_surfaces_failures_as_events hello stubbornPool.
Proof.
  intros [Hret _]. vm_compute in Hret. discriminate.
Qed.

(* ================================================================== *)
(** * Adding an inbound peer *)
(* ================================================================== *)

Lemma shuffle_head {A : Type} (random : list nat) (l : list A) (v : A) (rest : list A) :
  shuffle random l = v :: rest -> In v l.
Proof.
  unfold shuffle. destruct l as [|x l']; [simpl; discriminate|].
  cbn [length shuffle_from]. intros H.
  apply (f_equal (hd x)) in H. cbn [hd] in H. rewrite <- H.
  apply nth_In. cbn [length]. apply Nat.mod_upper_bound. lia.
Qed.

Lemma shuffle_nonempty {A : Type} (random : list nat) (l : list A) :
  l <> [] -> shuffle random l <> [].
Proof.
  unfold shuffle. destruct l as [|x l']; [congruence|].
  cbn [length shuffle_from]. discriminate.
Qed.

Lemma addInboundPeer_parts random info socket pool :
  addInboundPeer random info socket pool
  = bind (addInboundPeer_eviction random)
      (fun _ => addInboundPeer_insertion (inboundPeerConfig pool) info socket) pool.
Proof. reflexivity. Qed.

Lemma eviction_below_limit random pool :
  (Z.of_nat (inboundCount pool) >=? _maxInboundConnections pool)%Z = false ->
  addInboundPeer_eviction random pool = (Return tt, pool).
Proof.
  intros H. unfold addInboundPeer_eviction, bind, this.
  rewrite getPeers_length. fold (inboundCount pool). now rewrite H.
Qed.

Lemma eviction_of_nothing random pool :
  (Z.of_nat (inboundCount pool) >=? _maxInboundConnections pool)%Z = true ->
  inboundCount pool = 0 ->
  addInboundPeer_eviction random pool
  = (Throw (TypeError "Cannot read property 'id' of undefined"), pool).
Proof.
  intros H Hzero. unfold addInboundPeer_eviction, bind, this.
  rewrite getPeers_length. fold (inboundCount pool). rewrite H.
  assert (Hnil : getPeers (Some InboundPeer) pool = []).
  { apply length_zero_iff_nil. now rewrite getPeers_length. }
  now rewrite Hnil.
Qed.

Lemma eviction_at_limit random pool :
  WellKeyed (_peerMap pool) ->
  (Z.of_nat (inboundCount pool) >=? _maxInboundConnections pool)%Z = true ->
  inboundCount pool <> 0 ->
  exists victim,
    In victim (getPeers (Some InboundPeer) pool) /\
    kind victim = InboundPeer /\
    map_get (id victim) (_peerMap pool) = Some victim /\
    addInboundPeer_eviction random pool
    = (Return tt, snd (removePeer (id victim) pool)).
Proof.
  intros Hwf H Hpos. unfold addInboundPeer_eviction, bind, this.
  rewrite getPeers_length. fold (inboundCount pool). rewrite H.
  destruct (shuffle random (getPeers (Some InboundPeer) pool)) as [|victim rest] eqn:S.
  - exfalso. apply (shuffle_nonempty random (getPeers (Some InboundPeer) pool)); auto.
    intros Hnil. apply Hpos. unfold inboundCount. rewrite <- getPeers_length.
    now rewrite Hnil.
  - pose proof (shuffle_head _ _ _ _ S) as Hin.
    assert (Hin' := Hin). unfold getPeers in Hin'. apply filter_In in Hin'.
    destruct Hin' as [Hval Hkind].
    assert (Hk : kind victim = InboundPeer).
    { unfold PeerKind_eqb in Hkind. now destruct (kind victim). }
    pose proof (WellKeyed_In victim (_peerMap pool) Hwf Hval) as Hget.
    exists victim. repeat split; auto.
    rewrite (removePeer_present _ _ _ Hget). reflexivity.
Qed.

Lemma insertion_of_present peerConfig info socket pool :
  hasPeer (constructPeerIdFromPeerInfo info) pool = true ->
  addInboundPeer_insertion peerConfig info socket pool
  = (Throw (Error ("Peer " ++ constructPeerIdFromPeerInfo info
                   ++ " was already in the peer pool")), pool).
Proof.
  intros H. unfold addInboundPeer_insertion, bind, this. cbv zeta.
  change (id (new_InboundPeer info socket peerConfig))
    with (constructPeerIdFromPeerInfo info).
  unfold hasPeer in H. now rewrite H.
Qed.

Lemma insertion_of_absent peerConfig info socket pool :
  hasPeer (constructPeerIdFromPeerInfo info) pool = false ->
  let peer := _bindHandlersToPeer (new_InboundPeer info socket peerConfig) in
  fst (addInboundPeer_insertion peerConfig info socket pool) = Return peer /\
  _peerMap (snd (addInboundPeer_insertion peerConfig info socket pool))
  = map_set (constructPeerIdFromPeerInfo info) peer (_peerMap pool) /\
  _peerPoolConfig (snd (addInboundPeer_insertion peerConfig info socket pool))
  = _peerPoolConfig pool.
Proof.
  intros H peer. unfold addInboundPeer_insertion, bind, this. cbv zeta.
  change (id (new_InboundPeer info socket peerConfig))
    with (constructPeerIdFromPeerInfo info).
  change (id (_bindHandlersToPeer (new_InboundPeer info socket peerConfig)))
    with (constructPeerIdFromPeerInfo info).
  unfold hasPeer in H. rewrite H.
  assert (Hget : map_get (constructPeerIdFromPeerInfo info) (_peerMap pool) = None).
  { unfold map_has in H. now destruct (map_get _ (_peerMap pool)). }
  unfold Map_set, update. cbn [fst snd].
  destruct (_nodeInfo pool); unfold _applyNodeInfoOnPeer, update, ret;
    cbn [fst snd _peerMap _peerPoolConfig with_tasks with_released with_peerMap];
    auto.
Qed.

Lemma map_get_delete_None {V : Type} (k k' : string) (m : JsMap V) :
  map_get k m = None -> map_get k (map_delete k' m) = None.
Proof.
  intros H. destruct (String.eqb k' k) eqn:E.
  - apply String.eqb_eq in E. subst k'. apply map_get_delete_eq.
  - apply String.eqb_neq in E. now rewrite map_get_delete_ne.
Qed.

Lemma hasPeer_false_get peerId pool :
  hasPeer peerId pool = false <-> map_get peerId (_peerMap pool) = None.
Proof.
  unfold hasPeer, map_has. destruct (map_get peerId (_peerMap pool)); split;
    congruence.
Qed.

Lemma addInboundPeer_keeps_config random info socket pool :
  _peerPoolConfig (snd (addInboundPeer random info socket pool)) = _peerPoolConfig pool.
Proof.
  rewrite addInboundPeer_parts. unfold bind.
  assert (Hev : _peerPoolConfig (snd (addInboundPeer_eviction random pool))
                = _peerPoolConfig pool).
  { unfold addInboundPeer_eviction, bind, this.
    destruct (Z.of_nat _ >=? _)%Z; [|reflexivity].
    destruct (shuffle random _) as [|victim rest]; [reflexivity|].
    destruct (removePeer_keeps (id victim) pool) as (Hc & _).
    destruct (removePeer (id victim) pool) as [[b|e] p]; simpl in *; auto. }
  destruct (addInboundPeer_eviction random pool) as [[[]|e] pool1]; simpl in *; auto.
  destruct (hasPeer (constructPeerIdFromPeerInfo info) pool1) eqn:H.
  - rewrite (insertion_of_present _ info socket pool1 H). simpl. auto.
  - destruct (insertion_of_absent (inboundPeerConfig pool) info socket pool1 H)
      as (_ & _ & Hc). now rewrite Hc.
Qed.

(** C5, as the code has it: on a pool whose map is keyed by the ids of its
    peers, with a limit of at least one inbound peer, an [addInboundPeer] at
    the limit of a peer info whose id is not in the map evicts one inbound
    peer and inserts the new one, so the inbound peers are again as many as
    the limit and the new peer is in the map; and whatever the limit, the
    inbound peers of a pool within the limit are within the limit after
    [addInboundPeer]. *)
Theorem addInboundPeer_at_limit :
  forall (random : list nat) (info : P2PDiscoveredPeerInfo) (socket : Socket)
         (pool : PeerPool),
    WellKeyed (_peerMap pool) ->
    ((1 <= _maxInboundConnections pool)%Z ->
     addInboundPeer_at_limit_claim random info socket pool) /\
    ((Z.of_nat (inboundCount pool) <= _maxInboundConnections pool)%Z ->
     (Z.of_nat (inboundCount (snd (addInboundPeer random info socket pool)))
      <= _maxInboundConnections pool)%Z).
Proof.
  intros random info socket pool Hwf. split.
  - intros Hmax Hcount Habsent.
    assert (Hge : (Z.of_nat (inboundCount pool) >=? _maxInboundConnections pool)%Z = true)
      by (apply Z.geb_le; lia).
    assert (Hpos : inboundCount pool <> 0) by lia.
    destruct (eviction_at_limit random pool Hwf Hge Hpos)
      as (victim & Hin & Hkind & Hget & Hevict).
    set (pool1 := snd (removePeer (id victim) pool)) in *.
    assert (Hmap1 : _peerMap pool1 = map_delete (id victim) (_peerMap pool))
      by apply removePeer_peerMap.
    assert (Hcfg1 : _peerPoolConfig pool1 = _peerPoolConfig pool)
      by apply removePeer_keeps.
    apply hasPeer_false_get in Habsent.
    assert (Habsent1 : hasPeer (constructPeerIdFromPeerInfo info) pool1 = false).
    { apply hasPeer_false_get. rewrite Hmap1. now apply map_get_delete_None. }
    assert (Hne : id victim <> constructPeerIdFromPeerInfo info).
    { intros Heq. rewrite Heq in Hget. congruence. }
    destruct (insertion_of_absent (inboundPeerConfig pool) info socket pool1 Habsent1)
      as (Hret & Hmap & Hcfg).
    set (peer := _bindHandlersToPeer
                   (new_InboundPeer info socket (inboundPeerConfig pool))) in *.
    exists victim, peer,
      (snd (addInboundPeer_insertion (inboundPeerConfig pool) info socket pool1)).
    split; [exact Hin|]. split.
    { rewrite addInboundPeer_parts. unfold bind. rewrite Hevict.
      destruct (addInboundPeer_insertion (inboundPeerConfig pool) info socket pool1)
        as [c pool']. simpl in *. now subst c. }
    unfold hasPeer, getPeer, inboundCount, _maxInboundConnections.
    rewrite Hmap, Hcfg, Hcfg1, Hmap1.
    split; [|split; [|split; [|split; [|split]]]].
    + unfold map_has. rewrite map_get_set_ne by auto.
      now rewrite map_get_delete_eq.
    + intros peerId Hv Hi. rewrite map_get_set_ne by auto.
      now rewrite map_get_delete_ne by auto.
    + apply map_get_set_eq.
    + reflexivity.
    + reflexivity.
    + rewrite countKind_set_absent by (now apply map_get_delete_None).
      pose proof (countKind_delete_present InboundPeer (id victim) victim
                    (_peerMap pool) (proj1 Hwf) Hget) as Hdel.
      assert (Hv : ofKind InboundPeer victim = true)
        by (unfold ofKind; now rewrite Hkind).
      assert (Hp : ofKind InboundPeer peer = true) by reflexivity.
      rewrite Hv in Hdel. rewrite Hp. unfold inboundCount, _maxInboundConnections in Hcount.
      simpl unit_of in *. lia.
  - intros Hle. rewrite addInboundPeer_parts. unfold bind.
    destruct (Z.of_nat (inboundCount pool) >=? _maxInboundConnections pool)%Z eqn:Hge.
    + destruct (Nat.eq_dec (inboundCount pool) 0) as [Hzero|Hpos].
      * rewrite (eviction_of_nothing random pool Hge Hzero). simpl. exact Hle.
      * destruct (eviction_at_limit random pool Hwf Hge Hpos)
          as (victim & Hin & Hkind & Hget & Hevict).
        rewrite Hevict.
        set (pool1 := snd (removePeer (id victim) pool)) in *.
        assert (Hmap1 : _peerMap pool1 = map_delete (id victim) (_peerMap pool))
          by apply removePeer_peerMap.
        pose proof (countKind_delete_present InboundPeer (id victim) victim
                      (_peerMap pool) (proj1 Hwf) Hget) as Hdel.
        assert (Hv : ofKind InboundPeer victim = true)
          by (unfold ofKind; now rewrite Hkind).
        rewrite Hv in Hdel. simpl unit_of in Hdel.
        destruct (hasPeer (constructPeerIdFromPeerInfo info) pool1) eqn:H.
        -- rewrite (insertion_of_present _ info socket pool1 H). simpl.
           unfold inboundCount in *. rewrite Hmap1. lia.
        -- destruct (insertion_of_absent (inboundPeerConfig pool) info socket pool1 H)
             as (_ & Hmap & _).
           destruct (addInboundPeer_insertion (inboundPeerConfig pool) info socket pool1)
             as [c pool']. simpl in *.
           unfold inboundCount in *. rewrite Hmap.
           apply hasPeer_false_get in H.
           rewrite countKind_set_absent by exact H.
           rewrite Hmap1.
           change (unit_of (ofKind InboundPeer
                     (_bindHandlersToPeer
                        (new_InboundPeer info socket (inboundPeerConfig pool)))))
             with 1.
           lia.
    + rewrite (eviction_below_limit random pool Hge).
      rewrite Z.geb_leb in Hge. apply Z.leb_gt in Hge.
      destruct (hasPeer (constructPeerIdFromPeerInfo info) pool) eqn:H.
      * rewrite (insertion_of_present _ info socket pool H). simpl. exact Hle.
      * destruct (insertion_of_absent (inboundPeerConfig pool) info socket pool H)
          as (_ & Hmap & _).
        destruct (addInboundPeer_insertion (inboundPeerConfig pool) info socket pool)
          as [c pool']. simpl in *.
        unfold inboundCount in *. rewrite Hmap.
        apply hasPeer_false_get in H.
        rewrite countKind_set_absent by exact H.
        change (unit_of (ofKind InboundPeer
                  (_bindHandlersToPeer
                     (new_InboundPeer info socket (inboundPeerConfig pool)))))
          with 1.
        lia.
Qed.

Lemma WellKeyed_fullPool : WellKeyed (_peerMap fullPool).
Proof.
  vm_compute. split.
  - repeat constructor. intros [].
  - repeat constructor.
Qed.

Lemma addInboundPeer_at_limit_witness :
  WellKeyed (_peerMap fullPool) /\
  (1 <= _maxInboundConnections fullPool)%Z /\
  Z.of_nat (inboundCount fullPool) = _maxInboundConnections fullPool /\
  hasPeer (constructPeerIdFromPeerInfo peerB) fullPool = false /\
  evictsOneInbound [] peerB (mkSocket "inbound-2") fullPool /\
  (Z.of_nat (inboundCount (snd (addInboundPeer [] peerB (mkSocket "inbound-2") fullPool)))
   <= _maxInboundConnections fullPool)%Z.
Proof.
  assert (Hmax : (1 <= _maxInboundConnections fullPool)%Z) by (vm_compute; discriminate).
  assert (Hcount : Z.of_nat (inboundCount fullPool) = _maxInboundConnections fullPool)
    by (vm_compute; reflexivity).
  assert (Habsent : hasPeer (constructPeerIdFromPeerInfo peerB) fullPool = false)
    by (vm_compute; reflexivity).
  assert (Hle : (Z.of_nat (inboundCount fullPool) <= _maxInboundConnections fullPool)%Z)
    by (vm_compute; discriminate).
  split; [exact WellKeyed_fullPool|]. split; [exact Hmax|].
  split; [exact Hcount|]. split; [exact Habsent|]. split.
  - exact (proj1 (addInboundPeer_at_limit [] peerB (mkSocket "inbound-2") fullPool
                    WellKeyed_fullPool) Hmax Hcount Habsent).
  - exact (proj2 (addInboundPeer_at_limit [] peerB (mkSocket "inbound-2") fullPool
                    WellKeyed_fullPool) Hle).
Defined.

(** C5, as stated, fails on a pool that accepts no inbound peer: no inbound
    peer is in the map, the count is at the limit, and [addInboundPeer]
    reads the id of the first of no peers and throws. *)
Lemma addInboundPeer_at_limit_zero :
  ~ addInboundPeer_at_limit_claim [] peerA (mkSocket "inbound-1") closedPool.
Proof.
  intros H.
  destruct (H eq_refl eq_refl) as (victim & peer & pool' & _ & Hadd & _).
  vm_compute in Hadd. discriminate.
Qed.

(* ================================================================== *)
(** * What the calls keep *)
(* ================================================================== *)

Section Loops.
Variable I : PeerPool -> Prop.

Lemma bind_preserves {A B : Type} (c : M A) (k : A -> M B) (pool : PeerPool) :
  I (snd (c pool)) ->
  (forall a pool', I pool' -> I (snd (k a pool'))) ->
  I (snd (bind c k pool)).
Proof.
  intros Hc Hk. unfold bind. destruct (c pool) as [[a|e] pool']; simpl in *; auto.
Qed.

Lemma forEach_preserves {A : Type} (f : A -> M unit) (l : list A) :
  (forall x, In x l -> forall pool, I pool -> I (snd (f x pool))) ->
  forall pool, I pool -> I (snd (forEach f l pool)).
Proof.
  induction l as [|x rest IH]; intros Hf pool Hp; simpl; auto.
  apply bind_preserves.
  - apply Hf; simpl; auto.
  - intros _ pool' Hp'. apply IH; auto. intros y Hy. apply Hf. simpl. auto.
Qed.

Lemma mapM_preserves {A B : Type} (f : A -> M B) (l : list A) :
  (forall x, In x l -> forall pool, I pool -> I (snd (f x pool))) ->
  forall pool, I pool -> I (snd (mapM f l pool)).
Proof.
  induction l as [|x rest IH]; intros Hf pool Hp; simpl; auto.
  apply bind_preserves.
  - apply Hf; simpl; auto.
  - intros y pool' Hp'. apply bind_preserves.
    + apply IH; auto. intros z Hz. apply Hf. simpl. auto.
    + intros ys pool'' Hp''. exact Hp''.
Qed.

Lemma tryCatch_preserves {A : Type} (body : M A) (handler : P2PError -> M A)
    (pool : PeerPool) :
  I (snd (body pool)) ->
  (forall e pool', I pool' -> I (snd (handler e pool'))) ->
  I (snd (tryCatch body handler pool)).
Proof.
  intros Hb Hh. unfold tryCatch. destruct (body pool) as [[a|e] pool']; simpl in *; auto.
Qed.
End Loops.

(** What the runtime delivers to the pool removes peers, emits, sets
    timeouts and starts tasks, and nothing else: a property of the pool
    that [removePeer] keeps, and that depends on the map and the
    configuration only, is kept by every delivery. *)
Section Deliveries.
Variable I : PeerPool -> Prop.
Hypothesis I_removePeer :
  forall peerId pool, I pool -> I (snd (removePeer peerId pool)).
Hypothesis I_books :
  forall pool pool',
    _peerMap pool' = _peerMap pool ->
    _peerPoolConfig pool' = _peerPoolConfig pool ->
    I pool -> I pool'.

Lemma emit_preserves eventName arg pool :
  I pool -> I (snd (emit eventName arg pool)).
Proof. intros H. unfold emit, update. simpl. now apply I_books with (pool := pool). Qed.

Lemma handle_preserves h arg pool : I pool -> I (snd (handle h arg pool)).
Proof.
  intros H.
  assert (Hclose : forall eventName closePacket,
            I (snd (bind (removePeer
                            (constructPeerIdFromPeerInfo (closePeerInfo closePacket)))
                      (fun _ => emit eventName arg) pool))).
  { intros eventName closePacket. apply bind_preserves.
    - now apply I_removePeer.
    - intros _ p Hp. now apply emit_preserves. }
  destruct h; cbn [handle]; try (now apply emit_preserves).
  - apply bind_preserves; [now apply emit_preserves|].
    intros _ p Hp. destruct arg; try exact Hp.
    unfold bind, this.
    destruct (getPeer (constructPeerIdFromPeerInfo peerInfo0) p).
    + unfold update. simpl. now apply I_books with (pool := p).
    + now apply emit_preserves.
  - destruct arg; try exact H. apply Hclose.
  - destruct arg; try exact H. apply Hclose.
  - unfold bind at 1, this. apply bind_preserves.
    + unfold setTimeout, update. simpl. now apply I_books with (pool := pool).
    + intros _ p Hp. now apply emit_preserves.
Qed.

Lemma Peer_emit_preserves peer eventName arg pool :
  I pool -> I (snd (Peer_emit peer eventName arg pool)).
Proof.
  intros H. unfold Peer_emit. apply forEach_preserves; auto.
  intros h _ p Hp. now apply handle_preserves.
Qed.

Lemma fireTimeout_preserves t pool : I pool -> I (snd (fireTimeout t pool)).
Proof. intros H. unfold fireTimeout. now apply handle_preserves. Qed.

Lemma _evictPeer_preserves random k pool :
  I pool -> I (snd (_evictPeer random k pool)).
Proof.
  intros H. unfold _evictPeer, bind at 1, this. cbv zeta.
  destruct (getPeers (Some k) pool) as [|first others]; [exact H|].
  destruct k; [|exact H].
  destruct (shuffle random (first :: others)) as [|victim rest]; [exact H|].
  apply bind_preserves.
  - now apply I_removePeer.
  - intros _ p Hp. exact Hp.
Qed.

Lemma outboundShuffleTick_preserves random pool :
  I pool -> I (snd (outboundShuffleTick random pool)).
Proof.
  intros H. unfold outboundShuffleTick, bind, this.
  destruct (_outboundShuffleIntervalId pool); [|exact H].
  now apply _evictPeer_preserves.
Qed.

Lemma settleFetchStatus_preserves outcome pool :
  I pool -> I (snd (settleFetchStatus outcome pool)).
Proof. intros H. destruct outcome; now apply emit_preserves. Qed.

Lemma settlePushNodeInfo_preserves outcome pool :
  I pool -> I (snd (settlePushNodeInfo outcome pool)).
Proof. intros H. destruct outcome; [now apply emit_preserves|exact H]. Qed.

(** The steps that are deliveries. *)
Lemma delivery_preserves op pool :
  match op with
  | PeerEmits _ _ _ | TimeoutFires _ | IntervalTicks _
  | FetchStatusSettles _ | PushNodeInfoSettles _ => True
  | _ => False
  end ->
  I pool -> I (perform op pool).
Proof.
  intros Hop H. destruct op; try contradiction; cbn [perform].
  - now apply Peer_emit_preserves.
  - now apply fireTimeout_preserves.
  - now apply outboundShuffleTick_preserves.
  - now apply settleFetchStatus_preserves.
  - now apply settlePushNodeInfo_preserves.
Qed.
End Deliveries.

Lemma steadyFrom_refl pool : steadyFrom pool pool.
Proof. split; reflexivity. Qed.

Lemma steadyFrom_hasPeer pool0 pool peerId :
  steadyFrom pool0 pool -> hasPeer peerId pool = hasPeer peerId pool0.
Proof. intros [_ H]. unfold hasPeer. now apply map_has_shape. Qed.

Lemma steadyFrom_calm pool0 pool : steadyFrom pool0 pool -> calmFrom pool0 pool.
Proof.
  intros [Hc Hs]. split; auto. unfold outboundCount.
  now rewrite (countKind_shape OutboundPeer _ _ Hs).
Qed.

Lemma calmFrom_refl pool : calmFrom pool pool.
Proof. split; auto. Qed.

Lemma calmFrom_trans pool0 pool1 pool2 :
  calmFrom pool0 pool1 -> calmFrom pool1 pool2 -> calmFrom pool0 pool2.
Proof. intros [C1 L1] [C2 L2]. split; [congruence|lia]. Qed.

Lemma steadyFrom_mutate pool0 pool key peer peer' :
  steadyFrom pool0 pool ->
  map_get key (_peerMap pool) = Some peer ->
  kind peer' = kind peer ->
  steadyFrom pool0 (with_peerMap pool (map_set key peer' (_peerMap pool))).
Proof.
  intros [Hc Hs] Hget Hkind. split; simpl; auto.
  now rewrite (shape_set_same_kind key peer peer' (_peerMap pool) Hget Hkind).
Qed.

Lemma sendToPeer_steady pool0 message peerId pool :
  steadyFrom pool0 pool -> steadyFrom pool0 (snd (sendToPeer message peerId pool)).
Proof.
  intros H. destruct (getPeer peerId pool) as [peer|] eqn:G.
  - destruct (ConnectionState_connected (state peer)) eqn:C.
    + rewrite (sendToPeer_connected message peerId peer pool G C). simpl.
      now apply steadyFrom_mutate with (peer := peer).
    + now rewrite (sendToPeer_not_connected message peerId peer pool G C).
  - rewrite (sendToPeer_absent message peerId pool); auto.
    unfold hasPeer, map_has. unfold getPeer in G. now rewrite G.
Qed.

Lemma send_steady pool0 message pool :
  steadyFrom pool0 pool -> steadyFrom pool0 (snd (send message pool)).
Proof.
  intros H. rewrite send_unfold. apply forEach_preserves; auto.
  intros info _ p Hp. now apply sendToPeer_steady.
Qed.

Lemma requestFromPeer_state network packet peerId pool :
  snd (requestFromPeer network packet peerId pool) = pool.
Proof.
  unfold requestFromPeer. run.
  destruct (map_get peerId (_peerMap pool)) as [peer|]; auto.
  now destruct (Peer_request network peer packet).
Qed.

Lemma request_state network packet pool :
  snd (request network packet pool) = pool.
Proof.
  unfold request, bind, this.
  destruct (_peerSelectForRequest pool _) as [|first rest].
  - reflexivity.
  - apply requestFromPeer_state.
Qed.

Lemma applyNodeInfo_steady pool0 nodeInfo pool :
  steadyFrom pool0 pool -> steadyFrom pool0 (snd (applyNodeInfo nodeInfo pool)).
Proof.
  intros H. unfold applyNodeInfo. apply bind_preserves.
  - exact H.
  - intros _ p Hp. unfold bind, this. apply forEach_preserves.
    + intros peer _ p' Hp'. exact Hp'.
    + exact Hp.
Qed.

Lemma applyPenalty_steady pool0 peerPenalty pool :
  steadyFrom pool0 pool -> steadyFrom pool0 (snd (applyPenalty peerPenalty pool)).
Proof.
  intros H. unfold applyPenalty. run.
  destruct (map_get (penaltyPeerId peerPenalty) (_peerMap pool)) as [peer|] eqn:G; auto.
  run. now apply steadyFrom_mutate with (peer := peer).
Qed.

Lemma addOutboundPeer_steady pool0 peerId info socket pool :
  steadyFrom pool0 pool ->
  hasPeer peerId pool0 = true ->
  steadyFrom pool0 (snd (addOutboundPeer peerId info socket pool)).
Proof.
  intros H Hhas. rewrite <- (steadyFrom_hasPeer pool0 pool peerId H) in Hhas.
  unfold hasPeer, map_has in Hhas.
  destruct (getPeer peerId pool) as [existing|] eqn:G.
  - rewrite (addOutboundPeer_existing peerId existing info socket pool G). simpl.
    now apply steadyFrom_mutate with (peer := existing).
  - unfold getPeer in G. rewrite G in Hhas. discriminate.
Qed.

Lemma runDiscovery_steady pool0 random discover knownPeers blacklist pool :
  steadyFrom pool0 pool ->
  forallb (fun info => hasPeer (constructPeerIdFromPeerInfo info) pool0) knownPeers = true ->
  steadyFrom pool0 (snd (runDiscovery random discover knownPeers blacklist pool)).
Proof.
  intros H Hall. rewrite forallb_forall in Hall.
  unfold runDiscovery, runDiscovery_started, runDiscovery_answered.
    apply bind_preserves.
  - apply mapM_preserves; auto.
    intros info Hin p Hp. apply addOutboundPeer_steady; auto.
  - intros peers p Hp. apply bind_preserves.
    + apply forEach_preserves; auto.
      intros info _ p' Hp'. unfold bind, this.
      destruct (getPeer (constructPeerIdFromPeerInfo info) p') as [existing|] eqn:G.
      * unfold mutatePeer, update. simpl.
        now apply steadyFrom_mutate with (peer := existing).
      * exact Hp'.
    + intros _ p' Hp'. exact Hp'.
Qed.

Lemma fetchStatusAndCreatePeers_steady pool0 connect seedPeers nodeInfo peerConfig pool :
  steadyFrom pool0 pool ->
  forallb
    (fun seedPeer =>
       match connect seedPeer nodeInfo peerConfig with
       | inr (info, _) => hasPeer (constructPeerIdFromPeerInfo info) pool0
       | inl _ => true
       end) seedPeers = true ->
  steadyFrom pool0
    (snd (fetchStatusAndCreatePeers connect seedPeers nodeInfo peerConfig pool)).
Proof.
  intros H Hall. rewrite forallb_forall in Hall.
  unfold fetchStatusAndCreatePeers, fetchStatusAndCreatePeers_settled.
    apply bind_preserves.
  - apply mapM_preserves; auto.
    intros seedPeer Hin p Hp. specialize (Hall seedPeer Hin).
    apply tryCatch_preserves.
    + destruct (connect seedPeer nodeInfo peerConfig) as [error|[info sock]].
      * exact Hp.
      * apply bind_preserves.
        -- now apply addOutboundPeer_steady.
        -- intros _ p' Hp'. exact Hp'.
    + intros e p' Hp'. apply bind_preserves.
      * destruct Hp' as [Hc Hs]. split; simpl; auto.
      * intros _ p'' Hp''. exact Hp''.
  - intros infos p Hp. exact Hp.
Qed.

Lemma removePeer_calm pool0 peerId pool :
  calmFrom pool0 pool -> calmFrom pool0 (snd (removePeer peerId pool)).
Proof.
  intros H. apply calmFrom_trans with (pool1 := pool); auto. split.
  - apply removePeer_keeps.
  - unfold outboundCount. rewrite removePeer_peerMap. apply countKind_delete_le.
Qed.

Lemma removeAllPeers_calm pool0 pool :
  calmFrom pool0 pool -> calmFrom pool0 (snd (removeAllPeers pool)).
Proof.
  intros H. unfold removeAllPeers. unfold bind at 1. unfold this at 1.
  apply bind_preserves.
  - destruct (_outboundShuffleIntervalId pool); exact H.
  - intros _ p Hp. apply forEach_preserves; auto.
    intros peer _ p' Hp'. apply bind_preserves.
    + now apply removePeer_calm.
    + intros _ p'' Hp''. exact Hp''.
Qed.

Lemma addInboundPeer_calm pool0 random info socket pool :
  calmFrom pool0 pool -> calmFrom pool0 (snd (addInboundPeer random info socket pool)).
Proof.
  intros H. rewrite addInboundPeer_parts. apply bind_preserves.
  - unfold addInboundPeer_eviction, bind, this.
    destruct (Z.of_nat _ >=? _)%Z; [|exact H].
    destruct (shuffle random _) as [|victim rest]; [exact H|].
    pose proof (removePeer_calm pool0 (id victim) pool H) as Hr.
    destruct (removePeer (id victim) pool) as [[b|e] p]; exact Hr.
  - intros _ p Hp.
    destruct (hasPeer (constructPeerIdFromPeerInfo info) p) eqn:Hhas.
    + now rewrite (insertion_of_present _ info socket p Hhas).
    + destruct (insertion_of_absent (inboundPeerConfig pool) info socket p Hhas)
        as (_ & Hmap & Hcfg).
      apply calmFrom_trans with (pool1 := p); auto. split; auto.
      unfold outboundCount. rewrite Hmap.
      apply hasPeer_false_get in Hhas.
      rewrite countKind_set_absent by exact Hhas.
      change (unit_of (ofKind OutboundPeer
                (_bindHandlersToPeer
                   (new_InboundPeer info socket (inboundPeerConfig pool)))))
        with 0.
      lia.
Qed.

(** [addOutboundPeer] checks no limit: it adds at most one outbound peer. *)
Lemma addOutboundPeer_grows peerId info socket pool :
  _peerPoolConfig (snd (addOutboundPeer peerId info socket pool)) = _peerPoolConfig pool /\
  outboundCount (snd (addOutboundPeer peerId info socket pool)) <= S (outboundCount pool).
Proof.
  destruct (getPeer peerId pool) as [existing|] eqn:G.
  - destruct (addOutboundPeer_steady pool peerId info socket pool (steadyFrom_refl pool))
      as [Hc Hs].
    + unfold hasPeer, map_has. unfold getPeer in G. now rewrite G.
    + split; auto. unfold outboundCount.
      rewrite (countKind_shape OutboundPeer _ _ Hs). lia.
  - destruct (addOutboundPeer_new peerId info socket pool G) as (_ & Hmap & Hc).
    split; auto. unfold outboundCount. rewrite Hmap. apply countKind_set_le.
Qed.

Lemma addOutboundPeer_new_outbound peerId info socket pool :
  hasPeer peerId pool = false ->
  hasPeer (constructPeerIdFromPeerInfo info) pool = false ->
  outboundCount (snd (addOutboundPeer peerId info socket pool)) = S (outboundCount pool).
Proof.
  intros H1 H2. apply hasPeer_false_get in H1. apply hasPeer_false_get in H2.
  destruct (addOutboundPeer_new peerId info socket pool H1) as (_ & Hmap & _).
  unfold outboundCount. rewrite Hmap. rewrite countKind_set_absent by exact H2.
  change (unit_of (ofKind OutboundPeer
            (_bindHandlersToPeer
               (new_OutboundPeer info socket (outboundPeerConfig pool)))))
    with 1.
  lia.
Qed.

Lemma forEach_addOutboundPeer_grows (selected : list P2PDiscoveredPeerInfo) :
  forall pool final,
    final
    = snd (forEach
             (fun info =>
                bind (addOutboundPeer (constructPeerIdFromPeerInfo info) info None)
                  (fun _ => ret tt))
             selected pool) ->
    _peerPoolConfig final = _peerPoolConfig pool /\
    outboundCount final <= outboundCount pool + length selected.
Proof.
  induction selected as [|info rest IH]; intros pool final Hf.
  - simpl in Hf. subst final. split; auto. simpl. lia.
  - cbn [forEach length] in *.
    destruct (addOutboundPeer_grows (constructPeerIdFromPeerInfo info) info None pool)
      as [Hc Hn].
    unfold bind at 1 in Hf. unfold bind at 1 in Hf.
    destruct (addOutboundPeer (constructPeerIdFromPeerInfo info) info None pool)
      as [[peer|e] p]; cbn [fst snd ret] in *.
    + destruct (IH p final Hf) as [Hc' Hn']. split; [congruence|lia].
    + subst final. split; auto. lia.
Qed.

Lemma triggerNewConnections_within peers pool :
  honoursPeerLimit (_peerSelectForConnection pool) ->
  withinOutboundLimit pool ->
  _peerPoolConfig (snd (triggerNewConnections peers pool)) = _peerPoolConfig pool /\
  withinOutboundLimit (snd (triggerNewConnections peers pool)).
Proof.
  intros Hsel Hin.
  set (input :=
         mkConnectionInput
           (filter (fun peer =>
              negb (map_has (constructPeerIdFromPeerInfo peer) (_peerMap pool))) peers)
           (_maxOutboundConnections pool - outbound (getPeersCountPerKind pool))%Z).
  set (final := snd (triggerNewConnections peers pool)).
  destruct (forEach_addOutboundPeer_grows (_peerSelectForConnection pool input)
              pool final eq_refl) as [Hc Hn].
  pose proof (Hsel input) as Hlen. subst input. cbn [connectionPeerLimit] in Hlen.
  split; [exact Hc|].
  unfold withinOutboundLimit, _maxOutboundConnections in *.
  rewrite Hc. rewrite getPeersCountPerKind_outbound in *.
  fold (outboundCount pool) in *. fold (outboundCount final).
  lia.
Qed.

(* ================================================================== *)
(** * The limit of outbound peers *)
(* ================================================================== *)

Lemma calmFrom_within pool pool' :
  calmFrom pool pool' -> withinOutboundLimit pool ->
  _peerPoolConfig pool' = _peerPoolConfig pool /\ withinOutboundLimit pool'.
Proof.
  intros [Hc Hn] Hin. split; auto.
  unfold withinOutboundLimit, _maxOutboundConnections in *.
  rewrite Hc. rewrite getPeersCountPerKind_outbound in *.
  fold (outboundCount pool) in Hin. fold (outboundCount pool'). lia.
Qed.

Lemma runDiscovery_started_steady pool0 knownPeers pool :
  steadyFrom pool0 pool ->
  forallb (fun info => hasPeer (constructPeerIdFromPeerInfo info) pool0) knownPeers = true ->
  steadyFrom pool0 (snd (runDiscovery_started knownPeers pool)).
Proof.
  intros H Hall. rewrite forallb_forall in Hall.
  unfold runDiscovery_started. apply mapM_preserves; auto.
  intros info Hin p Hp. apply addOutboundPeer_steady; auto.
Qed.

Lemma runDiscovery_answered_steady pool0 discoveredPeers pool :
  steadyFrom pool0 pool ->
  steadyFrom pool0 (snd (runDiscovery_answered discoveredPeers pool)).
Proof.
  intros H. unfold runDiscovery_answered. apply bind_preserves.
  - apply forEach_preserves; auto.
    intros info _ p' Hp'. unfold bind, this.
    destruct (getPeer (constructPeerIdFromPeerInfo info) p') as [existing|] eqn:G.
    + unfold mutatePeer, update. simpl.
      now apply steadyFrom_mutate with (peer := existing).
    + exact Hp'.
  - intros _ p' Hp'. exact Hp'.
Qed.

Lemma fetchStatusAndCreatePeers_settled_steady pool0 outcome pool :
  steadyFrom pool0 pool ->
  match outcome with
  | inr (info, _) => hasPeer (constructPeerIdFromPeerInfo info) pool0
  | inl _ => true
  end = true ->
  steadyFrom pool0 (snd (fetchStatusAndCreatePeers_settled outcome pool)).
Proof.
  intros H Hok. unfold fetchStatusAndCreatePeers_settled.
  apply tryCatch_preserves.
  - destruct outcome as [error|[info sock]].
    + exact H.
    + apply bind_preserves.
      * now apply addOutboundPeer_steady.
      * intros _ p' Hp'. exact Hp'.
  - intros e p' Hp'. apply bind_preserves.
    + destruct Hp' as [Hc Hs]. split; simpl; auto.
    + intros _ p'' Hp''. exact Hp''.
Qed.

Lemma calmFrom_books pool0 pool pool' :
  _peerMap pool' = _peerMap pool ->
  _peerPoolConfig pool' = _peerPoolConfig pool ->
  calmFrom pool0 pool -> calmFrom pool0 pool'.
Proof.
  intros Hm Hc [C L]. split; [congruence|]. unfold outboundCount in *. now rewrite Hm.
Qed.

Lemma perform_within op pool :
  honoursPeerLimit (_peerSelectForConnection pool) ->
  withinOutboundLimit pool ->
  addsNoNewOutbound pool op = true ->
  _peerPoolConfig (perform op pool) = _peerPoolConfig pool /\
  withinOutboundLimit (perform op pool).
Proof.
  intros Hsel Hin Hop.
  pose proof (steadyFrom_refl pool) as Hs.
  pose proof (calmFrom_refl pool) as Hcalm.
  assert (Hcalmer : forall pool', calmFrom pool pool' ->
            _peerPoolConfig pool' = _peerPoolConfig pool /\ withinOutboundLimit pool').
  { intros pool' H. now apply calmFrom_within. }
  destruct op; simpl in *.
  - apply Hcalmer, steadyFrom_calm. now apply applyNodeInfo_steady.
  - rewrite request_state. now apply Hcalmer.
  - apply Hcalmer, steadyFrom_calm. now apply send_steady.
  - rewrite requestFromPeer_state. now apply Hcalmer.
  - apply Hcalmer, steadyFrom_calm. now apply sendToPeer_steady.
  - apply Hcalmer, steadyFrom_calm. now apply fetchStatusAndCreatePeers_steady.
  - apply Hcalmer, steadyFrom_calm. now apply runDiscovery_steady.
  - now apply triggerNewConnections_within.
  - apply Hcalmer. now apply addInboundPeer_calm.
  - apply Hcalmer, steadyFrom_calm. now apply addOutboundPeer_steady.
  - apply Hcalmer. now apply removeAllPeers_calm.
  - apply Hcalmer. now apply removePeer_calm.
  - apply Hcalmer, steadyFrom_calm. now apply applyPenalty_steady.
  - apply Hcalmer, steadyFrom_calm. now apply runDiscovery_started_steady.
  - apply Hcalmer, steadyFrom_calm. now apply runDiscovery_answered_steady.
  - apply Hcalmer, steadyFrom_calm. now apply fetchStatusAndCreatePeers_settled_steady.
  - apply Hcalmer.
    now apply (Peer_emit_preserves (calmFrom pool) (removePeer_calm pool)
                 (calmFrom_books pool)).
  - apply Hcalmer.
    now apply (fireTimeout_preserves (calmFrom pool) (removePeer_calm pool)
                 (calmFrom_books pool)).
  - apply Hcalmer.
    now apply (outboundShuffleTick_preserves (calmFrom pool) (removePeer_calm pool)).
  - apply Hcalmer.
    now apply (settleFetchStatus_preserves (calmFrom pool) (calmFrom_books pool)).
  - apply Hcalmer.
    now apply (settlePushNodeInfo_preserves (calmFrom pool) (calmFrom_books pool)).
Qed.

Lemma selectFirst_connection_honours : honoursPeerLimit selectFirst_connection.
Proof.
  intros input. unfold selectFirst_connection. rewrite length_firstn. lia.
Qed.

(** C1, as the code has it: the limit of outbound peers is applied by
    [triggerNewConnections] alone, through the [peerLimit] it gives the
    connection selector.  Take any sequence of steps on the pool: calls of
    the public methods, the parts of [runDiscovery] and of
    [fetchStatusAndCreatePeers] between their awaits, and the deliveries of
    the runtime in between.  When every [addOutboundPeer] is called with an
    id the map has, every [runDiscovery] with known peers whose ids the map
    has, every dial of [fetchStatusAndCreatePeers] that succeeds answers
    with a peer info whose id the map has when the dial settles, and the
    connection selector returns no more peers than a limit that is not
    negative, a pool within the limit of outbound peers is within it after
    every step.  [addOutboundPeer] itself checks no limit: for an id that
    is not in the map, and a peer info whose own id is not in the map
    either, it adds one outbound peer. *)
Theorem outbound_limit_along_checked_calls :
  forall (ops : list Operation) (pool : PeerPool),
    (honoursPeerLimit (_peerSelectForConnection pool) ->
     withinOutboundLimit pool ->
     allAddNoNewOutbound ops pool = true ->
     Forall withinOutboundLimit (poolsAfter ops pool)) /\
    (forall peerId info socket,
       hasPeer peerId pool = false ->
       hasPeer (constructPeerIdFromPeerInfo info) pool = false ->
       outbound (getPeersCountPerKind (snd (addOutboundPeer peerId info socket pool)))
       = (outbound (getPeersCountPerKind pool) + 1)%Z).
Proof.
  intros ops pool. split.
  - revert pool. induction ops as [|op rest IH]; intros pool Hsel Hin Hall; simpl.
    + constructor.
    + simpl in Hall. apply andb_prop in Hall. destruct Hall as [Hop Hrest].
      destruct (perform_within op pool Hsel Hin Hop) as [Hc Hin'].
      constructor; auto. apply IH; auto.
      unfold _peerSelectForConnection in *. now rewrite Hc.
  - intros peerId info socket H1 H2.
    rewrite !getPeersCountPerKind_outbound.
    pose proof (addOutboundPeer_new_outbound peerId info socket pool H1 H2) as H.
    unfold outboundCount in H. lia.
Qed.

Lemma outbound_limit_along_checked_calls_witness :
  honoursPeerLimit (_peerSelectForConnection narrowPool) /\
  withinOutboundLimit narrowPool /\
  allAddNoNewOutbound checkedCalls narrowPool = true /\
  Forall withinOutboundLimit (poolsAfter checkedCalls narrowPool).
Proof.
  assert (Hsel : honoursPeerLimit (_peerSelectForConnection narrowPool))
    by exact selectFirst_connection_honours.
  assert (Hin : withinOutboundLimit narrowPool) by (vm_compute; discriminate).
  assert (Hall : allAddNoNewOutbound checkedCalls narrowPool = true)
    by (vm_compute; reflexivity).
  split; [exact Hsel|]. split; [exact Hin|]. split; [exact Hall|].
  exact (proj1 (outbound_limit_along_checked_calls checkedCalls narrowPool)
           Hsel Hin Hall).
Defined.

(** C1, as stated, fails: two calls of [addOutboundPeer] on a new pool of
    at most one outbound peer leave two outbound peers. *)
Lemma outbound_limit_exceeded_by_addOutboundPeer :
  ~ Forall withinOutboundLimit (poolsAfter twoOutboundCalls narrowPool).
Proof.
  intros H. rewrite Forall_forall in H.
  assert (Hlast : withinOutboundLimit
            (perform (CallAddOutboundPeer "2.2.2.2:5000" peerB None)
               (perform (CallAddOutboundPeer "1.1.1.1:5000" peerA None) narrowPool))).
  { apply H. unfold twoOutboundCalls. cbn [poolsAfter]. right. left. reflexivity. }
  vm_compute in Hlast. apply Hlast. reflexivity.
Qed.

(* ================================================================== *)
(** * Every pool the calls reach is keyed by the ids of its peers *)
(* ================================================================== *)

Lemma wellKeyedPool_mutate pool key peer peer' :
  wellKeyedPool pool ->
  map_get key (_peerMap pool) = Some peer ->
  id peer' = id peer ->
  wellKeyedPool (with_peerMap pool (map_set key peer' (_peerMap pool))).
Proof.
  unfold wellKeyedPool. intros Hwf Hget Hid. simpl.
  apply WellKeyed_set; auto. rewrite Hid. now apply WellKeyed_get with (m := _peerMap pool).
Qed.

Lemma removePeer_wellKeyed peerId pool :
  wellKeyedPool pool -> wellKeyedPool (snd (removePeer peerId pool)).
Proof.
  unfold wellKeyedPool. intros H. rewrite removePeer_peerMap.
  now apply WellKeyed_delete.
Qed.

Lemma addOutboundPeer_wellKeyed peerId info socket pool :
  wellKeyedPool pool -> wellKeyedPool (snd (addOutboundPeer peerId info socket pool)).
Proof.
  intros H. destruct (getPeer peerId pool) as [existing|] eqn:G.
  - rewrite (addOutboundPeer_existing peerId existing info socket pool G). simpl.
    now apply wellKeyedPool_mutate with (peer := existing).
  - destruct (addOutboundPeer_new peerId info socket pool G) as (_ & Hmap & _).
    unfold wellKeyedPool. rewrite Hmap. apply WellKeyed_set; auto.
Qed.

Lemma addInboundPeer_wellKeyed random info socket pool :
  wellKeyedPool pool -> wellKeyedPool (snd (addInboundPeer random info socket pool)).
Proof.
  intros H. rewrite addInboundPeer_parts. apply bind_preserves.
  - unfold addInboundPeer_eviction, bind, this.
    destruct (Z.of_nat _ >=? _)%Z; [|exact H].
    destruct (shuffle random _) as [|victim rest]; [exact H|].
    pose proof (removePeer_wellKeyed (id victim) pool H) as Hr.
    destruct (removePeer (id victim) pool) as [[b|e] p]; exact Hr.
  - intros _ p Hp.
    destruct (hasPeer (constructPeerIdFromPeerInfo info) p) eqn:Hhas.
    + now rewrite (insertion_of_present _ info socket p Hhas).
    + destruct (insertion_of_absent (inboundPeerConfig pool) info socket p Hhas)
        as (_ & Hmap & _).
      unfold wellKeyedPool. rewrite Hmap. apply WellKeyed_set; auto.
Qed.

Lemma sendToPeer_wellKeyed message peerId pool :
  wellKeyedPool pool -> wellKeyedPool (snd (sendToPeer message peerId pool)).
Proof.
  intros H. destruct (getPeer peerId pool) as [peer|] eqn:G.
  - destruct (ConnectionState_connected (state peer)) eqn:C.
    + rewrite (sendToPeer_connected message peerId peer pool G C). simpl.
      now apply wellKeyedPool_mutate with (peer := peer).
    + now rewrite (sendToPeer_not_connected message peerId peer pool G C).
  - rewrite (sendToPeer_absent message peerId pool); auto.
    unfold hasPeer, map_has. unfold getPeer in G. now rewrite G.
Qed.

Lemma new_PeerPool_wellKeyed config : wellKeyedPool (new_PeerPool config).
Proof. apply WellKeyed_empty. Qed.

Lemma wellKeyedPool_books pool pool' :
  _peerMap pool' = _peerMap pool ->
  _peerPoolConfig pool' = _peerPoolConfig pool ->
  wellKeyedPool pool -> wellKeyedPool pool'.
Proof. unfold wellKeyedPool. now intros -> _. Qed.

(** The hypothesis of C5 on the map holds of every pool the steps reach
    from a new pool. *)
Lemma perform_wellKeyed op pool :
  wellKeyedPool pool -> wellKeyedPool (perform op pool).
Proof.
  intros H. destruct op; simpl.
  - unfold applyNodeInfo. apply bind_preserves; [exact H|].
    intros _ p Hp. unfold bind, this. apply forEach_preserves.
    + intros peer _ p' Hp'. exact Hp'.
    + exact Hp.
  - now rewrite request_state.
  - rewrite send_unfold. apply forEach_preserves; auto.
    intros info _ p Hp. now apply sendToPeer_wellKeyed.
  - now rewrite requestFromPeer_state.
  - now apply sendToPeer_wellKeyed.
  - unfold fetchStatusAndCreatePeers, fetchStatusAndCreatePeers_settled.
    apply bind_preserves.
    + apply mapM_preserves; auto.
      intros seedPeer _ p Hp. apply tryCatch_preserves.
      * destruct (connect seedPeer nodeInfo peerConfig0) as [error|[info sock]].
        -- exact Hp.
        -- apply bind_preserves.
           ++ now apply addOutboundPeer_wellKeyed.
           ++ intros _ p' Hp'. exact Hp'.
      * intros e p' Hp'. apply bind_preserves; [exact Hp'|].
        intros _ p'' Hp''. exact Hp''.
    + intros infos p Hp. exact Hp.
  - unfold runDiscovery, runDiscovery_started, runDiscovery_answered.
    apply bind_preserves.
    + apply mapM_preserves; auto.
      intros info _ p Hp. now apply addOutboundPeer_wellKeyed.
    + intros peers p Hp. apply bind_preserves.
      * apply forEach_preserves; auto.
        intros info _ p' Hp'. unfold bind, this.
        destruct (getPeer (constructPeerIdFromPeerInfo info) p') as [existing|] eqn:G.
        -- unfold mutatePeer, update. simpl.
           now apply wellKeyedPool_mutate with (peer := existing).
        -- exact Hp'.
      * intros _ p' Hp'. exact Hp'.
  - unfold triggerNewConnections, bind at 1, this. apply forEach_preserves; auto.
    intros info _ p Hp. apply bind_preserves.
    + now apply addOutboundPeer_wellKeyed.
    + intros _ p' Hp'. exact Hp'.
  - now apply addInboundPeer_wellKeyed.
  - now apply addOutboundPeer_wellKeyed.
  - unfold removeAllPeers. unfold bind at 1. unfold this at 1.
    apply bind_preserves.
    + destruct (_outboundShuffleIntervalId pool); exact H.
    + intros _ p Hp. apply forEach_preserves; auto.
      intros peer _ p' Hp'. apply bind_preserves.
      * now apply removePeer_wellKeyed.
      * intros _ p'' Hp''. exact Hp''.
  - now apply removePeer_wellKeyed.
  - unfold applyPenalty. run.
    destruct (map_get (penaltyPeerId peerPenalty) (_peerMap pool)) as [peer|] eqn:G; auto.
    run. now apply wellKeyedPool_mutate with (peer := peer).
  - unfold runDiscovery_started. apply mapM_preserves; auto.
    intros info _ p Hp. now apply addOutboundPeer_wellKeyed.
  - unfold runDiscovery_answered. apply bind_preserves.
    + apply forEach_preserves; auto.
      intros info _ p' Hp'. unfold bind, this.
      destruct (getPeer (constructPeerIdFromPeerInfo info) p') as [existing|] eqn:G.
      * unfold mutatePeer, update. simpl.
        now apply wellKeyedPool_mutate with (peer := existing).
      * exact Hp'.
    + intros _ p' Hp'. exact Hp'.
  - unfold fetchStatusAndCreatePeers_settled. apply tryCatch_preserves.
    + destruct outcome as [error|[info sock]].
      * exact H.
      * apply bind_preserves.
        -- now apply addOutboundPeer_wellKeyed.
        -- intros _ p' Hp'. exact Hp'.
    + intros e p' Hp'. apply bind_preserves; [exact Hp'|].
      intros _ p'' Hp''. exact Hp''.
  - now apply (Peer_emit_preserves wellKeyedPool removePeer_wellKeyed wellKeyedPool_books).
  - now apply (fireTimeout_preserves wellKeyedPool removePeer_wellKeyed wellKeyedPool_books).
  - now apply (outboundShuffleTick_preserves wellKeyedPool removePeer_wellKeyed).
  - now apply (settleFetchStatus_preserves wellKeyedPool wellKeyedPool_books).
  - now apply (settlePushNodeInfo_preserves wellKeyedPool wellKeyedPool_books).
Qed.

Lemma performAll_wellKeyed ops config :
  wellKeyedPool (performAll ops (new_PeerPool config)).
Proof.
  unfold performAll.
  assert (H : forall pool, wellKeyedPool pool ->
                wellKeyedPool (fold_left (fun pool op => perform op pool) ops pool)).
  { induction ops as [|op rest IH]; intros pool Hp; simpl; auto.
    apply IH. now apply perform_wellKeyed. }
  apply H, new_PeerPool_wellKeyed.
Qed.

(* ================================================================== *)
(** * Peer ids *)
(* ================================================================== *)

Lemma numberToString_inj (a b : Z) : numberToString a = numberToString b -> a = b.
Proof.
  unfold numberToString. intros H.
  assert (Hint : forall z, NilZero.int_of_string (NilZero.string_of_int (Z.to_int z))
                           = Some (Z.to_int z)).
  { intros z. apply NilZero.isi; destruct z; simpl; try discriminate;
      intros [= E]; now apply DecimalPos.Unsigned.to_uint_nonnil in E. }
  apply DecimalZ.to_int_inj.
  pose proof (Hint a) as Ha. rewrite H, Hint in Ha. congruence.
Qed.

Lemma string_of_uint_noColon (d : Decimal.uint) :
  noColon (NilEmpty.string_of_uint d) = true.
Proof. induction d; simpl; auto. Qed.

Lemma numberToString_noColon (z : Z) : noColon (numberToString z) = true.
Proof.
  unfold numberToString, NilZero.string_of_int, NilZero.string_of_uint.
  destruct (Z.to_int z) as [d|d]; destruct d; simpl; auto;
    apply string_of_uint_noColon.
Qed.

Lemma noColon_append_colon (a s : string) :
  noColon (a ++ String (Ascii.ascii_of_nat 58) s)%string = false.
Proof.
  induction a as [|c a IH].
  - reflexivity.
  - cbn [append noColon]. rewrite IH. apply andb_false_r.
Qed.

Lemma append_colon_inj (a b s t : string) :
  noColon s = true -> noColon t = true ->
  (a ++ ":" ++ s)%string = (b ++ ":" ++ t)%string -> a = b /\ s = t.
Proof.
  change (":" ++ s)%string with (String (Ascii.ascii_of_nat 58) s).
  change (":" ++ t)%string with (String (Ascii.ascii_of_nat 58) t).
  revert b. induction a as [|c a IH]; intros [|c' b] Hs Ht H; cbn [append] in H.
  - injection H as H. auto.
  - injection H as Hc H. subst s. rewrite noColon_append_colon in Hs. discriminate.
  - injection H as Hc H. subst t. rewrite noColon_append_colon in Ht. discriminate.
  - injection H as Hc H. destruct (IH b Hs Ht H) as [-> ->]. now subst.
Qed.

(** X1: two peer infos with the same peer id have the same address and the
    same port: the id [ip:port] is split at its last colon, which the
    decimal port never contains. *)
Theorem constructPeerIdFromPeerInfo_injective :
  forall a b : P2PPeerInfo,
    constructPeerIdFromPeerInfo a = constructPeerIdFromPeerInfo b ->
    ipAddress a = ipAddress b /\ wsPort a = wsPort b.
Proof.
  intros a b H. unfold constructPeerIdFromPeerInfo in H.
  apply append_colon_inj in H; try apply numberToString_noColon.
  destruct H as [Hip Hport]. split; auto. now apply numberToString_inj.
Qed.

Lemma constructPeerIdFromPeerInfo_injective_witness :
  constructPeerIdFromPeerInfo peerA
  = constructPeerIdFromPeerInfo (peerInfoAt "1.1.1.1" 5000 20) /\
  ipAddress peerA = ipAddress (peerInfoAt "1.1.1.1" 5000 20) /\
  wsPort peerA = wsPort (peerInfoAt "1.1.1.1" 5000 20).
Proof.
  assert (H : constructPeerIdFromPeerInfo peerA
              = constructPeerIdFromPeerInfo (peerInfoAt "1.1.1.1" 5000 20))
    by (vm_compute; reflexivity).
  split; [exact H|].
  exact (constructPeerIdFromPeerInfo_injective peerA (peerInfoAt "1.1.1.1" 5000 20) H).
Defined.

(** X2: whatever its arguments, [getBucket] returns an integer from 0 to 63
    for a draw of [Math.random] in the interval from 0 to 1: the bucket size
    it is given bounds nothing, and the address and the secret change
    nothing. *)
Theorem getBucket_between_0_and_63 :
  forall (ipAddress ipAddress' : string) (secret secret' bucketSize bucketSize' : Z)
         (random : Q),
    Qle (Qmake 0 1) random -> Qlt random (Qmake 1 1) ->
    (0 <= getBucket ipAddress secret bucketSize random <= 63)%Z /\
    getBucket ipAddress secret bucketSize random
    = getBucket ipAddress' secret' bucketSize' random.
Proof.
  intros ip ip' secret secret' size size' random Hlo Hhi.
  pose proof (getBucket_range ip secret size random Hlo Hhi) as H.
  split; [lia|reflexivity].
Qed.

Lemma getBucket_between_0_and_63_witness :
  Qle (Qmake 0 1) (Qmake 63 64) /\ Qlt (Qmake 63 64) (Qmake 1 1) /\
  (0 <= getBucket "1.1.1.1" 1 32 (Qmake 63 64) <= 63)%Z /\
  getBucket "1.1.1.1" 1 32 (Qmake 63 64) = 63%Z.
Proof.
  assert (Hlo : Qle (Qmake 0 1) (Qmake 63 64)) by (vm_compute; discriminate).
  assert (Hhi : Qlt (Qmake 63 64) (Qmake 1 1)) by (vm_compute; reflexivity).
  split; [exact Hlo|]. split; [exact Hhi|]. split.
  - exact (proj1 (getBucket_between_0_and_63 "1.1.1.1" "1.1.1.1" 1 1 32 32
                    (Qmake 63 64) Hlo Hhi)).
  - vm_compute. reflexivity.
Defined.

(* ================================================================== *)
(** * Counting *)
(* ================================================================== *)

Lemma countKind_partition (m : JsMap Peer) :
  countKind OutboundPeer m + countKind InboundPeer m = map_size m.
Proof.
  unfold countKind, map_values, map_size.
  induction m as [|[k p] rest IH]; simpl; auto.
  assert (Hout : ofKind OutboundPeer p = PeerKind_eqb (kind p) OutboundPeer) by reflexivity.
  assert (Hin : ofKind InboundPeer p = PeerKind_eqb (kind p) InboundPeer) by reflexivity.
  rewrite Hout, Hin. destruct (kind p); simpl; lia.
Qed.

(** X3: the two counts of [getPeersCountPerKind] are the numbers of peers
    [getPeers] returns for each kind, and they add up to the number of
    peers of the pool: the reducer never meets a peer that is neither. *)
Theorem getPeersCountPerKind_counts_every_peer :
  forall pool : PeerPool,
    outbound (getPeersCountPerKind pool)
    = Z.of_nat (length (getPeers (Some OutboundPeer) pool)) /\
    inbound (getPeersCountPerKind pool)
    = Z.of_nat (length (getPeers (Some InboundPeer) pool)) /\
    (outbound (getPeersCountPerKind pool) + inbound (getPeersCountPerKind pool))%Z
    = Z.of_nat (length (getPeers None pool)) /\
    length (getAllPeerInfos pool) = map_size (_peerMap pool).
Proof.
  intros pool.
  rewrite getPeersCountPerKind_outbound, getPeersCountPerKind_inbound.
  rewrite !getPeers_length.
  pose proof (countKind_partition (_peerMap pool)) as H.
  unfold getAllPeerInfos, getPeers, map_values, map_size in *.
  rewrite !length_map. repeat split; lia.
Qed.

(* ================================================================== *)
(** * Invariants of the pools the public methods reach *)
(* ================================================================== *)

(** X4: in every pool reached from a new pool by steps on the pool (calls
    of the public methods, parts of the async ones, deliveries of the
    runtime), no id is twice in the map and every peer is held under its
    own id. *)
Theorem reached_pools_hold_each_peer_under_its_id :
  forall (config : PeerPoolConfig) (ops : list Operation),
    let pool := performAll ops (new_PeerPool config) in
    NoDup (map_keys (_peerMap pool)) /\
    (forall key peer, getPeer key pool = Some peer -> id peer = key) /\
    (forall peer, In peer (getPeers None pool) -> getPeer (id peer) pool = Some peer).
Proof.
  intros config ops pool.
  pose proof (performAll_wellKeyed ops config) as H. fold pool in H.
  split; [exact (proj1 H)|]. split.
  - intros key peer Hget. now apply WellKeyed_get with (m := _peerMap pool).
  - intros peer Hin. now apply WellKeyed_In.
Qed.

Lemma Forall_map_set {V : Type} (P : string * V -> Prop) key (v : V) (m : JsMap V) :
  (forall k, P (k, v)) -> Forall P m -> Forall P (map_set key v m).
Proof.
  intros Hv H. induction H as [|[k q] rest Hhead Htail IH]; simpl.
  - constructor; auto.
  - destruct (String.eqb k key); constructor; auto.
Qed.

Lemma Forall_map_delete {V : Type} (P : string * V -> Prop) key (m : JsMap V) :
  Forall P m -> Forall P (map_delete key m).
Proof.
  intros H. unfold map_delete. rewrite Forall_forall in *.
  intros x Hx. apply filter_In in Hx. now apply H.
Qed.

Lemma ownIdsPool_get key peer pool :
  ownIdsPool pool -> map_get key (_peerMap pool) = Some peer -> ownId peer.
Proof.
  unfold ownIdsPool. rewrite Forall_forall. intros H Hget.
  apply map_get_In in Hget. exact (H _ Hget).
Qed.

Lemma ownIdsPool_mutate pool key peer peer' :
  ownIdsPool pool ->
  map_get key (_peerMap pool) = Some peer ->
  id peer' = id peer -> Peer_asPeerInfo peer' = Peer_asPeerInfo peer ->
  ownIdsPool (with_peerMap pool (map_set key peer' (_peerMap pool))).
Proof.
  intros H Hget Hid Has. unfold ownIdsPool. simpl.
  apply Forall_map_set; auto. intros k. simpl. unfold ownId.
  rewrite Hid, Has. exact (ownIdsPool_get key peer pool H Hget).
Qed.

Lemma ownId_new k info sock config :
  ownId (_bindHandlersToPeer (new_Peer k info sock config)).
Proof. reflexivity. Qed.

Lemma removePeer_ownIds peerId pool :
  ownIdsPool pool -> ownIdsPool (snd (removePeer peerId pool)).
Proof.
  unfold ownIdsPool. intros H. rewrite removePeer_peerMap.
  now apply Forall_map_delete.
Qed.

Lemma addOutboundPeer_ownIds peerId info socket pool :
  ownIdsPool pool -> ownIdsPool (snd (addOutboundPeer peerId info socket pool)).
Proof.
  intros H. destruct (getPeer peerId pool) as [existing|] eqn:G.
  - rewrite (addOutboundPeer_existing peerId existing info socket pool G). simpl.
    now apply ownIdsPool_mutate with (peer := existing).
  - destruct (addOutboundPeer_new peerId info socket pool G) as (_ & Hmap & _).
    unfold ownIdsPool. rewrite Hmap. apply Forall_map_set; auto.
    intros k. apply ownId_new.
Qed.

Lemma addInboundPeer_ownIds random info socket pool :
  ownIdsPool pool -> ownIdsPool (snd (addInboundPeer random info socket pool)).
Proof.
  intros H. rewrite addInboundPeer_parts. apply bind_preserves.
  - unfold addInboundPeer_eviction, bind, this.
    destruct (Z.of_nat _ >=? _)%Z; [|exact H].
    destruct (shuffle random _) as [|victim rest]; [exact H|].
    pose proof (removePeer_ownIds (id victim) pool H) as Hr.
    destruct (removePeer (id victim) pool) as [[b|e] p]; exact Hr.
  - intros _ p Hp.
    destruct (hasPeer (constructPeerIdFromPeerInfo info) p) eqn:Hhas.
    + now rewrite (insertion_of_present _ info socket p Hhas).
    + destruct (insertion_of_absent (inboundPeerConfig pool) info socket p Hhas)
        as (_ & Hmap & _).
      unfold ownIdsPool. rewrite Hmap. apply Forall_map_set; auto.
      intros k. apply ownId_new.
Qed.

Lemma sendToPeer_ownIds message peerId pool :
  ownIdsPool pool -> ownIdsPool (snd (sendToPeer message peerId pool)).
Proof.
  intros H. destruct (getPeer peerId pool) as [peer|] eqn:G.
  - destruct (ConnectionState_connected (state peer)) eqn:C.
    + rewrite (sendToPeer_connected message peerId peer pool G C). simpl.
      now apply ownIdsPool_mutate with (peer := peer).
    + now rewrite (sendToPeer_not_connected message peerId peer pool G C).
  - rewrite (sendToPeer_absent message peerId pool); auto.
    unfold hasPeer, map_has. unfold getPeer in G. now rewrite G.
Qed.

Lemma ownIdsPool_books pool pool' :
  _peerMap pool' = _peerMap pool ->
  _peerPoolConfig pool' = _peerPoolConfig pool ->
  ownIdsPool pool -> ownIdsPool pool'.
Proof. unfold ownIdsPool. now intros -> _. Qed.

Lemma perform_ownIds op pool : ownIdsPool pool -> ownIdsPool (perform op pool).
Proof.
  intros H. destruct op; simpl.
  - unfold applyNodeInfo. apply bind_preserves; [exact H|].
    intros _ p Hp. unfold bind, this. apply forEach_preserves.
    + intros peer _ p' Hp'. exact Hp'.
    + exact Hp.
  - now rewrite request_state.
  - rewrite send_unfold. apply forEach_preserves; auto.
    intros info _ p Hp. now apply sendToPeer_ownIds.
  - now rewrite requestFromPeer_state.
  - now apply sendToPeer_ownIds.
  - unfold fetchStatusAndCreatePeers, fetchStatusAndCreatePeers_settled.
    apply bind_preserves.
    + apply mapM_preserves; auto.
      intros seedPeer _ p Hp. apply tryCatch_preserves.
      * match goal with
        | |- context [connect ?a ?b ?c] =>
            destruct (connect a b c) as [error|[info sock]]
        end.
        -- exact Hp.
        -- apply bind_preserves.
           ++ now apply addOutboundPeer_ownIds.
           ++ intros _ p' Hp'. exact Hp'.
      * intros e p' Hp'. apply bind_preserves; [exact Hp'|].
        intros _ p'' Hp''. exact Hp''.
    + intros infos p Hp. exact Hp.
  - unfold runDiscovery, runDiscovery_started, runDiscovery_answered.
    apply bind_preserves.
    + apply mapM_preserves; auto.
      intros info _ p Hp. now apply addOutboundPeer_ownIds.
    + intros peers p Hp. apply bind_preserves.
      * apply forEach_preserves; auto.
        intros info _ p' Hp'. unfold bind, this.
        destruct (getPeer (constructPeerIdFromPeerInfo info) p') as [existing|] eqn:G.
        -- unfold mutatePeer, update. simpl.
           now apply ownIdsPool_mutate with (peer := existing).
        -- exact Hp'.
      * intros _ p' Hp'. exact Hp'.
  - unfold triggerNewConnections, bind at 1, this. apply forEach_preserves; auto.
    intros info _ p Hp. apply bind_preserves.
    + now apply addOutboundPeer_ownIds.
    + intros _ p' Hp'. exact Hp'.
  - now apply addInboundPeer_ownIds.
  - now apply addOutboundPeer_ownIds.
  - unfold removeAllPeers. unfold bind at 1. unfold this at 1.
    apply bind_preserves.
    + destruct (_outboundShuffleIntervalId pool); exact H.
    + intros _ p Hp. apply forEach_preserves; auto.
      intros peer _ p' Hp'. apply bind_preserves.
      * now apply removePeer_ownIds.
      * intros _ p'' Hp''. exact Hp''.
  - now apply removePeer_ownIds.
  - unfold applyPenalty. run.
    destruct (map_get (penaltyPeerId peerPenalty) (_peerMap pool)) as [peer|] eqn:G; auto.
    run. now apply ownIdsPool_mutate with (peer := peer).
  - unfold runDiscovery_started. apply mapM_preserves; auto.
    intros info _ p Hp. now apply addOutboundPeer_ownIds.
  - unfold runDiscovery_answered. apply bind_preserves.
    + apply forEach_preserves; auto.
      intros info _ p' Hp'. unfold bind, this.
      destruct (getPeer (constructPeerIdFromPeerInfo info) p') as [existing|] eqn:G.
      * unfold mutatePeer, update. simpl.
        now apply ownIdsPool_mutate with (peer := existing).
      * exact Hp'.
    + intros _ p' Hp'. exact Hp'.
  - unfold fetchStatusAndCreatePeers_settled. apply tryCatch_preserves.
    + destruct outcome as [error|[info sock]].
      * exact H.
      * apply bind_preserves.
        -- now apply addOutboundPeer_ownIds.
        -- intros _ p' Hp'. exact Hp'.
    + intros e p' Hp'. apply bind_preserves; [exact Hp'|].
      intros _ p'' Hp''. exact Hp''.
  - now apply (Peer_emit_preserves ownIdsPool removePeer_ownIds ownIdsPool_books).
  - now apply (fireTimeout_preserves ownIdsPool removePeer_ownIds ownIdsPool_books).
  - now apply (outboundShuffleTick_preserves ownIdsPool removePeer_ownIds).
  - now apply (settleFetchStatus_preserves ownIdsPool ownIdsPool_books).
  - now apply (settlePushNodeInfo_preserves ownIdsPool ownIdsPool_books).
Qed.

Lemma performAll_ownIds ops config : ownIdsPool (performAll ops (new_PeerPool config)).
Proof.
  unfold performAll.
  assert (H : forall pool, ownIdsPool pool ->
                ownIdsPool (fold_left (fun pool op => perform op pool) ops pool)).
  { induction ops as [|op rest IH]; intros pool Hp; simpl; auto.
    apply IH. now apply perform_ownIds. }
  apply H. constructor.
Qed.

Lemma countKind_set_other k key p m :
  ofKind k p = false -> countKind k (map_set key p m) <= countKind k m.
Proof.
  intros Hp. unfold countKind, map_values.
  induction m as [|[k' q] rest IH]; simpl.
  - rewrite Hp. simpl. lia.
  - destruct (String.eqb k' key); simpl.
    + rewrite Hp. destruct (ofKind k q); simpl; lia.
    + destruct (ofKind k q); simpl; lia.
Qed.

Lemma steadyFrom_tame pool0 pool : steadyFrom pool0 pool -> tameFrom pool0 pool.
Proof.
  intros [Hc Hs]. split; auto. unfold inboundCount.
  now rewrite (countKind_shape InboundPeer _ _ Hs).
Qed.

Lemma tameFrom_refl pool : tameFrom pool pool.
Proof. split; auto. Qed.

Lemma tameFrom_trans pool0 pool1 pool2 :
  tameFrom pool0 pool1 -> tameFrom pool1 pool2 -> tameFrom pool0 pool2.
Proof. intros [C1 L1] [C2 L2]. split; [congruence|lia]. Qed.

Lemma removePeer_tame pool0 peerId pool :
  tameFrom pool0 pool -> tameFrom pool0 (snd (removePeer peerId pool)).
Proof.
  intros H. apply tameFrom_trans with (pool1 := pool); auto. split.
  - apply removePeer_keeps.
  - unfold inboundCount. rewrite removePeer_peerMap. apply countKind_delete_le.
Qed.

Lemma addOutboundPeer_tame pool0 peerId info socket pool :
  tameFrom pool0 pool -> tameFrom pool0 (snd (addOutboundPeer peerId info socket pool)).
Proof.
  intros H. apply tameFrom_trans with (pool1 := pool); auto.
  destruct (getPeer peerId pool) as [existing|] eqn:G.
  - apply steadyFrom_tame. apply addOutboundPeer_steady; [apply steadyFrom_refl|].
    unfold hasPeer, map_has. unfold getPeer in G. now rewrite G.
  - destruct (addOutboundPeer_new peerId info socket pool G) as (_ & Hmap & Hc).
    split; auto. unfold inboundCount. rewrite Hmap.
    now apply countKind_set_other.
Qed.

Lemma mutate_tame pool0 pool key peer peer' :
  tameFrom pool0 pool ->
  map_get key (_peerMap pool) = Some peer -> kind peer' = kind peer ->
  tameFrom pool0 (with_peerMap pool (map_set key peer' (_peerMap pool))).
Proof.
  intros H Hget Hkind. apply tameFrom_trans with (pool1 := pool); auto.
  apply steadyFrom_tame.
  now apply steadyFrom_mutate with (peer := peer); [apply steadyFrom_refl| |].
Qed.

Lemma tameFrom_books pool0 pool pool' :
  _peerMap pool' = _peerMap pool ->
  _peerPoolConfig pool' = _peerPoolConfig pool ->
  tameFrom pool0 pool -> tameFrom pool0 pool'.
Proof.
  intros Hm Hc [C L]. split; [congruence|]. unfold inboundCount in *. now rewrite Hm.
Qed.

Lemma perform_tame op pool :
  (forall random info socket, op <> CallAddInboundPeer random info socket) ->
  tameFrom pool (perform op pool).
Proof.
  intros Hop. pose proof (tameFrom_refl pool) as H.
  pose proof (steadyFrom_refl pool) as Hs.
  destruct op; simpl.
  - apply steadyFrom_tame. now apply applyNodeInfo_steady.
  - now rewrite request_state.
  - apply steadyFrom_tame. now apply send_steady.
  - now rewrite requestFromPeer_state.
  - apply steadyFrom_tame. now apply sendToPeer_steady.
  - unfold fetchStatusAndCreatePeers, fetchStatusAndCreatePeers_settled.
    apply bind_preserves.
    + apply mapM_preserves; auto.
      intros seedPeer _ p Hp. apply tryCatch_preserves.
      * match goal with
        | |- context [connect ?a ?b ?c] =>
            destruct (connect a b c) as [error|[info sock]]
        end.
        -- exact Hp.
        -- apply bind_preserves.
           ++ now apply addOutboundPeer_tame.
           ++ intros _ p' Hp'. exact Hp'.
      * intros e p' Hp'. apply bind_preserves; [exact Hp'|].
        intros _ p'' Hp''. exact Hp''.
    + intros infos p Hp. exact Hp.
  - unfold runDiscovery, runDiscovery_started, runDiscovery_answered.
    apply bind_preserves.
    + apply mapM_preserves; auto.
      intros info _ p Hp. now apply addOutboundPeer_tame.
    + intros peers p Hp. apply bind_preserves.
      * apply forEach_preserves; auto.
        intros info _ p' Hp'. unfold bind, this.
        destruct (getPeer (constructPeerIdFromPeerInfo info) p') as [existing|] eqn:G.
        -- unfold mutatePeer, update. simpl.
           now apply mutate_tame with (peer := existing).
        -- exact Hp'.
      * intros _ p' Hp'. exact Hp'.
  - unfold triggerNewConnections, bind at 1, this. apply forEach_preserves; auto.
    intros info _ p Hp. apply bind_preserves.
    + now apply addOutboundPeer_tame.
    + intros _ p' Hp'. exact Hp'.
  - exfalso. now apply (Hop random peerInfo0 socket0).
  - now apply addOutboundPeer_tame.
  - unfold removeAllPeers. unfold bind at 1. unfold this at 1.
    apply bind_preserves.
    + destruct (_outboundShuffleIntervalId pool); exact H.
    + intros _ p Hp. apply forEach_preserves; auto.
      intros peer _ p' Hp'. apply bind_preserves.
      * now apply removePeer_tame.
      * intros _ p'' Hp''. exact Hp''.
  - now apply removePeer_tame.
  - apply steadyFrom_tame. now apply applyPenalty_steady.
  - unfold runDiscovery_started. apply mapM_preserves; auto.
    intros info _ p Hp. now apply addOutboundPeer_tame.
  - unfold runDiscovery_answered. apply bind_preserves.
    + apply forEach_preserves; auto.
      intros info _ p' Hp'. unfold bind, this.
      destruct (getPeer (constructPeerIdFromPeerInfo info) p') as [existing|] eqn:G.
      * unfold mutatePeer, update. simpl.
        now apply mutate_tame with (peer := existing).
      * exact Hp'.
    + intros _ p' Hp'. exact Hp'.
  - unfold fetchStatusAndCreatePeers_settled. apply tryCatch_preserves.
    + destruct outcome as [error|[info sock]].
      * exact H.
      * apply bind_preserves.
        -- now apply addOutboundPeer_tame.
        -- intros _ p' Hp'. exact Hp'.
    + intros e p' Hp'. apply bind_preserves; [exact Hp'|].
      intros _ p'' Hp''. exact Hp''.
  - now apply (Peer_emit_preserves (tameFrom pool) (removePeer_tame pool) (tameFrom_books pool)).
  - now apply (fireTimeout_preserves (tameFrom pool) (removePeer_tame pool) (tameFrom_books pool)).
  - now apply (outboundShuffleTick_preserves (tameFrom pool) (removePeer_tame pool)).
  - now apply (settleFetchStatus_preserves (tameFrom pool) (tameFrom_books pool)).
  - now apply (settlePushNodeInfo_preserves (tameFrom pool) (tameFrom_books pool)).
Qed.

Lemma addInboundPeer_keeps_inbound_limit random info socket pool :
  wellKeyedPool pool ->
  (Z.of_nat (inboundCount pool) <= _maxInboundConnections pool)%Z ->
  (Z.of_nat (inboundCount (snd (addInboundPeer random info socket pool)))
   <= _maxInboundConnections pool)%Z.
Proof.
  intros Hwf Hle. rewrite addInboundPeer_parts. unfold bind.
  assert (Hnew : unit_of (ofKind InboundPeer
                   (_bindHandlersToPeer
                      (new_InboundPeer info socket (inboundPeerConfig pool)))) = 1)
    by reflexivity.
  destruct (Z.of_nat (inboundCount pool) >=? _maxInboundConnections pool)%Z eqn:Hge.
  - destruct (Nat.eq_dec (inboundCount pool) 0) as [Hzero|Hpos].
    + rewrite (eviction_of_nothing random pool Hge Hzero). simpl. exact Hle.
    + destruct (eviction_at_limit random pool Hwf Hge Hpos)
        as (victim & Hin & Hkind & Hget & Hevict).
      rewrite Hevict.
      pose proof (removePeer_peerMap (id victim) pool) as Hmap1.
      pose proof (countKind_delete_present InboundPeer (id victim) victim
                    (_peerMap pool) (proj1 Hwf) Hget) as Hdel.
      assert (Hv : ofKind InboundPeer victim = true)
        by (unfold ofKind; now rewrite Hkind).
      rewrite Hv in Hdel. simpl unit_of in Hdel.
      destruct (hasPeer (constructPeerIdFromPeerInfo info)
                  (snd (removePeer (id victim) pool))) eqn:H.
      * rewrite (insertion_of_present _ info socket _ H). simpl.
        unfold inboundCount in *. rewrite Hmap1. lia.
      * destruct (insertion_of_absent (inboundPeerConfig pool) info socket _ H)
          as (_ & Hmap & _).
        destruct (addInboundPeer_insertion (inboundPeerConfig pool) info socket
                    (snd (removePeer (id victim) pool))) as [c pool'].
        cbn [fst snd] in *. unfold inboundCount in *. rewrite Hmap.
        apply hasPeer_false_get in H.
        rewrite countKind_set_absent by exact H.
        rewrite Hmap1, Hnew. lia.
  - rewrite (eviction_below_limit random pool Hge).
    rewrite Z.geb_leb in Hge. apply Z.leb_gt in Hge.
    destruct (hasPeer (constructPeerIdFromPeerInfo info) pool) eqn:H.
    + rewrite (insertion_of_present _ info socket pool H). simpl. exact Hle.
    + destruct (insertion_of_absent (inboundPeerConfig pool) info socket pool H)
        as (_ & Hmap & _).
      destruct (addInboundPeer_insertion (inboundPeerConfig pool) info socket pool)
        as [c pool']. cbn [fst snd] in *.
      unfold inboundCount in *. rewrite Hmap.
      apply hasPeer_false_get in H.
      rewrite countKind_set_absent by exact H. rewrite Hnew. lia.
Qed.

Lemma perform_within_inbound op pool :
  wellKeyedPool pool -> withinInboundLimit pool ->
  _peerPoolConfig (perform op pool) = _peerPoolConfig pool /\
  withinInboundLimit (perform op pool).
Proof.
  intros Hwf Hin.
  unfold withinInboundLimit, _maxInboundConnections in *.
  rewrite getPeersCountPerKind_inbound in *.
  fold (inboundCount pool) in Hin. fold (inboundCount (perform op pool)).
  assert (Hother : (forall random info socket, op <> CallAddInboundPeer random info socket) ->
                   _peerPoolConfig (perform op pool) = _peerPoolConfig pool /\
                   (Z.of_nat (inboundCount (perform op pool))
                    <= maxInboundConnections (_peerPoolConfig (perform op pool)))%Z).
  { intros Hop. destruct (perform_tame op pool Hop) as [Hc Hn].
    split; auto. rewrite Hc. lia. }
  destruct op; try (apply Hother; discriminate).
  simpl. split.
  - apply addInboundPeer_keeps_config.
  - rewrite addInboundPeer_keeps_config.
    now apply addInboundPeer_keeps_inbound_limit.
Qed.

(** X5: a pool whose limit of inbound peers is not negative never has more
    inbound peers than [maxInboundConnections], after any step of any
    sequence of steps on a new pool (calls of the public methods, parts of
    the async ones, deliveries of the runtime). *)
Theorem inbound_limit_along_all_calls :
  forall (config : PeerPoolConfig) (ops : list Operation),
    (0 <= maxInboundConnections config)%Z ->
    Forall withinInboundLimit (poolsAfter ops (new_PeerPool config)).
Proof.
  intros config ops Hmax.
  assert (H : forall pool, wellKeyedPool pool -> withinInboundLimit pool ->
                Forall withinInboundLimit (poolsAfter ops pool)).
  { induction ops as [|op rest IH]; intros pool Hwf Hin; simpl.
    - constructor.
    - destruct (perform_within_inbound op pool Hwf Hin) as [_ Hin'].
      constructor; auto. apply IH; auto. now apply perform_wellKeyed. }
  apply H.
  - apply new_PeerPool_wellKeyed.
  - unfold withinInboundLimit. simpl. exact Hmax.
Qed.

Lemma inbound_limit_along_all_calls_witness :
  (0 <= maxInboundConnections (sampleConfig 2 1))%Z /\
  Forall withinInboundLimit
    (poolsAfter
       [ CallAddInboundPeer [] peerA (mkSocket "inbound-1");
         CallAddInboundPeer [] peerB (mkSocket "inbound-2");
         CallAddOutboundPeer "3.3.3.3:5000" peerC None ]
       (new_PeerPool (sampleConfig 2 1))).
Proof.
  assert (H : (0 <= maxInboundConnections (sampleConfig 2 1))%Z)
    by (vm_compute; discriminate).
  split; [exact H|].
  exact (inbound_limit_along_all_calls (sampleConfig 2 1) _ H).
Defined.

(* ================================================================== *)
(** * Removing peers *)
(* ================================================================== *)

Lemma map_has_set_mono {V : Type} (k key : string) (v : V) (m : JsMap V) :
  map_has k m = true -> map_has k (map_set key v m) = true.
Proof.
  intros H. destruct (String.eqb key k) eqn:E.
  - apply String.eqb_eq in E. subst. apply map_has_set_eq.
  - apply String.eqb_neq in E. unfold map_has in *.
    now rewrite map_get_set_ne.
Qed.

Lemma map_size_delete_present key peer (m : JsMap Peer) :
  NoDup (map_keys m) -> map_get key m = Some peer ->
  map_size m = S (map_size (map_delete key m)).
Proof.
  intros Hnd Hget.
  pose proof (countKind_delete_present OutboundPeer key peer m Hnd Hget) as Ho.
  pose proof (countKind_delete_present InboundPeer key peer m Hnd Hget) as Hi.
  rewrite <- (countKind_partition m), <- (countKind_partition (map_delete key m)).
  unfold ofKind in *. destruct (kind peer); simpl in *; lia.
Qed.

Lemma Peer_removed_closed peer : state (Peer_removed peer) = Closed.
Proof. reflexivity. Qed.

(** X6: in a pool that holds each peer under its id, [removePeer] of a peer
    of the pool returns [true], leaves one peer less, changes no other
    entry of the map, lowers the count of the kind of the peer by one and
    the other count not at all, emits nothing, and leaves the peer object
    disconnected. *)
Theorem removePeer_removes_that_peer_only :
  forall (pool : PeerPool) (peerId : string) (peer : Peer),
    wellKeyedPool pool ->
    getPeer peerId pool = Some peer ->
    let result := removePeer peerId pool in
    fst result = Return true /\
    map_size (_peerMap pool) = S (map_size (_peerMap (snd result))) /\
    (forall other, other <> peerId -> getPeer other (snd result) = getPeer other pool) /\
    (forall k, countKind k (_peerMap pool)
               = countKind k (_peerMap (snd result)) + unit_of (ofKind k peer)) /\
    released (snd result) = released pool ++ [Peer_removed peer] /\
    state (Peer_removed peer) = Closed /\
    emitted (snd result) = emitted pool.
Proof.
  intros pool peerId peer [Hnd Hall] Hget result. subst result.
  unfold getPeer in *. rewrite (removePeer_present peerId peer pool Hget).
  cbn [fst snd _peerMap released emitted with_peerMap with_released].
  split; [reflexivity|]. split; [now apply map_size_delete_present with (peer := peer)|].
  split; [intros other Hne; apply map_get_delete_ne; congruence|].
  split; [intros k; now apply countKind_delete_present|].
  repeat split.
Qed.

Lemma removePeer_removes_that_peer_only_witness :
  wellKeyedPool poolWithOutboundA /\
  getPeer "1.1.1.1:5000" poolWithOutboundA = Some outboundA /\
  fst (removePeer "1.1.1.1:5000" poolWithOutboundA) = Return true /\
  map_size (_peerMap poolWithOutboundA)
  = S (map_size (_peerMap (snd (removePeer "1.1.1.1:5000" poolWithOutboundA)))).
Proof.
  assert (Hwf : wellKeyedPool poolWithOutboundA).
  { exact (perform_wellKeyed (CallAddOutboundPeer "1.1.1.1:5000" peerA None)
             emptyPool (new_PeerPool_wellKeyed (sampleConfig 2 2))). }
  assert (Hget : getPeer "1.1.1.1:5000" poolWithOutboundA = Some outboundA)
    by (vm_compute; reflexivity).
  split; [exact Hwf|]. split; [exact Hget|].
  destruct (removePeer_removes_that_peer_only poolWithOutboundA "1.1.1.1:5000"
              outboundA Hwf Hget) as (H1 & H2 & _).
  split; assumption.
Defined.

Lemma forEach_removePeer (m : JsMap Peer) :
  forall pool,
    WellKeyed m -> _peerMap pool = m ->
    forEach (fun peer => bind (removePeer (id peer)) (fun _ => ret tt))
      (map_values m) pool
    = (Return tt,
       with_peerMap
         (with_released pool (released pool ++ map Peer_removed (map_values m))) []).
Proof.
  induction m as [|[k p] rest IH]; intros pool Hwf Hmap.
  - simpl. unfold ret. f_equal. destruct pool. simpl in *. subst.
    unfold with_peerMap, with_released. simpl. now rewrite app_nil_r.
  - destruct Hwf as [Hnd Hall].
    inversion Hnd as [|? ? Hnotin Hnd']. inversion Hall as [|? ? Hid Hall'].
    subst. simpl in Hid.
    assert (Hget : map_get (id p) (_peerMap pool) = Some p).
    { rewrite Hmap. simpl. rewrite Hid. now rewrite String.eqb_refl. }
    assert (Hrest : map_delete (id p) (_peerMap pool) = rest).
    { rewrite Hmap. unfold map_delete. simpl. rewrite Hid, String.eqb_refl. simpl.
      apply (map_delete_absent k rest).
      destruct (map_get k rest) eqn:G; auto.
      exfalso. apply Hnotin. eapply map_get_key_In; eauto. }
    cbn [map_values map snd forEach]. unfold bind at 1. unfold bind at 1.
    rewrite (removePeer_present (id p) p pool Hget). cbn [ret].
    fold (map_values rest).
    rewrite IH; [| split; assumption | simpl; exact Hrest].
    f_equal. unfold with_peerMap, with_released. simpl.
    now rewrite <- app_assoc.
Qed.

(** X7: in a pool that holds each peer under its id, [removeAllPeers]
    returns with an empty map and the interval of the periodic eviction
    cleared; every peer that was in the map has left it disconnected, in
    the order of the map; nothing is emitted, and a later tick of the
    interval changes nothing. *)
Theorem removeAllPeers_empties_the_pool :
  forall pool : PeerPool,
    wellKeyedPool pool ->
    let result := removeAllPeers pool in
    fst result = Return tt /\
    _peerMap (snd result) = [] /\
    _outboundShuffleIntervalId (snd result) = false /\
    released (snd result) = released pool ++ map Peer_removed (getPeers None pool) /\
    Forall (fun peer => state peer = Closed) (map Peer_removed (getPeers None pool)) /\
    emitted (snd result) = emitted pool /\
    (forall random, outboundShuffleTick random (snd result) = (Return tt, snd result)).
Proof.
  intros pool Hwf result.
  assert (Hrun : result
                 = (Return tt,
                    with_peerMap
                      (with_released (with_interval pool false)
                         (released pool ++ map Peer_removed (map_values (_peerMap pool))))
                      [])).
  { subst result. unfold removeAllPeers. unfold bind at 1. unfold this at 1.
    unfold bind at 1.
    destruct (_outboundShuffleIntervalId pool) eqn:Harmed.
    - unfold update. rewrite (forEach_removePeer (_peerMap pool)); auto.
    - unfold ret. rewrite (forEach_removePeer (_peerMap pool)); auto.
      f_equal. destruct pool. simpl in *. now subst. }
  rewrite Hrun. cbn [fst snd]. unfold getPeers.
  split; [reflexivity|]. split; [reflexivity|]. split; [reflexivity|].
  split; [reflexivity|]. split.
  - apply Forall_forall. intros p Hp. apply in_map_iff in Hp.
    destruct Hp as (q & <- & _). reflexivity.
  - split; [reflexivity|]. intros random. reflexivity.
Qed.

Lemma removeAllPeers_empties_the_pool_witness :
  wellKeyedPool poolWithOutboundA /\
  fst (removeAllPeers poolWithOutboundA) = Return tt /\
  _peerMap (snd (removeAllPeers poolWithOutboundA)) = [] /\
  _outboundShuffleIntervalId (snd (removeAllPeers poolWithOutboundA)) = false.
Proof.
  assert (Hwf : wellKeyedPool poolWithOutboundA).
  { exact (perform_wellKeyed (CallAddOutboundPeer "1.1.1.1:5000" peerA None)
             emptyPool (new_PeerPool_wellKeyed (sampleConfig 2 2))). }
  split; [exact Hwf|].
  destruct (removeAllPeers_empties_the_pool poolWithOutboundA Hwf)
    as (H1 & H2 & H3 & _).
  repeat split; assumption.
Defined.

(* ================================================================== *)
(** * Adding peers *)
(* ================================================================== *)

Lemma map_delete_set_absent {V : Type} (key : string) (v : V) (m : JsMap V) :
  map_get key m = None -> map_delete key (map_set key v m) = m.
Proof.
  intros H. rewrite (map_set_absent key v m H). unfold map_delete.
  rewrite filter_app. simpl. rewrite String.eqb_refl. simpl. rewrite app_nil_r.
  apply (map_delete_absent key m H).
Qed.

(** X8: adding a peer under an id the map does not have and removing that
    id again leaves the map as it was, for an outbound peer added under its
    own id and for an inbound peer added below the limit of inbound
    peers. *)
Theorem add_then_remove_restores_the_map :
  forall (pool : PeerPool) (info : P2PDiscoveredPeerInfo),
    hasPeer (constructPeerIdFromPeerInfo info) pool = false ->
    (forall socket,
       _peerMap (snd (removePeer (constructPeerIdFromPeerInfo info)
                        (snd (addOutboundPeer (constructPeerIdFromPeerInfo info)
                                info socket pool))))
       = _peerMap pool) /\
    (forall random socket,
       (Z.of_nat (inboundCount pool) < _maxInboundConnections pool)%Z ->
       _peerMap (snd (removePeer (constructPeerIdFromPeerInfo info)
                        (snd (addInboundPeer random info socket pool))))
       = _peerMap pool).
Proof.
  intros pool info Habsent.
  assert (Hget : map_get (constructPeerIdFromPeerInfo info) (_peerMap pool) = None)
    by now apply hasPeer_false_get.
  split.
  - intros socket. rewrite removePeer_peerMap.
    destruct (addOutboundPeer_new (constructPeerIdFromPeerInfo info) info socket pool Hget)
      as (_ & Hmap & _).
    rewrite Hmap. now apply map_delete_set_absent.
  - intros random socket Hbelow. rewrite removePeer_peerMap.
    assert (Hge : (Z.of_nat (inboundCount pool) >=? _maxInboundConnections pool)%Z = false).
    { rewrite Z.geb_leb. apply Z.leb_gt. exact Hbelow. }
    rewrite addInboundPeer_parts. unfold bind.
    rewrite (eviction_below_limit random pool Hge).
    destruct (insertion_of_absent (inboundPeerConfig pool) info socket pool Habsent)
      as (_ & Hmap & _).
    destruct (addInboundPeer_insertion (inboundPeerConfig pool) info socket pool)
      as [c pool']. cbn [fst snd] in *.
    rewrite Hmap. now apply map_delete_set_absent.
Qed.

Lemma add_then_remove_restores_the_map_witness :
  hasPeer (constructPeerIdFromPeerInfo peerB) poolWithInboundA = false /\
  _peerMap (snd (removePeer (constructPeerIdFromPeerInfo peerB)
                   (snd (addOutboundPeer (constructPeerIdFromPeerInfo peerB)
                           peerB None poolWithInboundA))))
  = _peerMap poolWithInboundA.
Proof.
  assert (H : hasPeer (constructPeerIdFromPeerInfo peerB) poolWithInboundA = false)
    by (vm_compute; reflexivity).
  split; [exact H|].
  exact (proj1 (add_then_remove_restores_the_map poolWithInboundA peerB H) None).
Defined.

(** X9: [addOutboundPeer] never throws and never drops an id from the map.
    In a pool that holds each peer under its id, the peer it returns is the
    peer the map then holds under the id of that peer, with the peer info
    of the call; and when neither the id of the call nor the id of the peer
    info is in the map, the returned peer is a new outbound peer with the
    twelve listeners of the pool, added at the end of the map. *)
Theorem addOutboundPeer_returns_the_stored_peer :
  forall (pool : PeerPool) (peerId : string) (info : P2PDiscoveredPeerInfo)
         (socket : option Socket),
    wellKeyedPool pool ->
    let result := addOutboundPeer peerId info socket pool in
    exists peer,
      fst result = Return peer /\
      getPeer (id peer) (snd result) = Some peer /\
      peerInfo peer = info /\
      (forall key, hasPeer key pool = true -> hasPeer key (snd result) = true) /\
      (hasPeer peerId pool = false ->
       hasPeer (constructPeerIdFromPeerInfo info) pool = false ->
       kind peer = OutboundPeer /\
       id peer = constructPeerIdFromPeerInfo info /\
       listeners peer = poolListeners /\
       _peerMap (snd result) = _peerMap pool ++ [(id peer, peer)]).
Proof.
  intros pool peerId info socket Hwf result. subst result.
  destruct (getPeer peerId pool) as [existing|] eqn:G.
  - exists (Peer_updatePeerInfo existing info).
    rewrite (addOutboundPeer_existing peerId existing info socket pool G).
    cbn [fst snd]. split; [reflexivity|].
    assert (Hid : id (Peer_updatePeerInfo existing info) = peerId).
    { simpl. now apply WellKeyed_get with (m := _peerMap pool). }
    rewrite Hid. unfold getPeer, hasPeer. cbn [_peerMap with_peerMap].
    split; [apply map_get_set_eq|]. split; [reflexivity|]. split.
    + intros key Hkey. now apply map_has_set_mono.
    + intros Habs. unfold hasPeer, map_has in Habs. unfold getPeer in G.
      rewrite G in Habs. discriminate.
  - destruct (addOutboundPeer_new peerId info socket pool G) as (Hret & Hmap & _).
    exists (_bindHandlersToPeer
              (new_OutboundPeer info socket (outboundPeerConfig pool))).
    split; [exact Hret|]. unfold getPeer, hasPeer. rewrite Hmap.
    split; [apply map_get_set_eq|]. split; [reflexivity|]. split.
    + intros key Hkey. now apply map_has_set_mono.
    + intros _ Habs. apply hasPeer_false_get in Habs.
      split; [reflexivity|]. split; [reflexivity|].
      split; [apply _bindHandlersToPeer_listeners|].
      now apply map_set_absent.
Qed.

Lemma addOutboundPeer_returns_the_stored_peer_witness :
  wellKeyedPool poolWithInboundA /\
  exists peer,
    fst (addOutboundPeer "2.2.2.2:5000" peerB None poolWithInboundA) = Return peer /\
    getPeer (id peer) (snd (addOutboundPeer "2.2.2.2:5000" peerB None poolWithInboundA))
    = Some peer /\
    peerInfo peer = peerB.
Proof.
  assert (Hwf : wellKeyedPool poolWithInboundA).
  { exact (perform_wellKeyed (CallAddInboundPeer [] peerA (mkSocket "inbound-1"))
             emptyPool (new_PeerPool_wellKeyed (sampleConfig 2 2))). }
  split; [exact Hwf|].
  destruct (addOutboundPeer_returns_the_stored_peer poolWithInboundA "2.2.2.2:5000"
              peerB None Hwf) as (peer & H1 & H2 & H3 & _).
  exists peer. repeat split; assumption.
Defined.

(** X10: [addInboundPeer] of a peer info whose id is in the map throws the
    error of a peer added twice.  Below the limit of inbound peers the pool
    is then as it was; at the limit, in a pool that holds each peer under
    its id, an inbound peer other than that one has first been evicted when
    the shuffle puts it first, so the failed call leaves the pool with one
    inbound peer less. *)
Theorem addInboundPeer_of_present_id :
  forall (pool : PeerPool) (random : list nat) (info : P2PDiscoveredPeerInfo)
         (socket : Socket),
    hasPeer (constructPeerIdFromPeerInfo info) pool = true ->
    ((Z.of_nat (inboundCount pool) < _maxInboundConnections pool)%Z ->
     addInboundPeer random info socket pool
     = (Throw (Error ("Peer " ++ constructPeerIdFromPeerInfo info
                      ++ " was already in the peer pool")), pool)) /\
    (forall victim rest,
       wellKeyedPool pool ->
       (_maxInboundConnections pool <= Z.of_nat (inboundCount pool))%Z ->
       shuffle random (getPeers (Some InboundPeer) pool) = victim :: rest ->
       id victim <> constructPeerIdFromPeerInfo info ->
       fst (addInboundPeer random info socket pool)
       = Throw (Error ("Peer " ++ constructPeerIdFromPeerInfo info
                       ++ " was already in the peer pool")) /\
       hasPeer (id victim) (snd (addInboundPeer random info socket pool)) = false /\
       S (inboundCount (snd (addInboundPeer random info socket pool)))
       = inboundCount pool).
Proof.
  intros pool random info socket Hhas. split.
  - intros Hbelow.
    assert (Hge : (Z.of_nat (inboundCount pool) >=? _maxInboundConnections pool)%Z = false).
    { rewrite Z.geb_leb. apply Z.leb_gt. exact Hbelow. }
    rewrite addInboundPeer_parts. unfold bind.
    rewrite (eviction_below_limit random pool Hge).
    now rewrite (insertion_of_present _ info socket pool Hhas).
  - intros victim rest Hwf Hat Hshuffle Hne.
    assert (Hge : (Z.of_nat (inboundCount pool) >=? _maxInboundConnections pool)%Z = true).
    { apply Z.geb_le. exact Hat. }
    pose proof (shuffle_head _ _ _ _ Hshuffle) as Hin.
    assert (Hin' := Hin). unfold getPeers in Hin'. apply filter_In in Hin'.
    destruct Hin' as [Hval Hkind].
    pose proof (WellKeyed_In victim (_peerMap pool) Hwf Hval) as Hget.
    assert (Hevict : addInboundPeer_eviction random pool
                     = (Return tt, snd (removePeer (id victim) pool))).
    { unfold addInboundPeer_eviction, bind, this.
      rewrite getPeers_length. fold (inboundCount pool). rewrite Hge, Hshuffle.
      now rewrite (removePeer_present _ _ _ Hget). }
    pose proof (removePeer_peerMap (id victim) pool) as Hmap1.
    assert (Hhas1 : hasPeer (constructPeerIdFromPeerInfo info)
                      (snd (removePeer (id victim) pool)) = true).
    { unfold hasPeer, map_has in *. rewrite Hmap1.
      now rewrite map_get_delete_ne by exact Hne. }
    rewrite addInboundPeer_parts. unfold bind. rewrite Hevict.
    rewrite (insertion_of_present _ info socket _ Hhas1). cbn [fst snd].
    split; [reflexivity|]. unfold hasPeer, inboundCount. rewrite Hmap1.
    split; [apply map_has_delete_eq|].
    pose proof (countKind_delete_present InboundPeer (id victim) victim
                  (_peerMap pool) (proj1 Hwf) Hget) as Hdel.
    change (ofKind InboundPeer victim) with (PeerKind_eqb (kind victim) InboundPeer) in Hdel.
    rewrite Hkind in Hdel. simpl in Hdel. lia.
Qed.

Lemma addInboundPeer_of_present_id_witness :
  (hasPeer (constructPeerIdFromPeerInfo peerA) poolWithInboundA = true /\
   (Z.of_nat (inboundCount poolWithInboundA) < _maxInboundConnections poolWithInboundA)%Z /\
   addInboundPeer [] peerA (mkSocket "inbound-9") poolWithInboundA
   = (Throw (Error ("Peer " ++ constructPeerIdFromPeerInfo peerA
                    ++ " was already in the peer pool")), poolWithInboundA)) /\
  (hasPeer (constructPeerIdFromPeerInfo peerB) fullPoolWithOutboundB = true /\
   wellKeyedPool fullPoolWithOutboundB /\
   (_maxInboundConnections fullPoolWithOutboundB
    <= Z.of_nat (inboundCount fullPoolWithOutboundB))%Z /\
   shuffle [] (getPeers (Some InboundPeer) fullPoolWithOutboundB) = inboundA :: [] /\
   id inboundA <> constructPeerIdFromPeerInfo peerB /\
   fst (addInboundPeer [] peerB (mkSocket "inbound-9") fullPoolWithOutboundB)
   = Throw (Error ("Peer " ++ constructPeerIdFromPeerInfo peerB
                   ++ " was already in the peer pool")) /\
   hasPeer (id inboundA)
     (snd (addInboundPeer [] peerB (mkSocket "inbound-9") fullPoolWithOutboundB)) = false).
Proof.
  assert (Hhas : hasPeer (constructPeerIdFromPeerInfo peerA) poolWithInboundA = true)
    by (vm_compute; reflexivity).
  assert (Hbelow : (Z.of_nat (inboundCount poolWithInboundA)
                    < _maxInboundConnections poolWithInboundA)%Z)
    by (vm_compute; reflexivity).
  assert (HhasB : hasPeer (constructPeerIdFromPeerInfo peerB) fullPoolWithOutboundB = true)
    by (vm_compute; reflexivity).
  assert (Hwf : wellKeyedPool fullPoolWithOutboundB).
  { exact (perform_wellKeyed (CallAddOutboundPeer "2.2.2.2:5000" peerB None) fullPool
             (perform_wellKeyed (CallAddInboundPeer [] peerA (mkSocket "inbound-1"))
                (new_PeerPool (sampleConfig 2 1))
                (new_PeerPool_wellKeyed (sampleConfig 2 1)))). }
  assert (Hat : (_maxInboundConnections fullPoolWithOutboundB
                 <= Z.of_nat (inboundCount fullPoolWithOutboundB))%Z)
    by (vm_compute; discriminate).
  assert (Hshuffle : shuffle [] (getPeers (Some InboundPeer) fullPoolWithOutboundB)
                     = inboundA :: []) by (vm_compute; reflexivity).
  assert (Hne : id inboundA <> constructPeerIdFromPeerInfo peerB)
    by (vm_compute; discriminate).
  split.
  - split; [exact Hhas|]. split; [exact Hbelow|].
    exact (proj1 (addInboundPeer_of_present_id poolWithInboundA []
                    peerA (mkSocket "inbound-9") Hhas) Hbelow).
  - split; [exact HhasB|]. split; [exact Hwf|]. split; [exact Hat|].
    split; [exact Hshuffle|]. split; [exact Hne|].
    destruct (proj2 (addInboundPeer_of_present_id fullPoolWithOutboundB []
                       peerB (mkSocket "inbound-9") HhasB)
                inboundA [] Hwf Hat Hshuffle Hne) as (H1 & H2 & _).
    split; assumption.
Defined.

Lemma insertion_of_absent_pool peerConfig info socket pool :
  hasPeer (constructPeerIdFromPeerInfo info) pool = false ->
  let peer := _bindHandlersToPeer (new_InboundPeer info socket peerConfig) in
  addInboundPeer_insertion peerConfig info socket pool
  = (Return peer,
     mkPeerPool
       (map_set (constructPeerIdFromPeerInfo info) peer (_peerMap pool))
       (_peerPoolConfig pool) (_nodeInfo pool) (_outboundShuffleIntervalId pool)
       (emitted pool) (released pool) (timeouts pool)
       (tasks pool ++ match _nodeInfo pool with
                      | Some nodeInfo =>
                          [PushNodeInfo (constructPeerIdFromPeerInfo info) nodeInfo]
                      | None => []
                      end)).
Proof.
  intros H peer. unfold addInboundPeer_insertion, bind, this. cbv zeta.
  change (id (new_InboundPeer info socket peerConfig))
    with (constructPeerIdFromPeerInfo info).
  change (id (_bindHandlersToPeer (new_InboundPeer info socket peerConfig)))
    with (constructPeerIdFromPeerInfo info).
  unfold hasPeer in H. rewrite H.
  assert (Hget : map_get (constructPeerIdFromPeerInfo info) (_peerMap pool) = None).
  { unfold map_has in H. now destruct (map_get _ (_peerMap pool)). }
  unfold Map_set, update. rewrite Hget.
  destruct pool as [m cfg ni armed em rel tos tks]. cbn [_nodeInfo].
  destruct ni as [nodeInfo|]; unfold _applyNodeInfoOnPeer, update, ret;
    unfold with_tasks, with_released, with_peerMap; simpl; f_equal.
  now rewrite app_nil_r.
Qed.

(** X11: below the limit of inbound peers, [addInboundPeer] of a peer info
    whose id is not in the map evicts nobody: it returns a new connected
    inbound peer with the twelve listeners of the pool, added at the end of
    the map under the id of the peer info; it emits nothing, and it starts
    a push of the node info exactly when the pool has one. *)
Theorem addInboundPeer_below_the_limit :
  forall (pool : PeerPool) (random : list nat) (info : P2PDiscoveredPeerInfo)
         (socket : Socket),
    (Z.of_nat (inboundCount pool) < _maxInboundConnections pool)%Z ->
    hasPeer (constructPeerIdFromPeerInfo info) pool = false ->
    let result := addInboundPeer random info socket pool in
    exists peer,
      fst result = Return peer /\
      kind peer = InboundPeer /\
      id peer = constructPeerIdFromPeerInfo info /\
      peerInfo peer = info /\
      state peer = Connected /\
      listeners peer = poolListeners /\
      _peerMap (snd result) = _peerMap pool ++ [(id peer, peer)] /\
      released (snd result) = released pool /\
      emitted (snd result) = emitted pool /\
      tasks (snd result)
      = tasks pool ++ match _nodeInfo pool with
                      | Some nodeInfo => [PushNodeInfo (id peer) nodeInfo]
                      | None => []
                      end.
Proof.
  intros pool random info socket Hbelow Habsent result.
  assert (Hge : (Z.of_nat (inboundCount pool) >=? _maxInboundConnections pool)%Z = false).
  { rewrite Z.geb_leb. apply Z.leb_gt. exact Hbelow. }
  assert (Hrun : result
                 = addInboundPeer_insertion (inboundPeerConfig pool) info socket pool).
  { subst result. rewrite addInboundPeer_parts. unfold bind.
    now rewrite (eviction_below_limit random pool Hge). }
  rewrite Hrun, (insertion_of_absent_pool _ info socket pool Habsent).
  exists (_bindHandlersToPeer (new_InboundPeer info socket (inboundPeerConfig pool))).
  cbn [fst snd _peerMap released emitted tasks].
  apply hasPeer_false_get in Habsent.
  repeat split. now apply map_set_absent.
Qed.

Lemma addInboundPeer_below_the_limit_witness :
  (Z.of_nat (inboundCount poolWithInboundA) < _maxInboundConnections poolWithInboundA)%Z /\
  hasPeer (constructPeerIdFromPeerInfo peerB) poolWithInboundA = false /\
  exists peer,
    fst (addInboundPeer [] peerB (mkSocket "inbound-2") poolWithInboundA) = Return peer /\
    _peerMap (snd (addInboundPeer [] peerB (mkSocket "inbound-2") poolWithInboundA))
    = _peerMap poolWithInboundA ++ [(id peer, peer)].
Proof.
  assert (Hbelow : (Z.of_nat (inboundCount poolWithInboundA)
                    < _maxInboundConnections poolWithInboundA)%Z)
    by (vm_compute; reflexivity).
  assert (Habsent : hasPeer (constructPeerIdFromPeerInfo peerB) poolWithInboundA = false)
    by (vm_compute; reflexivity).
  split; [exact Hbelow|]. split; [exact Habsent|].
  destruct (addInboundPeer_below_the_limit poolWithInboundA [] peerB
              (mkSocket "inbound-2") Hbelow Habsent)
    as (peer & H1 & _ & _ & _ & _ & _ & H7 & _).
  exists peer. split; assumption.
Defined.

(* ================================================================== *)
(** * New connections *)
(* ================================================================== *)

Lemma onlyAdded_refl pool : onlyAdded pool pool.
Proof. repeat split; auto. Qed.

Lemma onlyAdded_trans pool0 pool1 pool2 :
  onlyAdded pool0 pool1 -> onlyAdded pool1 pool2 -> onlyAdded pool0 pool2.
Proof.
  intros (K1 & R1 & E1 & I1 & O1 & C1) (K2 & R2 & E2 & I2 & O2 & C2).
  repeat split; try congruence; auto. lia.
Qed.

Lemma onlyAdded_mutate pool key peer peer' :
  map_get key (_peerMap pool) = Some peer -> kind peer' = kind peer ->
  onlyAdded pool (with_peerMap pool (map_set key peer' (_peerMap pool))).
Proof.
  intros Hget Hkind.
  pose proof (shape_set_same_kind key peer peer' (_peerMap pool) Hget Hkind) as Hs.
  unfold onlyAdded, hasPeer, inboundCount, outboundCount. simpl.
  rewrite (countKind_shape InboundPeer _ _ Hs), (countKind_shape OutboundPeer _ _ Hs).
  repeat split; auto. intros k Hk. now apply map_has_set_mono.
Qed.

(** [addOutboundPeer] under the id of the peer info. *)
Lemma addOutboundPeer_own_id info socket pool :
  exists peer,
    fst (addOutboundPeer (constructPeerIdFromPeerInfo info) info socket pool)
    = Return peer /\
    peerInfo peer = info /\
    getPeer (constructPeerIdFromPeerInfo info)
      (snd (addOutboundPeer (constructPeerIdFromPeerInfo info) info socket pool))
    = Some peer /\
    onlyAdded pool
      (snd (addOutboundPeer (constructPeerIdFromPeerInfo info) info socket pool)).
Proof.
  destruct (getPeer (constructPeerIdFromPeerInfo info) pool) as [existing|] eqn:G.
  - exists (Peer_updatePeerInfo existing info).
    rewrite (addOutboundPeer_existing _ existing info socket pool G). cbn [fst snd].
    split; [reflexivity|]. split; [reflexivity|]. split.
    + unfold getPeer. simpl. apply map_get_set_eq.
    + now apply onlyAdded_mutate with (peer := existing).
  - exists (_bindHandlersToPeer (new_OutboundPeer info socket (outboundPeerConfig pool))).
    assert (Hrun : addOutboundPeer (constructPeerIdFromPeerInfo info) info socket pool
                   = (Return (_bindHandlersToPeer
                                (new_OutboundPeer info socket (outboundPeerConfig pool))),
                      mkPeerPool
                        (map_set (constructPeerIdFromPeerInfo info)
                           (_bindHandlersToPeer
                              (new_OutboundPeer info socket (outboundPeerConfig pool)))
                           (_peerMap pool))
                        (_peerPoolConfig pool) (_nodeInfo pool)
                        (_outboundShuffleIntervalId pool) (emitted pool) (released pool)
                        (timeouts pool)
                        (tasks pool ++
                         match _nodeInfo pool with
                         | Some nodeInfo =>
                             [PushNodeInfo (constructPeerIdFromPeerInfo info) nodeInfo]
                         | None => []
                         end))).
    { unfold addOutboundPeer, bind, this. rewrite G.
      change (id (_bindHandlersToPeer
                    (new_OutboundPeer info socket
                       (mkPeerConfig (connectTimeout (_peerPoolConfig pool))
                          (ackTimeout (_peerPoolConfig pool))
                          (peerBanTime (_peerPoolConfig pool))))))
        with (constructPeerIdFromPeerInfo info).
      unfold Map_set, update. unfold getPeer in G. rewrite G.
      destruct pool as [m cfg ni armed em rel tos tks]. cbn [_nodeInfo].
      destruct ni as [nodeInfo|]; unfold _applyNodeInfoOnPeer, update, ret;
        unfold with_tasks, with_released, with_peerMap, outboundPeerConfig;
        simpl; f_equal.
      now rewrite app_nil_r. }
    rewrite Hrun. cbn [fst snd]. split; [reflexivity|]. split; [reflexivity|].
    unfold getPeer in *. split.
    + simpl. apply map_get_set_eq.
    + unfold onlyAdded, hasPeer, inboundCount, outboundCount. simpl.
      rewrite !countKind_set_absent by exact G.
      repeat split; auto; try (simpl; lia).
      intros k Hk. now apply map_has_set_mono.
Qed.

Lemma forEach_addOutboundPeer_own_id (selected : list P2PDiscoveredPeerInfo) :
  forall pool result,
    result
    = forEach
        (fun info =>
           bind (addOutboundPeer (constructPeerIdFromPeerInfo info) info None)
             (fun _ => ret tt))
        selected pool ->
    fst result = Return tt /\
    (forall info, In info selected ->
       hasPeer (constructPeerIdFromPeerInfo info) (snd result) = true) /\
    onlyAdded pool (snd result).
Proof.
  induction selected as [|info rest IH]; intros pool result Hres.
  - simpl in Hres. subst result. simpl. split; auto. split; [intros ? []|].
    apply onlyAdded_refl.
  - cbn [forEach] in Hres. unfold bind at 1 in Hres. unfold bind at 1 in Hres.
    destruct (addOutboundPeer_own_id info None pool) as (peer & Hret & _ & Hget & Hadd).
    destruct (addOutboundPeer (constructPeerIdFromPeerInfo info) info None pool)
      as [c pool1]. cbn [fst snd] in *. subst c. cbn [ret] in Hres.
    destruct (IH pool1 result Hres) as (Hr & Hall & Hadd').
    split; [exact Hr|]. split.
    + intros info' [<-|Hin]; [|now apply Hall].
      apply (proj1 Hadd'). unfold hasPeer, map_has. unfold getPeer in Hget.
      now rewrite Hget.
    + now apply onlyAdded_trans with (pool1 := pool1).
Qed.

(** X12: [triggerNewConnections] never throws.  The selector is given only
    candidates whose ids are not in the map; afterwards every peer the
    selector returned is in the map, no id has left the map, no peer was
    disconnected, nothing was emitted and the inbound peers are as many as
    before. *)
Theorem triggerNewConnections_connects_the_selection :
  forall (pool : PeerPool) (peers : list P2PDiscoveredPeerInfo),
    let result := triggerNewConnections peers pool in
    fst result = Return tt /\
    (forall candidate, In candidate (connectionCandidates pool peers) ->
       In candidate peers /\
       hasPeer (constructPeerIdFromPeerInfo candidate) pool = false) /\
    (forall info, In info (connectionSelection pool peers) ->
       hasPeer (constructPeerIdFromPeerInfo info) (snd result) = true) /\
    onlyAdded pool (snd result).
Proof.
  intros pool peers result.
  destruct (forEach_addOutboundPeer_own_id (connectionSelection pool peers)
              pool result eq_refl) as (Hret & Hall & Hadd).
  split; [exact Hret|]. split; [|split; assumption].
  intros candidate Hin. unfold connectionCandidates in Hin.
  apply filter_In in Hin. destruct Hin as [Hin Hneg]. split; auto.
  unfold hasPeer. now apply negb_true_iff.
Qed.

(* ================================================================== *)
(** * Seeds *)
(* ================================================================== *)

Lemma fetchStatusAndCreatePeers_parts connect seedPeers nodeInfo peerConfig pool :
  fetchStatusAndCreatePeers connect seedPeers nodeInfo peerConfig pool
  = bind (mapM (fetchStatusAndCreatePeers_seed connect nodeInfo peerConfig) seedPeers)
      (fun listOfPeerInfos => ret (defined listOfPeerInfos)) pool.
Proof. reflexivity. Qed.

Lemma fetchStatusAndCreatePeers_seed_connected
    connect nodeInfo peerConfig seedPeer info socket pool :
  connect seedPeer nodeInfo peerConfig = inr (info, socket) ->
  fetchStatusAndCreatePeers_seed connect nodeInfo peerConfig seedPeer pool
  = (Return (Some info),
     snd (addOutboundPeer (constructPeerIdFromPeerInfo info) info (Some socket) pool)).
Proof.
  intros H. unfold fetchStatusAndCreatePeers_seed, tryCatch. rewrite H. cbv zeta.
  unfold bind.
  destruct (addOutboundPeer_own_id info (Some socket) pool) as (peer & Hret & _).
  destruct (addOutboundPeer (constructPeerIdFromPeerInfo info) info (Some socket) pool)
    as [c pool1]. cbn [fst snd] in *. now subst c.
Qed.

Lemma fetchStatusAndCreatePeers_seed_failed
    connect nodeInfo peerConfig seedPeer error pool :
  connect seedPeer nodeInfo peerConfig = inl error ->
  fetchStatusAndCreatePeers_seed connect nodeInfo peerConfig seedPeer pool
  = (Return None,
     with_emitted pool
       (emitted pool ++
        [mkEmission EVENT_FAILED_TO_FETCH_PEER_INFO (ArgError error) (_peerMap pool)])).
Proof.
  intros H. unfold fetchStatusAndCreatePeers_seed, tryCatch. now rewrite H.
Qed.

Lemma mapM_fetchStatusAndCreatePeers_seed connect nodeInfo peerConfig seedPeers :
  forall pool result,
    result = mapM (fetchStatusAndCreatePeers_seed connect nodeInfo peerConfig)
               seedPeers pool ->
    fst result
    = Return (map (fun seedPeer =>
                     match connect seedPeer nodeInfo peerConfig with
                     | inr (seedPeerInfo, _) => Some seedPeerInfo
                     | inl _ => None
                     end) seedPeers) /\
    emittedEvents (snd result)
    = emittedEvents pool ++
      map (fun error => (EVENT_FAILED_TO_FETCH_PEER_INFO, ArgError error))
        (failedSeeds connect nodeInfo peerConfig seedPeers) /\
    (forall key, hasPeer key pool = true -> hasPeer key (snd result) = true) /\
    (forall info, In info (connectedSeeds connect nodeInfo peerConfig seedPeers) ->
       hasPeer (constructPeerIdFromPeerInfo info) (snd result) = true) /\
    released (snd result) = released pool /\
    inboundCount (snd result) = inboundCount pool.
Proof.
  induction seedPeers as [|seedPeer rest IH]; intros pool result Hres.
  - simpl in Hres. subst result. unfold failedSeeds, connectedSeeds. simpl.
    rewrite app_nil_r. repeat split; auto.
  - cbn [mapM] in Hres. unfold bind at 1 in Hres.
    unfold failedSeeds, connectedSeeds in *. cbn [map].
    destruct (connect seedPeer nodeInfo peerConfig) as [error|[info socket]] eqn:Hc.
    + rewrite (fetchStatusAndCreatePeers_seed_failed _ _ _ _ error pool Hc) in Hres.
      unfold bind at 1 in Hres.
      match type of Hres with
      | context [mapM _ rest ?p] =>
          destruct (IH p (mapM (fetchStatusAndCreatePeers_seed connect nodeInfo peerConfig)
                            rest p) eq_refl) as (Hr & He & Hk & Hc' & Hrel & Hin);
          destruct (mapM (fetchStatusAndCreatePeers_seed connect nodeInfo peerConfig)
                      rest p) as [c pool2]
      end.
      cbn [fst snd] in *. subst c. unfold ret in Hres. subst result. cbn [fst snd defined].
      split; [reflexivity|]. split.
      * rewrite He. unfold emittedEvents. simpl. rewrite map_app. simpl.
        now rewrite <- app_assoc.
      * repeat split; auto.
    + rewrite (fetchStatusAndCreatePeers_seed_connected _ _ _ _ info socket pool Hc)
        in Hres.
      destruct (addOutboundPeer_own_id info (Some socket) pool)
        as (peer & _ & _ & Hget & (K1 & R1 & E1 & I1 & _)).
      unfold bind at 1 in Hres.
      match type of Hres with
      | context [mapM _ rest ?p] =>
          destruct (IH p (mapM (fetchStatusAndCreatePeers_seed connect nodeInfo peerConfig)
                            rest p) eq_refl) as (Hr & He & Hk & Hc' & Hrel & Hin);
          destruct (mapM (fetchStatusAndCreatePeers_seed connect nodeInfo peerConfig)
                      rest p) as [c pool2]
      end.
      cbn [fst snd] in *. subst c. unfold ret in Hres. subst result. cbn [fst snd defined].
      split; [reflexivity|]. split.
      * rewrite He. unfold emittedEvents. now rewrite E1.
      * split; [intros key Hkey; apply Hk, K1, Hkey|]. split.
        -- intros info' [<-|Hin']; [|now apply Hc'].
           apply Hk. unfold hasPeer, map_has. unfold getPeer in Hget.
           now rewrite Hget.
        -- split; congruence.
Qed.

(** X13: the run of [fetchStatusAndCreatePeers] in which nothing else
    happens during the dials never throws.  It returns the peer
    infos of the seeds that connected, in the order of the seeds, and each
    of them is then in the map; for each seed that failed it emits one
    [failedToFetchPeerInfo] with the error, in the order of the seeds, and
    nothing else; no id leaves the map, no peer is disconnected and the
    inbound peers are as many as before. *)
Theorem fetchStatusAndCreatePeers_returns_the_connected_seeds :
  forall connect (seedPeers : list P2PPeerInfo) (nodeInfo : P2PNodeInfo)
         (peerConfig : PeerConfig) (pool : PeerPool),
    let result := fetchStatusAndCreatePeers connect seedPeers nodeInfo peerConfig pool in
    fst result = Return (connectedSeeds connect nodeInfo peerConfig seedPeers) /\
    emittedEvents (snd result)
    = emittedEvents pool ++
      map (fun error => (EVENT_FAILED_TO_FETCH_PEER_INFO, ArgError error))
        (failedSeeds connect nodeInfo peerConfig seedPeers) /\
    (forall key, hasPeer key pool = true -> hasPeer key (snd result) = true) /\
    (forall info, In info (connectedSeeds connect nodeInfo peerConfig seedPeers) ->
       hasPeer (constructPeerIdFromPeerInfo info) (snd result) = true) /\
    released (snd result) = released pool /\
    inboundCount (snd result) = inboundCount pool.
Proof.
  intros connect seedPeers nodeInfo peerConfig pool result. subst result.
  rewrite fetchStatusAndCreatePeers_parts. unfold bind.
  destruct (mapM_fetchStatusAndCreatePeers_seed connect nodeInfo peerConfig seedPeers
              pool _ eq_refl) as (Hr & He & Hk & Hc & Hrel & Hin).
  destruct (mapM (fetchStatusAndCreatePeers_seed connect nodeInfo peerConfig)
              seedPeers pool) as [c pool1].
  cbn [fst snd] in *. subst c. unfold ret. cbn [fst snd].
  repeat split; auto.
Qed.

(* ================================================================== *)
(** * Discovery *)
(* ================================================================== *)

Lemma remove_nth_perm {A : Type} (d : A) (l : list A) :
  forall i, i < length l -> Permutation (nth i l d :: remove_nth i l) l.
Proof.
  induction l as [|x l IH]; intros i Hi; simpl in Hi; [lia|].
  destruct i as [|i]; simpl.
  - apply Permutation_refl.
  - apply Permutation_trans with (l' := x :: nth i l d :: remove_nth i l).
    + apply perm_swap.
    + apply perm_skip. apply IH. lia.
Qed.

Lemma shuffle_from_perm {A : Type} (fuel : nat) :
  forall (random : list nat) (l : list A),
    length l = fuel -> Permutation (shuffle_from fuel random l) l.
Proof.
  induction fuel as [|fuel IH]; intros random l Hlen.
  - destruct l; [apply Permutation_refl|discriminate].
  - destruct l as [|x l']; [discriminate|]. cbn [shuffle_from].
    set (i := Nat.modulo (hd 0 random) (length (x :: l'))).
    assert (Hi : i < length (x :: l')).
    { subst i. apply Nat.mod_upper_bound. discriminate. }
    pose proof (remove_nth_perm x (x :: l') i Hi) as Hperm.
    apply Permutation_trans with (l' := nth i (x :: l') x :: remove_nth i (x :: l')); auto.
    apply perm_skip. apply IH.
    apply Permutation_length in Hperm. simpl in Hperm, Hlen. lia.
Qed.

Lemma shuffle_perm {A : Type} (random : list nat) (l : list A) :
  Permutation (shuffle random l) l.
Proof. unfold shuffle. now apply shuffle_from_perm. Qed.

(** X14: [selectRandomPeerSample] returns [count] peers of the list, or all
    of them when the list has fewer: each peer of the sample is a peer of
    the list, a list without repetition gives a sample without repetition,
    and a list of at most [count] peers is returned whole, in some
    order. *)
Theorem selectRandomPeerSample_samples_the_list :
  forall (random : list nat) (peerList : list Peer) (count : nat),
    let sample := selectRandomPeerSample random peerList count in
    length sample = Nat.min count (length peerList) /\
    (forall peer, In peer sample -> In peer peerList) /\
    (NoDup peerList -> NoDup sample) /\
    (length peerList <= count -> Permutation sample peerList).
Proof.
  intros random peerList count sample. subst sample. unfold selectRandomPeerSample.
  pose proof (shuffle_perm random peerList) as Hperm.
  split; [|split; [|split]].
  - rewrite length_firstn. now rewrite (Permutation_length Hperm).
  - intros peer Hin. apply (Permutation_in _ Hperm).
    rewrite <- (firstn_skipn count (shuffle random peerList)).
    apply in_or_app. now left.
  - intros Hnd.
    assert (Hnd' : NoDup (shuffle random peerList)).
    { now apply (Permutation_NoDup (Permutation_sym Hperm)). }
    rewrite <- (firstn_skipn count (shuffle random peerList)) in Hnd'.
    now apply NoDup_app_remove_r in Hnd'.
  - intros Hlen. rewrite firstn_all2; auto.
    now rewrite (Permutation_length Hperm).
Qed.

Lemma mapM_runDiscovery_known (knownPeers : list P2PDiscoveredPeerInfo) :
  forall pool result,
    result = mapM runDiscovery_known knownPeers pool ->
    exists peers,
      fst result = Return peers /\
      map peerInfo peers = knownPeers /\
      (forall info, In info knownPeers ->
         hasPeer (constructPeerIdFromPeerInfo info) (snd result) = true) /\
      onlyAdded pool (snd result).
Proof.
  induction knownPeers as [|info rest IH]; intros pool result Hres.
  - simpl in Hres. subst result. exists []. simpl.
    repeat split; auto.
  - cbn [mapM] in Hres. unfold bind at 1 in Hres. unfold runDiscovery_known at 1 in Hres.
    cbv zeta in Hres.
    destruct (addOutboundPeer_own_id info None pool) as (peer & Hret & Hinfo & Hget & Hadd).
    destruct (addOutboundPeer (constructPeerIdFromPeerInfo info) info None pool)
      as [c pool1]. cbn [fst snd] in *. subst c.
    unfold bind at 1 in Hres.
    destruct (IH pool1 (mapM runDiscovery_known rest pool1) eq_refl)
      as (peers & Hr & Hmap & Hall & Hadd').
    destruct (mapM runDiscovery_known rest pool1) as [c pool2].
    cbn [fst snd] in *. subst c. unfold ret in Hres. subst result. cbn [fst snd].
    exists (peer :: peers). split; [reflexivity|]. split; [simpl; congruence|]. split.
    + intros info' [<-|Hin]; [|now apply Hall].
      apply (proj1 Hadd'). unfold hasPeer, map_has. unfold getPeer in Hget.
      now rewrite Hget.
    + now apply onlyAdded_trans with (pool1 := pool1).
Qed.

Lemma runDiscovery_discovered_step info pool :
  fst (runDiscovery_discovered info pool) = Return tt /\
  onlyAdded pool (snd (runDiscovery_discovered info pool)) /\
  (forall key, key <> constructPeerIdFromPeerInfo info ->
     getPeer key (snd (runDiscovery_discovered info pool)) = getPeer key pool) /\
  (forall peer, getPeer (constructPeerIdFromPeerInfo info)
                  (snd (runDiscovery_discovered info pool)) = Some peer ->
     peerInfo peer = info) /\
  (forall key, hasPeer key (snd (runDiscovery_discovered info pool)) = hasPeer key pool).
Proof.
  unfold runDiscovery_discovered, bind, this. cbv zeta.
  destruct (getPeer (constructPeerIdFromPeerInfo info) pool) as [existing|] eqn:G.
  - unfold mutatePeer, update. cbn [fst snd]. split; [reflexivity|]. split.
    + now apply onlyAdded_mutate with (peer := existing).
    + unfold getPeer, hasPeer. cbn [_peerMap with_peerMap]. repeat split.
      * intros key Hne. apply map_get_set_ne. congruence.
      * intros peer. rewrite map_get_set_eq. now intros [= <-].
      * intros key. apply map_has_shape.
        now apply shape_set_same_kind with (p := existing).
  - unfold ret. cbn [fst snd]. split; [reflexivity|]. split; [apply onlyAdded_refl|].
    repeat split; auto. intros peer Hget. unfold getPeer in *. congruence.
Qed.

Lemma forEach_runDiscovery_discovered (discoveredPeers : list P2PDiscoveredPeerInfo) :
  forall pool result,
    result = forEach runDiscovery_discovered discoveredPeers pool ->
    fst result = Return tt /\
    onlyAdded pool (snd result) /\
    (forall key, hasPeer key (snd result) = hasPeer key pool) /\
    (forall key, ~ In key (map constructPeerIdFromPeerInfo discoveredPeers) ->
       getPeer key (snd result) = getPeer key pool) /\
    (NoDup (map constructPeerIdFromPeerInfo discoveredPeers) ->
     forall info peer,
       In info discoveredPeers ->
       getPeer (constructPeerIdFromPeerInfo info) (snd result) = Some peer ->
       peerInfo peer = info).
Proof.
  induction discoveredPeers as [|info rest IH]; intros pool result Hres.
  - simpl in Hres. subst result. simpl. split; auto. split; [apply onlyAdded_refl|].
    repeat split; auto. intros _ ? ? [].
  - cbn [forEach] in Hres. unfold bind at 1 in Hres.
    destruct (runDiscovery_discovered_step info pool) as (Hret & Hadd & Hother & Hhere & Hhas).
    destruct (runDiscovery_discovered info pool) as [c pool1].
    cbn [fst snd] in *. subst c.
    destruct (IH pool1 result Hres) as (Hr & Hadd' & Hhas' & Hother' & Hupd).
    split; [exact Hr|]. split; [now apply onlyAdded_trans with (pool1 := pool1)|].
    split; [intros key; now rewrite Hhas', Hhas|]. split.
    + intros key Hnot. cbn [map In] in Hnot.
      rewrite Hother' by (intros Hin; apply Hnot; now right).
      apply Hother. intros Heq. apply Hnot. now left.
    + intros Hnd info' peer Hin Hget. cbn [map] in Hnd.
      inversion Hnd as [|? ? Hnotin Hnd']; subst.
      destruct Hin as [<-|Hin].
      * rewrite (Hother' _ Hnotin) in Hget. now apply Hhere.
      * now apply (Hupd Hnd' info' peer Hin).
Qed.

Lemma runDiscovery_parts random discover knownPeers blacklist pool :
  runDiscovery random discover knownPeers blacklist pool
  = bind (mapM runDiscovery_known knownPeers)
      (fun peersForDiscovery =>
         let discoveredPeers :=
           discover
             (selectRandomPeerSample random peersForDiscovery
                MAX_PEER_DISCOVERY_PROBE_SAMPLE_SIZE)
             (map ipAddress blacklist) in
         bind (forEach runDiscovery_discovered discoveredPeers)
           (fun _ => ret discoveredPeers)) pool.
Proof. reflexivity. Qed.

(** X15: the run of [runDiscovery] in which nothing else happens during
    the probe never throws.  It adds the known peers that are not
    in the map as outbound peers, so that every known peer is in the map
    afterwards; it probes a sample of at most a hundred of the peers it got
    for the known peers and returns what the probe answers, for the
    addresses of the blacklist; no id leaves the map, no peer is
    disconnected, nothing is emitted and the inbound peers are as many as
    before; and when the discovered peers have different ids, each of them
    that is in the map has the discovered peer info afterwards. *)
Theorem runDiscovery_returns_what_the_probe_answers :
  forall (random : list nat)
         (discover : list Peer -> list string -> list P2PDiscoveredPeerInfo)
         (knownPeers : list P2PDiscoveredPeerInfo) (blacklist : list P2PPeerInfo)
         (pool : PeerPool),
    let result := runDiscovery random discover knownPeers blacklist pool in
    exists peersForDiscovery discoveredPeers,
      map peerInfo peersForDiscovery = knownPeers /\
      length (selectRandomPeerSample random peersForDiscovery
                MAX_PEER_DISCOVERY_PROBE_SAMPLE_SIZE) <= 100 /\
      discoveredPeers
      = discover
          (selectRandomPeerSample random peersForDiscovery
             MAX_PEER_DISCOVERY_PROBE_SAMPLE_SIZE)
          (map ipAddress blacklist) /\
      fst result = Return discoveredPeers /\
      (forall info, In info knownPeers ->
         hasPeer (constructPeerIdFromPeerInfo info) (snd result) = true) /\
      onlyAdded pool (snd result) /\
      (NoDup (map constructPeerIdFromPeerInfo discoveredPeers) ->
       forall info peer,
         In info discoveredPeers ->
         getPeer (constructPeerIdFromPeerInfo info) (snd result) = Some peer ->
         peerInfo peer = info).
Proof.
  intros random discover knownPeers blacklist pool result.
  assert (Hres : result = runDiscovery random discover knownPeers blacklist pool)
    by reflexivity.
  clearbody result. rewrite runDiscovery_parts in Hres. unfold bind at 1 in Hres.
  destruct (mapM_runDiscovery_known knownPeers pool _ eq_refl)
    as (peers & Hr & Hmap & Hall & Hadd).
  destruct (mapM runDiscovery_known knownPeers pool) as [c pool1].
  cbn [fst snd] in *. subst c. cbv zeta in Hres.
  set (discoveredPeers :=
         discover
           (selectRandomPeerSample random peers MAX_PEER_DISCOVERY_PROBE_SAMPLE_SIZE)
           (map ipAddress blacklist)) in *.
  unfold bind in Hres.
  destruct (forEach_runDiscovery_discovered discoveredPeers pool1 _ eq_refl)
    as (Hr' & Hadd' & Hhas & _ & Hupd).
  destruct (forEach runDiscovery_discovered discoveredPeers pool1) as [c pool2].
  cbn [fst snd] in *. subst c. unfold ret in Hres. subst result. cbn [fst snd].
  exists peers, discoveredPeers.
  split; [exact Hmap|]. split.
  { unfold selectRandomPeerSample. rewrite length_firstn.
    unfold MAX_PEER_DISCOVERY_PROBE_SAMPLE_SIZE. lia. }
  split; [reflexivity|]. split; [reflexivity|]. split.
  - intros info Hin. rewrite Hhas. now apply Hall.
  - split; [now apply onlyAdded_trans with (pool1 := pool1)|]. exact Hupd.
Qed.

(* ================================================================== *)
(** * Sending to the selected peers *)
(* ================================================================== *)

Lemma sentOnly_refl pool : sentOnly pool pool.
Proof.
  intros key. destruct (getPeer key pool); auto. split; auto. apply incl_refl.
Qed.

Lemma sentOnly_trans pool0 pool1 pool2 :
  sentOnly pool0 pool1 -> sentOnly pool1 pool2 -> sentOnly pool0 pool2.
Proof.
  intros H1 H2 key. specialize (H1 key). specialize (H2 key).
  destruct (getPeer key pool0), (getPeer key pool1), (getPeer key pool2);
    try contradiction; auto.
  destruct H1 as [S1 I1], H2 as [S2 I2]. split; [congruence|].
  now apply incl_tran with (m := outbox p0).
Qed.

Lemma sentOnly_reachable pool pool' info :
  sentOnly pool pool' -> reachable pool' info = reachable pool info.
Proof.
  intros H. unfold reachable. specialize (H (constructPeerIdFromPeerInfo info)).
  destruct (getPeer _ pool), (getPeer _ pool'); try contradiction; auto.
  destruct H as [-> _]. reflexivity.
Qed.

Lemma forallb_same {A : Type} (f g : A -> bool) (l : list A) :
  (forall a, f a = g a) -> forallb f l = forallb g l.
Proof.
  intros H. induction l as [|a l IH]; simpl; [reflexivity|].
  now rewrite H, IH.
Qed.

Lemma sendToPeer_reachable message info pool :
  reachable pool info = true ->
  fst (sendToPeer message (constructPeerIdFromPeerInfo info) pool) = Return tt /\
  sentOnly pool (snd (sendToPeer message (constructPeerIdFromPeerInfo info) pool)) /\
  exists peer,
    getPeer (constructPeerIdFromPeerInfo info)
      (snd (sendToPeer message (constructPeerIdFromPeerInfo info) pool)) = Some peer /\
    In message (outbox peer).
Proof.
  unfold reachable. intros H.
  destruct (getPeer (constructPeerIdFromPeerInfo info) pool) as [peer|] eqn:G;
    [|discriminate].
  rewrite (sendToPeer_connected message _ peer pool G H). cbn [fst snd].
  split; [reflexivity|]. split.
  - intros key. unfold getPeer in *. cbn [_peerMap with_peerMap].
    destruct (String.eqb (constructPeerIdFromPeerInfo info) key) eqn:E.
    + apply String.eqb_eq in E. subst key. rewrite G, map_get_set_eq. simpl.
      split; auto. apply incl_appl, incl_refl.
    + apply String.eqb_neq in E. rewrite map_get_set_ne by exact E.
      destruct (map_get key (_peerMap pool)); auto. split; auto. apply incl_refl.
  - exists (Peer_with_outbox peer (outbox peer ++ [message])).
    unfold getPeer. cbn [_peerMap with_peerMap]. split; [apply map_get_set_eq|].
    simpl. apply in_or_app. right. now left.
Qed.

Lemma sendToPeer_unreachable message info pool :
  reachable pool info = false ->
  exists error,
    sendToPeer message (constructPeerIdFromPeerInfo info) pool = (Throw error, pool).
Proof.
  unfold reachable. intros H.
  destruct (getPeer (constructPeerIdFromPeerInfo info) pool) as [peer|] eqn:G.
  - eexists. now apply sendToPeer_not_connected with (peer := peer).
  - eexists. apply sendToPeer_absent. unfold hasPeer, map_has.
    unfold getPeer in G. now rewrite G.
Qed.

Lemma forEach_sendToPeer message (selected : list P2PDiscoveredPeerInfo) :
  forall pool result,
    result
    = forEach (fun info => sendToPeer message (constructPeerIdFromPeerInfo info))
        selected pool ->
    (fst result = Return tt <-> forallb (reachable pool) selected = true) /\
    sentOnly pool (snd result) /\
    (fst result = Return tt ->
     forall info, In info selected ->
       exists peer,
         getPeer (constructPeerIdFromPeerInfo info) (snd result) = Some peer /\
         In message (outbox peer)).
Proof.
  induction selected as [|info rest IH]; intros pool result Hres.
  - simpl in Hres. subst result. simpl. split; [tauto|]. split; [apply sentOnly_refl|].
    intros _ ? [].
  - cbn [forEach] in Hres. unfold bind at 1 in Hres. cbn [forallb].
    destruct (reachable pool info) eqn:Hreach.
    + destruct (sendToPeer_reachable message info pool Hreach)
        as (Hret & Hsent & peer & Hget & Hin).
      destruct (sendToPeer message (constructPeerIdFromPeerInfo info) pool)
        as [c pool1]. cbn [fst snd] in *. subst c.
      destruct (IH pool1 result Hres) as (Hiff & Hsent' & Hall).
      split.
      * rewrite Hiff. cbn [andb].
        rewrite (forallb_same (reachable pool1) (reachable pool)); [tauto|].
        intros i. now apply sentOnly_reachable.
      * split; [now apply sentOnly_trans with (pool1 := pool1)|].
        intros Hok info' [<-|Hin']; [|now apply Hall].
        specialize (Hsent' (constructPeerIdFromPeerInfo info)).
        rewrite Hget in Hsent'.
        destruct (getPeer (constructPeerIdFromPeerInfo info) (snd result))
          as [peer'|]; [|contradiction].
        exists peer'. split; auto. now apply (proj2 Hsent').
    + destruct (sendToPeer_unreachable message info pool Hreach) as (error & Hthrow).
      rewrite Hthrow in Hres. subst result. cbn [fst snd andb].
      split; [split; discriminate|]. split; [apply sentOnly_refl|discriminate].
Qed.

(** X16: [send] returns without throwing exactly when every peer the
    selector returned is in the map with a connected channel.  Whether it
    returns or throws, the map keeps its ids and each peer its state and
    the messages it had; when it returns, every selected peer has been sent
    the message. *)
Theorem send_succeeds_iff_all_selected_reachable :
  forall (message : P2PMessagePacket) (pool : PeerPool),
    let result := send message pool in
    (fst result = Return tt
     <-> forallb (reachable pool) (sendSelection pool message) = true) /\
    sentOnly pool (snd result) /\
    (fst result = Return tt ->
     forall info, In info (sendSelection pool message) ->
       exists peer,
         getPeer (constructPeerIdFromPeerInfo info) (snd result) = Some peer /\
         In message (outbox peer)).
Proof.
  intros message pool result.
  exact (forEach_sendToPeer message (sendSelection pool message) pool result eq_refl).
Qed.

(* ================================================================== *)
(** * Evicting a peer *)
(* ================================================================== *)

Lemma ownIds_In peer pool :
  ownIdsPool pool -> In peer (map_values (_peerMap pool)) -> ownId peer.
Proof.
  unfold ownIdsPool, map_values. intros Hown Hin.
  apply in_map_iff in Hin. destruct Hin as ([key p] & Heq & Hin). simpl in Heq. subst p.
  rewrite Forall_forall in Hown. exact (Hown _ Hin).
Qed.

(** X17: [_evictPeer] never throws.  For the inbound kind it does nothing.
    For the outbound kind, in a pool keyed by the ids of its peers, it does
    nothing when there is no outbound peer, and otherwise removes one of
    the outbound peers, as [removePeer] does: there is one outbound peer
    less, and as many inbound peers. *)
Theorem _evictPeer_removes_one_outbound_peer :
  forall (random : list nat) (pool : PeerPool),
    wellKeyedPool pool -> ownIdsPool pool ->
    _evictPeer random InboundPeer pool = (Return tt, pool) /\
    let result := _evictPeer random OutboundPeer pool in
    fst result = Return tt /\
    inboundCount (snd result) = inboundCount pool /\
    (outboundCount pool = 0 -> snd result = pool) /\
    (outboundCount pool <> 0 ->
     exists victim,
       In victim (getPeers (Some OutboundPeer) pool) /\
       snd result = snd (removePeer (id victim) pool) /\
       hasPeer (id victim) (snd result) = false /\
       S (outboundCount (snd result)) = outboundCount pool).
Proof.
  intros random pool Hkeyed Hown. split.
  - unfold _evictPeer, bind, this. cbv zeta.
    now destruct (getPeers (Some InboundPeer) pool).
  - intros result.
    assert (Hres : result = _evictPeer random OutboundPeer pool) by reflexivity.
    clearbody result. unfold _evictPeer in Hres. unfold bind at 1, this in Hres.
    cbv zeta in Hres. unfold outboundCount at 1 2. rewrite <- getPeers_length.
    destruct (getPeers (Some OutboundPeer) pool) as [|first others] eqn:Hpeers.
    + unfold ret in Hres. subst result. cbn [fst snd length].
      repeat split; auto. intros H. now contradiction H.
    + assert (Hne : first :: others <> []) by discriminate.
      pose proof (shuffle_nonempty random (first :: others) Hne) as Hshuffled.
      destruct (shuffle random (first :: others)) as [|victim rest] eqn:Hshuffle;
        [now contradiction Hshuffled|].
      pose proof (shuffle_head random _ _ _ Hshuffle) as Hin.
      rewrite <- Hpeers in Hin.
      assert (Hvictim : In victim (map_values (_peerMap pool)) /\
                        ofKind OutboundPeer victim = true).
      { unfold getPeers in Hin. now apply filter_In in Hin. }
      destruct Hvictim as [Hval Hkind].
      pose proof (WellKeyed_In _ _ Hkeyed Hval) as Hget.
      pose proof (ownIds_In _ _ Hown Hval) as Hid. unfold ownId in Hid.
      rewrite <- Hid in Hres. unfold bind in Hres.
      rewrite (removePeer_present _ _ _ Hget) in Hres. unfold ret in Hres.
      subst result. cbn [fst snd].
      destruct Hkeyed as [Hnd _].
      pose proof (countKind_delete_present OutboundPeer _ _ _ Hnd Hget) as Hout.
      pose proof (countKind_delete_present InboundPeer _ _ _ Hnd Hget) as Hinb.
      assert (Hnot : ofKind InboundPeer victim = false).
      { unfold ofKind in *. now destruct (kind victim). }
      rewrite Hkind in Hout. rewrite Hnot in Hinb. cbn [unit_of] in *.
      split; [reflexivity|]. split.
      { unfold inboundCount. cbn [_peerMap with_peerMap with_released]. lia. }
      split.
      { intros H0. cbn [length] in H0. discriminate. }
      intros _. exists victim. split; [rewrite Hpeers in Hin; exact Hin|].
      rewrite (removePeer_present _ _ _ Hget). cbn [snd]. split; [reflexivity|].
      split.
      { unfold hasPeer. cbn [_peerMap with_peerMap]. apply map_has_delete_eq. }
      unfold outboundCount. cbn [_peerMap with_peerMap with_released].
      lia.
Qed.

Lemma _evictPeer_removes_one_outbound_peer_witness :
  wellKeyedPool fullPoolWithOutboundB /\
  ownIdsPool fullPoolWithOutboundB /\
  fst (_evictPeer [] OutboundPeer fullPoolWithOutboundB) = Return tt /\
  inboundCount (snd (_evictPeer [] OutboundPeer fullPoolWithOutboundB))
  = inboundCount fullPoolWithOutboundB.
Proof.
  assert (Hkeyed : wellKeyedPool fullPoolWithOutboundB).
  { vm_compute. split; repeat constructor; simpl; intuition discriminate. }
  assert (Hown : ownIdsPool fullPoolWithOutboundB).
  { vm_compute. repeat constructor. }
  split; [exact Hkeyed|]. split; [exact Hown|].
  destruct (_evictPeer_removes_one_outbound_peer [] fullPoolWithOutboundB Hkeyed Hown)
    as (_ & H1 & H2 & _).
  split; assumption.
Defined.

(* ================================================================== *)
(** * The events of a peer *)
(* ================================================================== *)

Lemma Peer_emit_bound peer eventName arg pool :
  listeners peer = poolListeners ->
  Peer_emit peer eventName arg pool
  = forEach (fun h => handle h arg) (listenersFor eventName poolListeners) pool.
Proof. unfold Peer_emit. now intros ->. Qed.

(** X18: a peer that has the listeners [_bindHandlersToPeer] registers
    emits a request, a message, an aborted connection, a socket error, a
    peer info update or its failure, or an unban: the pool emits the event
    once, with what the peer's event carried, and nothing else of the pool
    changes. *)
Theorem peer_events_are_re_emitted_once :
  forall (peer : Peer) (eventName : string) (arg : EventArg) (pool : PeerPool),
    listeners peer = poolListeners ->
    In eventName reEmittedEvents ->
    Peer_emit peer eventName arg pool
    = (Return tt,
       with_emitted pool
         (emitted pool ++ [mkEmission eventName arg (_peerMap pool)])).
Proof.
  intros peer eventName arg pool Hls Hin.
  rewrite (Peer_emit_bound _ _ _ _ Hls).
  unfold reEmittedEvents in Hin. cbn [In] in Hin.
  repeat (destruct Hin as [<-|Hin]; [reflexivity|]).
  contradiction.
Qed.

Lemma peer_events_are_re_emitted_once_witness :
  listeners outboundA = poolListeners /\
  In EVENT_MESSAGE_RECEIVED reEmittedEvents /\
  emittedEvents (snd (Peer_emit outboundA EVENT_MESSAGE_RECEIVED (ArgMessage hello)
                        poolWithOutboundA))
  = [(EVENT_MESSAGE_RECEIVED, ArgMessage hello)].
Proof.
  assert (Hls : listeners outboundA = poolListeners) by (vm_compute; reflexivity).
  assert (Hin : In EVENT_MESSAGE_RECEIVED reEmittedEvents) by (right; left; reflexivity).
  split; [exact Hls|]. split; [exact Hin|].
  rewrite (peer_events_are_re_emitted_once outboundA EVENT_MESSAGE_RECEIVED
             (ArgMessage hello) poolWithOutboundA Hls Hin).
  vm_compute. reflexivity.
Defined.

Lemma emittedEvents_with_emitted pool log :
  emittedEvents (with_emitted pool log)
  = map (fun emission => (emittedEvent emission, emittedArg emission)) log.
Proof. reflexivity. Qed.

(** X19: a peer that has the listeners of the pool emits a ban.  The pool
    emits the ban with the id, leaves its map as it is, and sets one
    timeout of [peerBanTime]; when that timeout fires the pool emits the
    unban with the same id, whatever happened to the peer. *)
Theorem ban_is_re_emitted_and_unban_scheduled :
  forall (peer : Peer) (peerId : string) (pool : PeerPool),
    listeners peer = poolListeners ->
    let banned := Peer_emit peer EVENT_BAN_PEER (ArgPeerId peerId) pool in
    fst banned = Return tt /\
    _peerMap (snd banned) = _peerMap pool /\
    emittedEvents (snd banned)
    = emittedEvents pool ++ [(EVENT_BAN_PEER, ArgPeerId peerId)] /\
    exists t,
      timeouts (snd banned) = timeouts pool ++ [t] /\
      timeoutDelay t = peerBanTime (_peerPoolConfig pool) /\
      forall later,
        emittedEvents (snd (fireTimeout t later))
        = emittedEvents later ++ [(EVENT_UNBAN_PEER, ArgPeerId peerId)] /\
        fst (fireTimeout t later) = Return tt /\
        _peerMap (snd (fireTimeout t later)) = _peerMap later.
Proof.
  intros peer peerId pool Hls banned. subst banned.
  rewrite (Peer_emit_bound _ _ _ _ Hls).
  change (listenersFor EVENT_BAN_PEER poolListeners) with [_handleBanPeer].
  cbn [forEach handle]. run.
  split; [reflexivity|]. split; [reflexivity|]. split.
  { unfold emittedEvents. cbn [emitted with_emitted with_timeouts].
    now rewrite map_app. }
  eexists. split; [reflexivity|]. split; [reflexivity|].
  intros later. unfold fireTimeout. cbn [timeoutHandler timeoutArg handle]. run.
  split; [|split; reflexivity].
  unfold emittedEvents. cbn [emitted with_emitted]. now rewrite map_app.
Qed.

Lemma ban_is_re_emitted_and_unban_scheduled_witness :
  listeners outboundA = poolListeners /\
  _peerMap (snd (Peer_emit outboundA EVENT_BAN_PEER (ArgPeerId "1.1.1.1:5000")
                   poolWithOutboundA))
  = _peerMap poolWithOutboundA.
Proof.
  assert (Hls : listeners outboundA = poolListeners) by (vm_compute; reflexivity).
  split; [exact Hls|].
  exact (proj1 (proj2 (ban_is_re_emitted_and_unban_scheduled outboundA "1.1.1.1:5000"
                         poolWithOutboundA Hls))).
Defined.

(** X20: a peer that has the listeners of the pool emits the connect of an
    outbound peer.  The pool emits the connect with the peer info; when no
    peer of the id of that peer info is in the map it emits the failure to
    fetch the peer info next, and starts nothing; when there is one it
    starts the fetch of the status, whose end emits the discovered peer, or
    the failure with the error of the fetch. *)
Theorem connect_is_re_emitted_and_status_fetched :
  forall (peer : Peer) (info : P2PDiscoveredPeerInfo) (pool : PeerPool),
    listeners peer = poolListeners ->
    let peerId := constructPeerIdFromPeerInfo info in
    let result := Peer_emit peer EVENT_CONNECT_OUTBOUND (ArgPeerInfo info) pool in
    fst result = Return tt /\
    _peerMap (snd result) = _peerMap pool /\
    (hasPeer peerId pool = false ->
     tasks (snd result) = tasks pool /\
     emittedEvents (snd result)
     = emittedEvents pool
       ++ [(EVENT_CONNECT_OUTBOUND, ArgPeerInfo info);
           (EVENT_FAILED_TO_FETCH_PEER_INFO,
            ArgError (RequestFailError
              "Failed to fetch peer status because the relevant peer could not be found"))]) /\
    (hasPeer peerId pool = true ->
     tasks (snd result) = tasks pool ++ [FetchStatus peerId] /\
     emittedEvents (snd result)
     = emittedEvents pool ++ [(EVENT_CONNECT_OUTBOUND, ArgPeerInfo info)] /\
     forall outcome later,
       emittedEvents (snd (settleFetchStatus outcome later))
       = emittedEvents later
         ++ [match outcome with
             | inr detailedPeerInfo =>
                 (EVENT_DISCOVERED_PEER, ArgPeerInfo detailedPeerInfo)
             | inl error => (EVENT_FAILED_TO_FETCH_PEER_INFO, ArgError error)
             end]).
Proof.
  intros peer info pool Hls peerId result. subst result.
  rewrite (Peer_emit_bound _ _ _ _ Hls).
  change (listenersFor EVENT_CONNECT_OUTBOUND poolListeners)
    with [_handleOutboundPeerConnect].
  cbn [forEach handle]. fold peerId. unfold hasPeer, map_has, getPeer.
  unfold bind, this, emit, update, ret. cbn [fst snd _peerMap with_emitted].
  destruct (map_get peerId (_peerMap pool)) as [known|] eqn:Hget;
    cbn [fst snd _peerMap with_emitted with_tasks tasks].
  - split; [reflexivity|]. split; [reflexivity|]. split; [discriminate|].
    intros _. split; [reflexivity|]. split.
    + unfold emittedEvents. cbn [emitted with_emitted with_tasks].
      now rewrite map_app.
    + intros [error|detailed] later; unfold settleFetchStatus, emit, update;
        cbn [snd]; unfold emittedEvents; cbn [emitted with_emitted];
        now rewrite map_app.
  - split; [reflexivity|]. split; [reflexivity|]. split; [|discriminate].
    intros _. split; [reflexivity|].
    unfold emittedEvents. cbn [emitted with_emitted].
    rewrite !map_app, <- app_assoc. reflexivity.
Qed.

Lemma connect_is_re_emitted_and_status_fetched_witness :
  listeners outboundA = poolListeners /\
  hasPeer (constructPeerIdFromPeerInfo peerA) poolWithOutboundA = true /\
  tasks (snd (Peer_emit outboundA EVENT_CONNECT_OUTBOUND (ArgPeerInfo peerA)
                poolWithOutboundA))
  = tasks poolWithOutboundA ++ [FetchStatus (constructPeerIdFromPeerInfo peerA)].
Proof.
  assert (Hls : listeners outboundA = poolListeners) by (vm_compute; reflexivity).
  assert (Hhas : hasPeer (constructPeerIdFromPeerInfo peerA) poolWithOutboundA = true)
    by (vm_compute; reflexivity).
  split; [exact Hls|]. split; [exact Hhas|].
  exact (proj1 (proj2 (proj2 (proj2
           (connect_is_re_emitted_and_status_fetched outboundA peerA
              poolWithOutboundA Hls))) Hhas)).
Defined.

(* ================================================================== *)
(** * The node info and the penalties *)
(* ================================================================== *)

Lemma forEach_applyNodeInfoOnPeer nodeInfo (peerList : list Peer) :
  forall pool,
    forEach (fun peer => _applyNodeInfoOnPeer peer nodeInfo) peerList pool
    = (Return tt,
       with_tasks pool
         (tasks pool ++ map (fun peer => PushNodeInfo (id peer) nodeInfo) peerList)).
Proof.
  induction peerList as [|peer rest IH]; intros pool.
  - simpl. unfold ret. rewrite app_nil_r. now destruct pool.
  - cbn [forEach]. unfold bind, _applyNodeInfoOnPeer at 1, update.
    rewrite IH. cbn [tasks with_tasks map]. rewrite <- app_assoc.
    reflexivity.
Qed.

Lemma applyNodeInfo_result nodeInfo pool :
  applyNodeInfo nodeInfo pool
  = (Return tt,
     with_tasks (with_nodeInfo pool (Some nodeInfo))
       (tasks pool
        ++ map (fun peer => PushNodeInfo (id peer) nodeInfo) (getPeers None pool))).
Proof.
  change (applyNodeInfo nodeInfo pool) with
    (forEach (fun peer => _applyNodeInfoOnPeer peer nodeInfo)
       (getPeers None (with_nodeInfo pool (Some nodeInfo)))
       (with_nodeInfo pool (Some nodeInfo))).
  now rewrite forEach_applyNodeInfoOnPeer.
Qed.

(** X21: [applyNodeInfo] returns, keeps the node info, and starts one push
    of it for every peer of the map, in the order of the map; the map and
    the emitted events are as they were.  A peer that [addOutboundPeer]
    creates afterwards is pushed the same node info. *)
Theorem applyNodeInfo_pushes_to_every_peer :
  forall (nodeInfo : P2PNodeInfo) (pool : PeerPool),
    let result := applyNodeInfo nodeInfo pool in
    fst result = Return tt /\
    _nodeInfo (snd result) = Some nodeInfo /\
    _peerMap (snd result) = _peerMap pool /\
    emitted (snd result) = emitted pool /\
    tasks (snd result)
    = tasks pool
      ++ map (fun peer => PushNodeInfo (id peer) nodeInfo) (getPeers None pool) /\
    forall peerId info socket,
      hasPeer peerId pool = false ->
      tasks (snd (addOutboundPeer peerId info socket (snd result)))
      = tasks (snd result)
        ++ [PushNodeInfo (constructPeerIdFromPeerInfo info) nodeInfo].
Proof.
  intros nodeInfo pool result. subst result.
  rewrite applyNodeInfo_result.
  cbn [fst snd _nodeInfo _peerMap emitted tasks with_tasks with_nodeInfo].
  repeat (split; [reflexivity|]).
  intros peerId info socket Habsent.
  unfold addOutboundPeer, hasPeer, map_has, getPeer in *. run.
  destruct (map_get peerId (_peerMap pool)); [discriminate|]. run. reflexivity.
Qed.

Lemma map_get_set_other {V : Type} (key other : string) (v : V) (m : JsMap V) :
  other <> key -> map_get other (map_set key v m) = map_get other m.
Proof.
  intros Hne. apply map_get_set_ne. congruence.
Qed.

(** X22: [applyPenalty] on an id that is not in the map throws
    [Error "Peer not found"] and leaves the pool as it is; on an id of the
    map it returns, the peer under the id has taken the penalty, and every
    other peer, the ids and the emitted events are as they were. *)
Theorem applyPenalty_reaches_one_peer :
  forall (peerPenalty : P2PPenalty) (pool : PeerPool),
    let peerId := penaltyPeerId peerPenalty in
    let result := applyPenalty peerPenalty pool in
    (hasPeer peerId pool = false ->
     result = (Throw (Error "Peer not found"), pool)) /\
    (forall peer,
       getPeer peerId pool = Some peer ->
       fst result = Return tt /\
       getPeer peerId (snd result)
       = Some (Peer_applyPenalty peer (penaltyWeight peerPenalty)) /\
       (forall other, other <> peerId ->
          getPeer other (snd result) = getPeer other pool) /\
       map_keys (_peerMap (snd result)) = map_keys (_peerMap pool) /\
       emitted (snd result) = emitted pool).
Proof.
  intros peerPenalty pool peerId result. subst result.
  unfold applyPenalty, hasPeer, map_has, getPeer. fold peerId.
  unfold bind, this, mutatePeer, update, throw.
  destruct (map_get peerId (_peerMap pool)) as [peer|] eqn:Hget.
  - split; [discriminate|]. intros p Hp. injection Hp as <-.
    cbn [fst snd _peerMap with_peerMap emitted].
    split; [reflexivity|]. split; [apply map_get_set_eq|]. split.
    + intros other Hne. now apply map_get_set_other.
    + split; [|reflexivity]. apply map_keys_set_present.
      unfold map_has. now rewrite Hget.
  - split; [reflexivity|]. intros p Hp. discriminate.
Qed.

Lemma applyPenalty_reaches_one_peer_witness :
  getPeer "1.1.1.1:5000" poolWithOutboundA = Some outboundA /\
  getPeer "1.1.1.1:5000"
    (snd (applyPenalty (mkP2PPenalty "1.1.1.1:5000" 10) poolWithOutboundA))
  = Some (Peer_applyPenalty outboundA 10) /\
  (hasPeer "2.2.2.2:5000" poolWithOutboundA = false /\
   applyPenalty (mkP2PPenalty "2.2.2.2:5000" 10) poolWithOutboundA
   = (Throw (Error "Peer not found"), poolWithOutboundA)).
Proof.
  assert (Hget : getPeer "1.1.1.1:5000" poolWithOutboundA = Some outboundA)
    by (vm_compute; reflexivity).
  assert (Habsent : hasPeer "2.2.2.2:5000" poolWithOutboundA = false)
    by (vm_compute; reflexivity).
  split; [exact Hget|]. split.
  - exact (proj1 (proj2 (proj2 (applyPenalty_reaches_one_peer
             (mkP2PPenalty "1.1.1.1:5000" 10) poolWithOutboundA) outboundA Hget))).
  - split; [exact Habsent|].
    exact (proj1 (applyPenalty_reaches_one_peer
             (mkP2PPenalty "2.2.2.2:5000" 10) poolWithOutboundA) Habsent).
Defined.

(** X23: [request] and [requestFromPeer] leave the pool as it is, whether
    they return or throw.  In a pool keyed by the ids of its peers, when the
    first peer the selector returns is in the map, [request] returns the
    answer to the packet of the peer of that id, or throws the error of
    that request. *)
Theorem request_reads_the_pool_only :
  forall (network : Network) (packet : P2PRequestPacket) (pool : PeerPool),
    snd (request network packet pool) = pool /\
    (forall peerId, snd (requestFromPeer network packet peerId pool) = pool) /\
    (wellKeyedPool pool ->
     forall first rest,
       requestSelection pool packet = first :: rest ->
       hasPeer (constructPeerIdFromPeerInfo first) pool = true ->
       fst (request network packet pool)
       = match network (constructPeerIdFromPeerInfo first) packet with
         | inr response => Return response
         | inl error => Throw error
         end).
Proof.
  intros network packet pool.
  split; [apply request_state|]. split; [intros; apply requestFromPeer_state|].
  intros Hkeyed first rest Hsel Hhas.
  unfold hasPeer, map_has in Hhas.
  destruct (map_get (constructPeerIdFromPeerInfo first) (_peerMap pool))
    as [peer|] eqn:Hget; [|discriminate].
  assert (Hreq : request network packet pool
                 = requestFromPeer network packet
                     (constructPeerIdFromPeerInfo first) pool).
  { unfold requestSelection in Hsel. unfold request, bind at 1, this.
    cbv zeta. now rewrite Hsel. }
  rewrite Hreq, (requestFromPeer_present network packet _ peer pool Hget).
  cbn [fst]. unfold Peer_request.
  now rewrite (WellKeyed_get _ _ _ Hkeyed Hget).
Qed.

Lemma request_reads_the_pool_only_witness :
  wellKeyedPool poolWithInboundA /\
  requestSelection poolWithInboundA getBlocks = [peerA] /\
  hasPeer (constructPeerIdFromPeerInfo peerA) poolWithInboundA = true /\
  fst (request echoNetwork getBlocks poolWithInboundA)
  = match echoNetwork (constructPeerIdFromPeerInfo peerA) getBlocks with
    | inr response => Return response
    | inl error => Throw error
    end.
Proof.
  assert (Hkeyed : wellKeyedPool poolWithInboundA).
  { vm_compute. split; repeat constructor; simpl; intuition discriminate. }
  assert (Hsel : requestSelection poolWithInboundA getBlocks = [peerA])
    by (vm_compute; reflexivity).
  assert (Hhas : hasPeer (constructPeerIdFromPeerInfo peerA) poolWithInboundA = true)
    by (vm_compute; reflexivity).
  split; [exact Hkeyed|]. split; [exact Hsel|]. split; [exact Hhas|].
  exact (proj2 (proj2 (request_reads_the_pool_only echoNetwork getBlocks
                         poolWithInboundA)) Hkeyed peerA [] Hsel Hhas).
Defined.

(* ================================================================== *)
(** * The statements on the sample pools *)
(* ================================================================== *)

Lemma triggerNewConnections_connects_the_selection_witness :
  In peerA (connectionSelection emptyPool [peerA]) /\
  hasPeer (constructPeerIdFromPeerInfo peerA)
    (snd (triggerNewConnections [peerA] emptyPool)) = true.
Proof.
  assert (Hin : In peerA (connectionSelection emptyPool [peerA]))
    by (vm_compute; left; reflexivity).
  split; [exact Hin|].
  exact (proj1 (proj2 (proj2
           (triggerNewConnections_connects_the_selection emptyPool [peerA])))
           peerA Hin).
Defined.

Lemma fetchStatusAndCreatePeers_returns_the_connected_seeds_witness :
  In peerA (connectedSeeds everySeedAnswers ownNodeInfo (outboundPeerConfig emptyPool)
              [peerA]) /\
  hasPeer (constructPeerIdFromPeerInfo peerA)
    (snd (fetchStatusAndCreatePeers everySeedAnswers [peerA] ownNodeInfo
            (outboundPeerConfig emptyPool) emptyPool)) = true.
Proof.
  assert (Hin : In peerA (connectedSeeds everySeedAnswers ownNodeInfo
                            (outboundPeerConfig emptyPool) [peerA]))
    by (vm_compute; left; reflexivity).
  split; [exact Hin|].
  exact (proj1 (proj2 (proj2 (proj2
           (fetchStatusAndCreatePeers_returns_the_connected_seeds everySeedAnswers
              [peerA] ownNodeInfo (outboundPeerConfig emptyPool) emptyPool))))
           peerA Hin).
Defined.

Lemma selectRandomPeerSample_samples_the_list_witness :
  NoDup [outboundA] /\
  length [outboundA] <= 1 /\
  NoDup (selectRandomPeerSample [] [outboundA] 1) /\
  Permutation (selectRandomPeerSample [] [outboundA] 1) [outboundA].
Proof.
  assert (Hnd : NoDup [outboundA]).
  { constructor; [intros []|constructor]. }
  assert (Hlen : length [outboundA] <= 1) by (simpl; lia).
  split; [exact Hnd|]. split; [exact Hlen|].
  destruct (selectRandomPeerSample_samples_the_list [] [outboundA] 1)
    as (_ & _ & Hsample & Hperm).
  split; [exact (Hsample Hnd)|exact (Hperm Hlen)].
Defined.

Lemma runDiscovery_returns_what_the_probe_answers_witness :
  exists discoveredPeers,
    fst (runDiscovery [] probeFindsB [peerA; peerB] [] emptyPool)
    = Return discoveredPeers /\
    NoDup (map constructPeerIdFromPeerInfo discoveredPeers) /\
    forall info peer,
      In info discoveredPeers ->
      getPeer (constructPeerIdFromPeerInfo info)
        (snd (runDiscovery [] probeFindsB [peerA; peerB] [] emptyPool)) = Some peer ->
      peerInfo peer = info.
Proof.
  destruct (runDiscovery_returns_what_the_probe_answers [] probeFindsB
              [peerA; peerB] [] emptyPool)
    as (peers & discovered & _ & _ & Hd & Hret & _ & _ & Hupd).
  exists discovered.
  assert (Hnd : NoDup (map constructPeerIdFromPeerInfo discovered)).
  { rewrite Hd. unfold probeFindsB. simpl. constructor; [intros []|constructor]. }
  split; [exact Hret|]. split; [exact Hnd|]. exact (Hupd Hnd).
Defined.

Lemma send_succeeds_iff_all_selected_reachable_witness :
  forallb (reachable poolWithInboundA) (sendSelection poolWithInboundA hello) = true /\
  fst (send hello poolWithInboundA) = Return tt /\
  In peerA (sendSelection poolWithInboundA hello) /\
  exists peer,
    getPeer (constructPeerIdFromPeerInfo peerA) (snd (send hello poolWithInboundA))
    = Some peer /\
    In hello (outbox peer).
Proof.
  assert (Hall : forallb (reachable poolWithInboundA)
                   (sendSelection poolWithInboundA hello) = true)
    by (vm_compute; reflexivity).
  assert (Hin : In peerA (sendSelection poolWithInboundA hello))
    by (vm_compute; left; reflexivity).
  destruct (send_succeeds_iff_all_selected_reachable hello poolWithInboundA)
    as (Hiff & _ & Hsent).
  split; [exact Hall|]. split; [exact (proj2 Hiff Hall)|]. split; [exact Hin|].
  exact (Hsent (proj2 Hiff Hall) peerA Hin).
Defined.

Lemma applyNodeInfo_pushes_to_every_peer_witness :
  hasPeer "2.2.2.2:5000" poolWithOutboundA = false /\
  tasks (snd (addOutboundPeer "2.2.2.2:5000" peerB None
                (snd (applyNodeInfo ownNodeInfo poolWithOutboundA))))
  = tasks (snd (applyNodeInfo ownNodeInfo poolWithOutboundA))
    ++ [PushNodeInfo (constructPeerIdFromPeerInfo peerB) ownNodeInfo].
Proof.
  assert (Habsent : hasPeer "2.2.2.2:5000" poolWithOutboundA = false)
    by (vm_compute; reflexivity).
  split; [exact Habsent|].
  exact (proj2 (proj2 (proj2 (proj2 (proj2
           (applyNodeInfo_pushes_to_every_peer ownNodeInfo poolWithOutboundA)))))
           "2.2.2.2:5000" peerB None Habsent).
Defined.

Lemma reached_pools_hold_each_peer_under_its_id_witness :
  getPeer "1.1.1.1:5000"
    (performAll [CallAddOutboundPeer "1.1.1.1:5000" peerA None]
       (new_PeerPool (sampleConfig 2 2)))
  = Some outboundA /\
  id outboundA = "1.1.1.1:5000".
Proof.
  assert (Hget : getPeer "1.1.1.1:5000"
                   (performAll [CallAddOutboundPeer "1.1.1.1:5000" peerA None]
                      (new_PeerPool (sampleConfig 2 2)))
                 = Some outboundA) by (vm_compute; reflexivity).
  split; [exact Hget|].
  exact (proj1 (proj2 (reached_pools_hold_each_peer_under_its_id (sampleConfig 2 2)
                         [CallAddOutboundPeer "1.1.1.1:5000" peerA None]))
           "1.1.1.1:5000" outboundA Hget).
Defined.

(* ================================================================== *)
(** * The async methods and their parts *)
(* ================================================================== *)

Lemma performAll_cons op ops pool :
  performAll (op :: ops) pool = performAll ops (perform op pool).
Proof. reflexivity. Qed.

Lemma fetchStatusAndCreatePeers_settled_returns outcome pool :
  exists result, fst (fetchStatusAndCreatePeers_settled outcome pool) = Return result.
Proof.
  unfold fetchStatusAndCreatePeers_settled, tryCatch.
  destruct outcome as [error|[info sock]].
  - unfold throw. run. eexists. reflexivity.
  - unfold bind at 1.
    destruct (addOutboundPeer (constructPeerIdFromPeerInfo info) info (Some sock) pool)
      as [[peer|error] pool1]; run; eexists; reflexivity.
Qed.

Lemma mapM_settled_in_steps (outcomes : list (P2PError + (P2PDiscoveredPeerInfo * Socket))) :
  forall pool,
    snd (mapM fetchStatusAndCreatePeers_settled outcomes pool)
    = performAll (map ResumeFetchStatusAndCreatePeers outcomes) pool.
Proof.
  induction outcomes as [|outcome rest IH]; intros pool; [reflexivity|].
  cbn [map]. rewrite performAll_cons. cbn [perform mapM]. unfold bind at 1.
  destruct (fetchStatusAndCreatePeers_settled_returns outcome pool) as [r Hr].
  destruct (fetchStatusAndCreatePeers_settled outcome pool) as [c pool1].
  cbn [fst snd] in *. subst c. unfold bind. rewrite <- IH.
  now destruct (mapM fetchStatusAndCreatePeers_settled rest pool1) as [[rs|e] pool2].
Qed.

Lemma mapM_map {A B C : Type} (g : A -> B) (f : B -> M C) (l : list A) :
  forall pool, mapM (fun a => f (g a)) l pool = mapM f (map g l) pool.
Proof.
  induction l as [|a rest IH]; intros pool; [reflexivity|].
  cbn [mapM map]. unfold bind at 1 3.
  destruct (f (g a) pool) as [[c|e] pool1]; [|reflexivity].
  unfold bind. now rewrite IH.
Qed.

(** X24: the run of an async method in which nothing else happens during
    its awaits leaves the pool that its parts leave when they run one after
    the other: for [fetchStatusAndCreatePeers] the callbacks of the seeds
    in the order of the seeds, for [runDiscovery] the part before the probe
    and the part after it, on what the probe answered for the sample. *)
Theorem async_runs_are_their_parts_in_sequence :
  forall (random : list nat) connect discover
         (seedPeers : list P2PPeerInfo) (nodeInfo : P2PNodeInfo) (peerConfig : PeerConfig)
         (knownPeers : list P2PDiscoveredPeerInfo) (blacklist : list P2PPeerInfo)
         (pool : PeerPool),
    perform (CallFetchStatusAndCreatePeers connect seedPeers nodeInfo peerConfig) pool
    = performAll
        (map (fun seedPeer =>
                ResumeFetchStatusAndCreatePeers (connect seedPeer nodeInfo peerConfig))
           seedPeers) pool /\
    exists peersForDiscovery,
      fst (runDiscovery_started knownPeers pool) = Return peersForDiscovery /\
      perform (CallRunDiscovery random discover knownPeers blacklist) pool
      = performAll
          [ StartRunDiscovery knownPeers;
            ResumeRunDiscovery
              (discover
                 (selectRandomPeerSample random peersForDiscovery
                    MAX_PEER_DISCOVERY_PROBE_SAMPLE_SIZE)
                 (map ipAddress blacklist)) ] pool.
Proof.
  intros random connect discover seedPeers nodeInfo peerConfig knownPeers blacklist pool.
  split.
  - cbn [perform]. unfold fetchStatusAndCreatePeers.
    rewrite <- (map_map (fun seedPeer => connect seedPeer nodeInfo peerConfig)
                  ResumeFetchStatusAndCreatePeers).
    rewrite <- mapM_settled_in_steps. unfold bind.
    rewrite (mapM_map (fun seedPeer => connect seedPeer nodeInfo peerConfig)
               fetchStatusAndCreatePeers_settled).
    now destruct (mapM fetchStatusAndCreatePeers_settled _ pool) as [[rs|e] pool1].
  - destruct (mapM_runDiscovery_known knownPeers pool _ eq_refl) as (peers & Hr & _).
    exists peers. split; [exact Hr|].
    rewrite !performAll_cons. cbn [perform performAll fold_left].
    unfold runDiscovery. unfold bind at 1.
    change (mapM runDiscovery_known knownPeers pool)
      with (runDiscovery_started knownPeers pool) in Hr.
    destruct (runDiscovery_started knownPeers pool) as [c pool1].
    cbn [fst snd] in *. subst c. reflexivity.
Qed.

(** The condition of C1 on a dial is on the map when the dial settles, not
    when [fetchStatusAndCreatePeers] is called: the seed [1.1.1.1:5000] is
    in the map at the call; it is removed and another peer connected before
    the dial settles, and the callback then adds a second outbound peer to
    a pool of at most one. *)
Lemma outbound_limit_exceeded_by_late_dial :
  hasPeer "1.1.1.1:5000"
    (perform (CallAddOutboundPeer "1.1.1.1:5000" peerA None) narrowPool) = true /\
  ~ Forall withinOutboundLimit (poolsAfter lateDial narrowPool).
Proof.
  split; [vm_compute; reflexivity|].
  intros H. rewrite Forall_forall in H.
  assert (Hlast : withinOutboundLimit
            (perform (ResumeFetchStatusAndCreatePeers (inr (peerA, mkSocket "seed")))
               (perform (CallTriggerNewConnections [peerB])
                  (perform (CallRemovePeer "1.1.1.1:5000")
                     (perform (CallAddOutboundPeer "1.1.1.1:5000" peerA None)
                        narrowPool))))).
  { apply H. unfold lateDial. cbn [poolsAfter]. do 3 right. left. reflexivity. }
  vm_compute in Hlast. apply Hlast. reflexivity.
Qed.

(* ================================================================== *)
(** * Every peer is held under the id of its peer info *)
(* ================================================================== *)
















(* ================================================================== *)
(** * The close events of the peers of the pools the steps reach *)
(* ================================================================== *)



